(** * Route plotter engine: geometry, timing and deterministic runtime

    A shallow embedding of [engine/geometry.ts], [engine/timing.ts] and
    [engine/runtime.ts] and the properties of their specification.

    Numbers.  A JavaScript number is modelled by a rational [Q]: sums,
    products and comparisons are exact, so rounding is not part of the model,
    and statements about numbers use [==].  A division whose divisor is zero
    gives Infinity or NaN in JavaScript; the model has no such values and
    stops with [Err NonFinite] where such a quotient is used.  A property
    access on [undefined] throws; the model stops with [Err Thrown].
    [Math.sqrt] has no rational counterpart and is a parameter of the
    development ([sqrt]); [sqrtQ] below is exact on squares of rationals and
    serves in the worked examples.

    Objects.  Every slot of [segments] holds an object of its own (each comes
    from one [push] of [buildTimingMap]), and so does every slot of
    [waypoints]; a reference to a segment or to a waypoint is modelled by its
    position in the array together with its value, and [indexOf] gives that
    position back. *)

From Stdlib Require Import String.
From Stdlib Require Import QArith Qround ZArith List Bool Lia Lqa Qfield.
Import ListNotations.
Open Scope Q_scope.

(** ** Results of a computation *)

Inductive failure : Type :=
| Thrown      (* a JavaScript exception *)
| NonFinite   (* a division by zero: Infinity or NaN from here on *)
| OutOfFuel.  (* a loop did not finish within the fuel it was given *)

Inductive res (A : Type) : Type :=
| Ok (a : A)
| Err (e : failure).
Arguments Ok {A} a.
Arguments Err {A} e.

Definition bind {A B : Type} (r : res A) (k : A -> res B) : res B :=
  match r with
  | Ok a => k a
  | Err e => Err e
  end.

Notation "x <- r ;; k" := (bind r (fun x => k))
  (at level 61, r at next level, right associativity).

(** [a / b] of the source. *)
Definition jsdiv (a b : Q) : res Q :=
  if Qeq_bool b 0 then Err NonFinite else Ok (a / b).

(** [a < b] and [a >= b] of the source. *)
Definition Qltb (a b : Q) : bool := negb (Qle_bool b a).
Definition Qgeb (a b : Q) : bool := Qle_bool b a.

Definition Math_min (a b : Q) : Q := if Qle_bool a b then a else b.
Definition Math_max (a b : Q) : Q := if Qle_bool a b then b else a.

(** [Math.max(0, Math.min(v, hi))]. *)
Definition clamp0 (v hi : Q) : Q := Math_max 0 (Math_min v hi).

(** An array read [a[i]] with [i] an integer: [None] is [undefined]. *)
Definition at_index {A : Type} (a : list A) (i : Z) : option A :=
  if (i <? 0)%Z then None else nth_error a (Z.to_nat i).

(** A read whose result is dereferenced next ([a[i].x]), or returned where
    the index is in range by construction. *)
Definition deref {A : Type} (o : option A) : res A :=
  match o with
  | Some v => Ok v
  | None => Err Thrown
  end.

(** A read of a number that goes into arithmetic: [undefined] turns the
    result into NaN. *)
Definition as_number (o : option Q) : res Q :=
  match o with
  | Some v => Ok v
  | None => Err NonFinite
  end.

(** A square root that is exact on squares of rationals. *)
Definition sqrtQ (q : Q) : Q :=
  let r := Qred q in
  Qmake (Z.sqrt (Qnum r)) (Z.to_pos (Z.sqrt (Zpos (Qden r)))).

(** ** Data model *)

Record Point : Type := mkPoint { x : Q; y : Q }.

Inductive TimingMode : Type := constantTime | constantSpeed.

Inductive PauseMode : Type := pause_none | pause_seconds | pause_click.

Definition PauseMode_eqb (a b : PauseMode) : bool :=
  match a, b with
  | pause_none, pause_none
  | pause_seconds, pause_seconds
  | pause_click, pause_click => true
  | _, _ => false
  end.

(** The coordinates of a waypoint are [wx] and [wy] ([x] and [y] name the
    fields of [Point]). *)
Record Waypoint : Type := mkWaypoint {
  id : string;
  wx : Q;
  wy : Q;
  isMajor : bool;
  labelId : option string
}.

Record Segment : Type := mkSegment {
  startTime : Q;
  endTime : Q;
  duration : Q;
  startProgress : Q;
  endProgress : Q;
  startWaypointIndex : Z;
  endWaypointIndex : Z;
  hasPause : bool;
  pauseDuration : Q
}.

(** [totalPathLength] is [None] where the source stores [undefined] (the
    last entry of an empty arc-length table). *)
Record SegmentTimingMap : Type := mkSegmentTimingMap {
  segments : list Segment;
  totalDuration : Q;
  totalPathLength : option Q;
  map_mode : TimingMode;
  baseSpeed : Q
}.

Record TimingConfig : Type := mkTimingConfig {
  mode : TimingMode;
  baseSpeedPxPerSec : Q;
  pauseMode : PauseMode;
  pauseSeconds : Q;
  easeInOut : bool
}.

Section Model.

Variable sqrt : Q -> Q.

(** ** Geometry *)

(** [Math.pow(d, alpha)] with [alpha = 0.5]. *)
Definition pow_alpha (d : Q) : Q := sqrt d.

Definition distance (a b : Point) : Q :=
  let dx := x b - x a in
  let dy := y b - y a in
  sqrt (dx * dx + dy * dy).

(** [na / da * u + nb / db * v], the shape of every blend in the spline. *)
Definition blend (na da u nb db v : Q) : res Q :=
  ca <- jsdiv na da ;;
  cb <- jsdiv nb db ;;
  Ok (ca * u + cb * v).

Definition catmullRomCentripetal (p0 p1 p2 p3 : Point) (t tension : Q)
  : res Point :=
  let d01 := distance p0 p1 in
  let d12 := distance p1 p2 in
  let d23 := distance p2 p3 in
  let t0 := 0 in
  let t1 := t0 + pow_alpha d01 in
  let t2 := t1 + pow_alpha d12 in
  let t3 := t2 + pow_alpha d23 in
  let t := t1 + t * (t2 - t1) in
  let t1t0 := t1 - t0 in
  let t2t1 := t2 - t1 in
  let t3t2 := t3 - t2 in
  A1x <- blend (t1 - t) t1t0 (x p0) (t - t0) t1t0 (x p1) ;;
  A1y <- blend (t1 - t) t1t0 (y p0) (t - t0) t1t0 (y p1) ;;
  A2x <- blend (t2 - t) t2t1 (x p1) (t - t1) t2t1 (x p2) ;;
  A2y <- blend (t2 - t) t2t1 (y p1) (t - t1) t2t1 (y p2) ;;
  A3x <- blend (t3 - t) t3t2 (x p2) (t - t2) t3t2 (x p3) ;;
  A3y <- blend (t3 - t) t3t2 (y p2) (t - t2) t3t2 (y p3) ;;
  B1x <- blend (t2 - t) (t2 - t0) A1x (t - t0) (t2 - t0) A2x ;;
  B1y <- blend (t2 - t) (t2 - t0) A1y (t - t0) (t2 - t0) A2y ;;
  B2x <- blend (t3 - t) (t3 - t1) A2x (t - t1) (t3 - t1) A3x ;;
  B2y <- blend (t3 - t) (t3 - t1) A2y (t - t1) (t3 - t1) A3y ;;
  let linearX := (1 - t) * x p1 + t * x p2 in
  let linearY := (1 - t) * y p1 + t * y p2 in
  curvedX <- blend (t2 - t) (t2 - t1) B1x (t - t1) (t2 - t1) B2x ;;
  curvedY <- blend (t2 - t) (t2 - t1) B1y (t - t1) (t2 - t1) B2y ;;
  Ok {| x := linearX * (1 - tension) + curvedX * tension;
        y := linearY * (1 - tension) + curvedY * tension |}.

(** The default value of the [tension] parameter. *)
Definition default_tension : Q := 1 # 2.

(** The loop of [buildArcLengthTable] from [i = 1]: [prev] is
    [points[i - 1]], [rest] the points from [i] on. *)
Fixpoint arcLengthLoop (prev : Point) (rest : list Point) (totalDistance : Q)
  : list Q :=
  match rest with
  | [] => []
  | p :: rest' =>
      let segmentLength := distance prev p in
      let totalDistance := totalDistance + segmentLength in
      totalDistance :: arcLengthLoop p rest' totalDistance
  end.

Definition buildArcLengthTable (points : list Point) : list Q :=
  match points with
  | [] => []
  | p :: rest => 0 :: arcLengthLoop p rest 0
  end.

(** The search loop of [getPositionAtArcLength]: [ds] holds
    [distances[i ..]]; the answer is [0] when no entry reaches the
    target. *)
Fixpoint findSegmentIndex (ds : list Q) (i : nat) (targetLength : Q) : nat :=
  match ds with
  | [] => 0%nat
  | d :: ds' =>
      if Qgeb d targetLength then (i - 1)%nat
      else findSegmentIndex ds' (S i) targetLength
  end.

Definition getPositionAtArcLength (points : list Point) (distances : list Q)
  (targetLength : Q) : res Point :=
  match points with
  | [] => Ok {| x := 0; y := 0 |}
  | [p] => Ok p
  | _ =>
      let len := Z.of_nat (length points) in
      totalLength <- as_number (at_index distances
                                  (Z.of_nat (length distances) - 1)) ;;
      let targetLength := clamp0 targetLength totalLength in
      let segmentIndex :=
        Z.of_nat (findSegmentIndex (tl distances) 1 targetLength) in
      if (segmentIndex >=? len - 1)%Z then
        deref (at_index points (len - 1))
      else
        segmentStartLength <- as_number (at_index distances segmentIndex) ;;
        segmentEndLength <- as_number (at_index distances (segmentIndex + 1)) ;;
        let segmentLength := segmentEndLength - segmentStartLength in
        if Qeq_bool segmentLength 0 then
          deref (at_index points segmentIndex)
        else
          t <- jsdiv (targetLength - segmentStartLength) segmentLength ;;
          p0 <- deref (at_index points (Z.max 0 (segmentIndex - 1))) ;;
          p1 <- deref (at_index points segmentIndex) ;;
          p2 <- deref (at_index points (segmentIndex + 1)) ;;
          p3 <- deref (at_index points (Z.min (len - 1) (segmentIndex + 2))) ;;
          catmullRomCentripetal p0 p1 p2 p3 t default_tension
  end.

(** The inner loop of [generateSmoothPath]: [n] iterations remain, [j] is
    the loop variable. *)
Fixpoint sampleLoop (n : nat) (j : Z) (pointsPerSegment : Z)
  (p0 p1 p2 p3 : Point) (tension : Q) (smoothPath : list Point)
  : res (list Point) :=
  match n with
  | O => Ok smoothPath
  | S n' =>
      t <- jsdiv (inject_Z j) (inject_Z pointsPerSegment) ;;
      point <- catmullRomCentripetal p0 p1 p2 p3 t tension ;;
      sampleLoop n' (j + 1) pointsPerSegment p0 p1 p2 p3 tension
        (smoothPath ++ [point])
  end.

(** The outer loop of [generateSmoothPath]: [n] iterations remain, [i] is
    the loop variable. *)
Fixpoint pathLoop (n : nat) (i : Z) (points : list Point)
  (pointsPerSegment : Z) (tension : Q) (smoothPath : list Point)
  : res (list Point) :=
  match n with
  | O => Ok smoothPath
  | S n' =>
      let len := Z.of_nat (length points) in
      smoothPath <- (if (i =? 0)%Z
                     then p <- deref (at_index points i) ;; Ok (smoothPath ++ [p])
                     else Ok smoothPath) ;;
      p0 <- deref (at_index points (Z.max 0 (i - 1))) ;;
      p1 <- deref (at_index points i) ;;
      p2 <- deref (at_index points (i + 1)) ;;
      p3 <- deref (at_index points (Z.min (len - 1) (i + 2))) ;;
      smoothPath <- sampleLoop (Z.to_nat pointsPerSegment) 1 pointsPerSegment
                      p0 p1 p2 p3 tension smoothPath ;;
      pathLoop n' (i + 1) points pointsPerSegment tension smoothPath
  end.

(** [pointsPerSegment] is a whole number of samples. *)
Definition generateSmoothPath (points : list Point) (pointsPerSegment : Z)
  (tension : Q) : res (list Point) :=
  if (Z.of_nat (length points) <? 2)%Z then Ok points
  else pathLoop (length points - 1) 0 points pointsPerSegment tension [].

(** ** Timing *)

Definition quadraticEaseInOut (t : Q) : Q :=
  if Qltb t (1 # 2) then 2 * t * t
  else - (1) + (4 - 2 * t) * t.

Definition applyEasing (progress : Q) (useEasing : bool)
  (segmentIndex totalSegments : Z) : Q :=
  if negb useEasing then progress
  else if ((segmentIndex =? 0) || (segmentIndex =? totalSegments - 1))%Z
       then progress
       else quadraticEaseInOut progress.

(** [waypoints.filter(wp => wp.isMajor)]: every kept waypoint comes with its
    position in [waypoints], which is what [waypoints.indexOf] returns for
    it. *)
Fixpoint majorsFrom (i : Z) (waypoints : list Waypoint)
  : list (Z * Waypoint) :=
  match waypoints with
  | [] => []
  | wp :: rest =>
      if isMajor wp then (i, wp) :: majorsFrom (i + 1) rest
      else majorsFrom (i + 1) rest
  end.

(** The loop over [j] that sums the chord lengths: [n] iterations remain. *)
Fixpoint segmentLengthLoop (n : nat) (j : Z) (pathPoints : list Point)
  (segmentLength : Q) : res Q :=
  match n with
  | O => Ok segmentLength
  | S n' =>
      pj1 <- deref (at_index pathPoints (j + 1)) ;;
      pj <- deref (at_index pathPoints j) ;;
      let dx := x pj1 - x pj in
      let dy := y pj1 - y pj in
      segmentLengthLoop n' (j + 1) pathPoints
        (segmentLength + sqrt (dx * dx + dy * dy))
  end.

(** The duration of the segment between two majors. *)
Definition segmentDurationOf (waypoints : list Waypoint)
  (config : TimingConfig) (pathPoints : option (list Point))
  (startIdx endIdx : Z) : res Q :=
  match mode config with
  | constantTime => Ok 3
  | constantSpeed =>
      match pathPoints with
      | Some pathPoints =>
          let wlen := inject_Z (Z.of_nat (length waypoints) - 1) in
          let plen := inject_Z (Z.of_nat (length pathPoints) - 1) in
          rs <- jsdiv (inject_Z startIdx) wlen ;;
          let startPathIndex := Qfloor (rs * plen) in
          re <- jsdiv (inject_Z endIdx) wlen ;;
          let endPathIndex := Qfloor (re * plen) in
          segmentLength <- segmentLengthLoop
                             (Z.to_nat (endPathIndex - startPathIndex))
                             startPathIndex pathPoints 0 ;;
          jsdiv segmentLength (baseSpeedPxPerSec config)
      | None => Ok 0
      end
  end.

(** The loop of [buildTimingMap] over the majors: [n] iterations remain, [i]
    is the loop variable; the result is [segments] and [totalDuration]. *)
Fixpoint segmentsLoop (n : nat) (i : Z) (waypoints : list Waypoint)
  (config : TimingConfig) (pathPoints : option (list Point))
  (majors : list (Z * Waypoint)) (segments : list Segment)
  (totalDuration : Q) : res (list Segment * Q) :=
  match n with
  | O => Ok (segments, totalDuration)
  | S n' =>
      let mlen := Z.of_nat (length majors) in
      startMajor <- deref (at_index majors i) ;;
      endMajor <- deref (at_index majors (i + 1)) ;;
      let startIdx := fst startMajor in
      let endIdx := fst endMajor in
      segmentDuration <- segmentDurationOf waypoints config pathPoints
                           startIdx endIdx ;;
      let hasPause :=
        negb (PauseMode_eqb (pauseMode config) pause_none)
        && (i <? mlen - 1)%Z in
      let pauseDuration := if hasPause then pauseSeconds config else 0 in
      sp <- jsdiv (inject_Z i) (inject_Z (mlen - 1)) ;;
      ep <- jsdiv (inject_Z (i + 1)) (inject_Z (mlen - 1)) ;;
      let segment :=
        {| startTime := totalDuration;
           endTime := totalDuration + segmentDuration;
           duration := segmentDuration;
           startProgress := sp;
           endProgress := ep;
           startWaypointIndex := startIdx;
           endWaypointIndex := endIdx;
           hasPause := hasPause;
           pauseDuration := pauseDuration |} in
      segmentsLoop n' (i + 1) waypoints config pathPoints majors
        (segments ++ [segment])
        (totalDuration + (segmentDuration + pauseDuration))
  end.

Definition buildTimingMap (waypoints : list Waypoint) (config : TimingConfig)
  (pathPoints : option (list Point)) : res SegmentTimingMap :=
  let totalPathLength :=
    match mode config, pathPoints with
    | constantSpeed, Some pathPoints =>
        let distances := buildArcLengthTable pathPoints in
        at_index distances (Z.of_nat (length distances) - 1)
    | _, _ => Some 0
    end in
  let majors := majorsFrom 0 waypoints in
  if (Z.of_nat (length majors) <? 2)%Z then
    Ok {| segments := [];
          totalDuration := 0;
          totalPathLength := totalPathLength;
          map_mode := mode config;
          baseSpeed := baseSpeedPxPerSec config |}
  else
    r <- segmentsLoop (length majors - 1) 0 waypoints config pathPoints
           majors [] 0 ;;
    Ok {| segments := fst r;
          totalDuration := snd r;
          totalPathLength := totalPathLength;
          map_mode := mode config;
          baseSpeed := baseSpeedPxPerSec config |}.

(** The search loop shared by the lookups: the first segment, with its
    position, whose window holds the value. *)
Fixpoint findFirst (inWindow : Segment -> bool) (i : Z) (segs : list Segment)
  : option (Z * Segment) :=
  match segs with
  | [] => None
  | segment :: rest =>
      if inWindow segment then Some (i, segment)
      else findFirst inWindow (i + 1) rest
  end.

(** [time >= segment.startTime && time < segment.endTime + segment.pauseDuration] *)
Definition inTimeWindow (time : Q) (segment : Segment) : bool :=
  Qgeb time (startTime segment)
  && Qltb time (endTime segment + pauseDuration segment).

(** [progress >= segment.startProgress && progress <= segment.endProgress] *)
Definition inProgressWindow (progress : Q) (segment : Segment) : bool :=
  Qgeb progress (startProgress segment)
  && Qle_bool progress (endProgress segment).

Definition getNormalizedProgressAtTime (map : SegmentTimingMap) (time : Q)
  : res Q :=
  match segments map with
  | [] => Ok 0
  | segment0 :: _ =>
      let time := clamp0 time (totalDuration map) in
      let (index, currentSegment) :=
        match findFirst (inTimeWindow time) 0 (segments map) with
        | Some found => found
        | None => (0%Z, segment0)
        end in
      if Qgeb time (endTime currentSegment)
         && Qltb time (endTime currentSegment + pauseDuration currentSegment)
      then Ok (endProgress currentSegment)
      else
        let segmentTime := time - startTime currentSegment in
        segmentProgress <- jsdiv segmentTime (duration currentSegment) ;;
        let easedProgress :=
          applyEasing segmentProgress true index
            (Z.of_nat (length (segments map))) in
        let overallProgress :=
          startProgress currentSegment
          + (endProgress currentSegment - startProgress currentSegment)
            * easedProgress in
        Ok overallProgress
  end.

Definition getTimeAtNormalizedProgress (map : SegmentTimingMap) (progress : Q)
  : res Q :=
  match segments map with
  | [] => Ok 0
  | segment0 :: _ =>
      let progress := clamp0 progress 1 in
      let (_, currentSegment) :=
        match findFirst (inProgressWindow progress) 0 (segments map) with
        | Some found => found
        | None => (0%Z, segment0)
        end in
      segmentProgress <-
        jsdiv (progress - startProgress currentSegment)
              (endProgress currentSegment - startProgress currentSegment) ;;
      let time :=
        startTime currentSegment + segmentProgress * duration currentSegment in
      Ok time
  end.

(** The segment comes with its position in [segments]; [None] is [null]. *)
Definition getCurrentSegment (map : SegmentTimingMap) (time : Q)
  : option (Z * Segment) :=
  match segments map with
  | [] => None
  | _ =>
      match findFirst (inTimeWindow time) 0 (segments map) with
      | Some found => Some found
      | None =>
          let lastIndex := (Z.of_nat (length (segments map)) - 1)%Z in
          match at_index (segments map) lastIndex with
          | Some segment => Some (lastIndex, segment)
          | None => None
          end
      end
  end.

Definition rebuildTimingMap (waypoints : list Waypoint) (config : TimingConfig)
  (pathPoints : option (list Point)) : res SegmentTimingMap :=
  buildTimingMap waypoints config pathPoints.

End Model.

(** ** Runtime *)

Record RuntimeState : Type := mkRuntimeState {
  time : Q;
  normalizedProgress : Q;
  currentSegmentIndex : Z;
  isPlaying : bool;
  speed : Q;
  frame : Z;
  fps : Q
}.

Record RuntimeConfig : Type := mkRuntimeConfig {
  cfg_fps : Q;
  cfg_totalDuration : Q
}.

(** The fields of the class [DeterministicRuntime]; [None] is [null]. *)
Record DeterministicRuntime : Type := mkRuntime {
  config : RuntimeConfig;
  timingMap : option SegmentTimingMap;
  state : RuntimeState;
  accumulatedTime : Q;
  lastTimestamp : option Q
}.

Definition constructor (config : RuntimeConfig) : DeterministicRuntime :=
  {| config := config;
     timingMap := None;
     state := {| time := 0;
                 normalizedProgress := 0;
                 currentSegmentIndex := 0;
                 isPlaying := false;
                 speed := 1;
                 frame := 0;
                 fps := cfg_fps config |};
     accumulatedTime := 0;
     lastTimestamp := None |}.

Definition with_state (rt : DeterministicRuntime) (s : RuntimeState)
  : DeterministicRuntime :=
  {| config := config rt;
     timingMap := timingMap rt;
     state := s;
     accumulatedTime := accumulatedTime rt;
     lastTimestamp := lastTimestamp rt |}.

Definition reset (rt : DeterministicRuntime) : DeterministicRuntime :=
  {| config := config rt;
     timingMap := timingMap rt;
     state := {| time := 0;
                 normalizedProgress := 0;
                 currentSegmentIndex := 0;
                 isPlaying := isPlaying (state rt);
                 speed := speed (state rt);
                 frame := 0;
                 fps := fps (state rt) |};
     accumulatedTime := 0;
     lastTimestamp := None |}.

Definition setTimingMap (rt : DeterministicRuntime)
  (timingMap : SegmentTimingMap) : DeterministicRuntime :=
  reset {| config := {| cfg_fps := cfg_fps (config rt);
                        cfg_totalDuration := totalDuration timingMap |};
           timingMap := Some timingMap;
           state := state rt;
           accumulatedTime := accumulatedTime rt;
           lastTimestamp := lastTimestamp rt |}.

Definition getFixedTimeStep (rt : DeterministicRuntime) : res Q :=
  jsdiv 1 (cfg_fps (config rt)).

(** The position that [segments.indexOf(segment)] gives for the result of
    [getCurrentSegment]; the index stays as it is when there is none. *)
Definition segmentIndexAt (map : SegmentTimingMap) (time : Q) (old : Z) : Z :=
  match getCurrentSegment map time with
  | Some (index, _) => index
  | None => old
  end.

(** [dt] is only looked at while playing. *)
Definition step (rt : DeterministicRuntime) : res DeterministicRuntime :=
  match timingMap rt with
  | None => Ok rt
  | Some map =>
      let dt := (fixedStep <- getFixedTimeStep rt ;;
                 Ok (fixedStep * speed (state rt))) in
      if isPlaying (state rt) then
        dt <- dt ;;
        let time1 := time (state rt) + dt in
        let atEnd := Qgeb time1 (cfg_totalDuration (config rt)) in
        let time2 := if atEnd then cfg_totalDuration (config rt) else time1 in
        progress <- getNormalizedProgressAtTime map time2 ;;
        Ok (with_state rt
              {| time := time2;
                 normalizedProgress := progress;
                 currentSegmentIndex :=
                   segmentIndexAt map time2 (currentSegmentIndex (state rt));
                 isPlaying := if atEnd then false else isPlaying (state rt);
                 speed := speed (state rt);
                 frame := (frame (state rt) + 1)%Z;
                 fps := fps (state rt) |})
      else Ok rt
  end.

(** The argument may be the quotient of [seekToFrame]; it is only looked at
    behind the guard. *)
Definition seekToTime (rt : DeterministicRuntime) (time : res Q)
  : res DeterministicRuntime :=
  match timingMap rt with
  | None => Ok rt
  | Some map =>
      time <- time ;;
      let time1 := clamp0 time (cfg_totalDuration (config rt)) in
      progress <- getNormalizedProgressAtTime map time1 ;;
      Ok (with_state rt
            {| time := time1;
               normalizedProgress := progress;
               currentSegmentIndex :=
                 segmentIndexAt map time1 (currentSegmentIndex (state rt));
               isPlaying := isPlaying (state rt);
               speed := speed (state rt);
               frame := Qfloor (time1 * cfg_fps (config rt));
               fps := fps (state rt) |})
  end.

Definition seekToNormalizedProgress (rt : DeterministicRuntime) (progress : Q)
  : res DeterministicRuntime :=
  match timingMap rt with
  | None => Ok rt
  | Some map =>
      let progress1 := clamp0 progress 1 in
      time1 <- getTimeAtNormalizedProgress map progress1 ;;
      Ok (with_state rt
            {| time := time1;
               normalizedProgress := progress1;
               currentSegmentIndex :=
                 segmentIndexAt map time1 (currentSegmentIndex (state rt));
               isPlaying := isPlaying (state rt);
               speed := speed (state rt);
               frame := Qfloor (time1 * cfg_fps (config rt));
               fps := fps (state rt) |})
  end.

Definition set_isPlaying (rt : DeterministicRuntime) (b : bool)
  : DeterministicRuntime :=
  with_state rt
    {| time := time (state rt);
       normalizedProgress := normalizedProgress (state rt);
       currentSegmentIndex := currentSegmentIndex (state rt);
       isPlaying := b;
       speed := speed (state rt);
       frame := frame (state rt);
       fps := fps (state rt) |}.

Definition play (rt : DeterministicRuntime) : DeterministicRuntime :=
  set_isPlaying rt true.

Definition pause (rt : DeterministicRuntime) : DeterministicRuntime :=
  set_isPlaying rt false.

Definition togglePlayPause (rt : DeterministicRuntime) : DeterministicRuntime :=
  set_isPlaying rt (negb (isPlaying (state rt))).

Definition setSpeed (rt : DeterministicRuntime) (speed1 : Q)
  : DeterministicRuntime :=
  with_state rt
    {| time := time (state rt);
       normalizedProgress := normalizedProgress (state rt);
       currentSegmentIndex := currentSegmentIndex (state rt);
       isPlaying := isPlaying (state rt);
       speed := Math_max (1 # 4) (Math_min speed1 8);
       frame := frame (state rt);
       fps := fps (state rt) |}.

Definition seekToStart (rt : DeterministicRuntime) : res DeterministicRuntime :=
  seekToTime rt (Ok 0).

Definition seekToEnd (rt : DeterministicRuntime) : res DeterministicRuntime :=
  seekToTime rt (Ok (cfg_totalDuration (config rt))).

Definition getCurrentState (rt : DeterministicRuntime) : RuntimeState :=
  state rt.

Definition isAtEnd (rt : DeterministicRuntime) : bool :=
  Qgeb (time (state rt)) (cfg_totalDuration (config rt) - (1 # 1000)).

Definition getTotalFrames (rt : DeterministicRuntime) : Z :=
  Qceiling (cfg_totalDuration (config rt) * cfg_fps (config rt)).


Definition seekToFrame (rt : DeterministicRuntime) (frame : Q)
  : res DeterministicRuntime :=
  let time := jsdiv frame (cfg_fps (config rt)) in
  seekToTime rt time.

Definition set_accumulatedTime (rt : DeterministicRuntime) (a : Q)
  : DeterministicRuntime :=
  {| config := config rt;
     timingMap := timingMap rt;
     state := state rt;
     accumulatedTime := a;
     lastTimestamp := lastTimestamp rt |}.

(** The [while] loop of [update].  [visited] records the state after every
    call of [step], in order; the loop stops with [OutOfFuel] when it would
    run more than [fuel] times. *)
Fixpoint updateLoop (fuel : nat) (fixedStep : Q) (rt : DeterministicRuntime)
  (visited : list RuntimeState)
  : res (DeterministicRuntime * list RuntimeState) :=
  if Qgeb (accumulatedTime rt) fixedStep then
    match fuel with
    | O => Err OutOfFuel
    | S fuel' =>
        rt1 <- step rt ;;
        let rt2 := set_accumulatedTime rt1 (accumulatedTime rt1 - fixedStep) in
        updateLoop fuel' fixedStep rt2 (visited ++ [state rt2])
    end
  else Ok (rt, visited).

(** [update(timestamp)]: the runtime after the call, and the states that its
    calls of [step] went through. *)
Definition update (fuel : nat) (rt : DeterministicRuntime) (timestamp : Q)
  : res (DeterministicRuntime * list RuntimeState) :=
  if negb (isPlaying (state rt)) then Ok (rt, [])
  else
    let last := match lastTimestamp rt with
                | None => timestamp
                | Some l => l
                end in
    let deltaTime := (timestamp - last) / 1000 in
    let rt1 :=
      {| config := config rt;
         timingMap := timingMap rt;
         state := state rt;
         accumulatedTime :=
           accumulatedTime rt + deltaTime * speed (state rt);
         lastTimestamp := Some timestamp |} in
    fixedStep <- getFixedTimeStep rt1 ;;
    updateLoop fuel fixedStep rt1 [].

(** A run of [update] calls, one per timestamp. *)
Fixpoint updates (fuel : nat) (rt : DeterministicRuntime) (timestamps : list Q)
  : res (DeterministicRuntime * list RuntimeState) :=
  match timestamps with
  | [] => Ok (rt, [])
  | timestamp :: rest =>
      r1 <- update fuel rt timestamp ;;
      r2 <- updates fuel (fst r1) rest ;;
      Ok (fst r2, snd r1 ++ snd r2)
  end.

(** [n] direct calls of [step], with the state after each. *)
Fixpoint steps (n : nat) (rt : DeterministicRuntime)
  : res (DeterministicRuntime * list RuntimeState) :=
  match n with
  | O => Ok (rt, [])
  | S n' =>
      rt1 <- step rt ;;
      r <- steps n' rt1 ;;
      Ok (fst r, state rt1 :: snd r)
  end.

(** ** Predicates of the specification *)

(** The segments follow one another from [t0] to [tEnd]: each starts where
    the one before ended its pause, and ends [duration] later. *)
Fixpoint chained (t0 : Q) (segs : list Segment) (tEnd : Q) : Prop :=
  match segs with
  | [] => t0 == tEnd
  | s :: rest =>
      startTime s == t0
      /\ endTime s == startTime s + duration s
      /\ chained (endTime s + pauseDuration s) rest tEnd
  end.

(** The segments span [i/den, (i+1)/den], [(i+1)/den, (i+2)/den], ... *)
Fixpoint evenly (den i : Z) (segs : list Segment) : Prop :=
  match segs with
  | [] => True
  | s :: rest =>
      startProgress s = inject_Z i / inject_Z den
      /\ endProgress s = inject_Z (i + 1) / inject_Z den
      /\ evenly den (i + 1) rest
  end.

(** What a segment holds of the pause settings. *)
Definition pauseRule (cfg : TimingConfig) (s : Segment) : Prop :=
  hasPause s = negb (PauseMode_eqb (pauseMode cfg) pause_none)
  /\ pauseDuration s = (if hasPause s then pauseSeconds cfg else 0).

(** A segment that does not run backwards. *)
Definition nonneg (s : Segment) : Prop :=
  0 <= duration s /\ 0 <= pauseDuration s.

(** A map as [buildTimingMap] lays it out: the segments are chained from 0
    to the total duration, none runs backwards, and they share progress
    evenly. *)
Definition wellFormed (m : SegmentTimingMap) : Prop :=
  chained 0 (segments m) (totalDuration m)
  /\ Forall nonneg (segments m)
  /\ evenly (Z.of_nat (length (segments m))) 0 (segments m).

(** The sum of the pauses of a list of segments. *)
Fixpoint totalPause (segs : list Segment) : Q :=
  match segs with
  | [] => 0
  | s :: rest => pauseDuration s + totalPause rest
  end.

(** The sum of the motion durations of a list of segments. *)
Fixpoint totalMotion (segs : list Segment) : Q :=
  match segs with
  | [] => 0
  | s :: rest => duration s + totalMotion rest
  end.

(** The number of major waypoints. *)
Definition majorCount (waypoints : list Waypoint) : Z :=
  Z.of_nat (length (majorsFrom 0 waypoints)).

(** Two runtimes that differ at most in the bookkeeping of [update]
    ([accumulatedTime] and [lastTimestamp]). *)
Definition sameSimulation (a b : DeterministicRuntime) : Prop :=
  config a = config b /\ timingMap a = timingMap b /\ state a = state b.

(** The states that a run went through, without the runtime it ended in. *)
Definition visitedStates (r : res (DeterministicRuntime * list RuntimeState))
  : res (list RuntimeState) :=
  x <- r ;; Ok (snd x).

(** The pause that a configuration gives to each segment. *)
Definition pausePerSegment (cfg : TimingConfig) : Q :=
  if PauseMode_eqb (pauseMode cfg) pause_none then 0 else pauseSeconds cfg.

(** A runtime that holds the map [m] the way [setTimingMap] installs it. *)
Definition installed (rt : DeterministicRuntime) (m : SegmentTimingMap)
  : Prop :=
  timingMap rt = Some m /\ cfg_totalDuration (config rt) = totalDuration m.



(** ** The first version of the application

    The path helpers of the class [RoutePlotter] (version 1), as functions of
    the fields they read: [pathPoints] and [useSmoothing]. *)

(** [catmullRom(p0, p1, p2, p3, t, tension)]. *)
Definition catmullRom (p0 p1 p2 p3 : Point) (t tension : Q) : Point :=
  let t2 := t * t in
  let t3 := t2 * t in
  let v0 := (x p2 - x p0) * tension in
  let v1 := (x p3 - x p1) * tension in
  let x' := (2 * x p1 - 2 * x p2 + v0 + v1) * t3
            + (- (3) * x p1 + 3 * x p2 - 2 * v0 - v1) * t2
            + v0 * t + x p1 in
  let v0y := (y p2 - y p0) * tension in
  let v1y := (y p3 - y p1) * tension in
  let y' := (2 * y p1 - 2 * y p2 + v0y + v1y) * t3
            + (- (3) * y p1 + 3 * y p2 - 2 * v0y - v1y) * t2
            + v0y * t + y p1 in
  {| x := x'; y := y' |}.

(** The number of samples per segment in [createSmoothPath]. *)
Definition pointsPerSegment : Z := 20.

(** The inner loops of [createSmoothPath], [for (t = 0; t < pointsPerSegment;
    t++)]: [n] iterations remain; [sample] is the point that the body
    computes from [t / pointsPerSegment]. *)
Fixpoint sampleSegment (n : nat) (t : Z) (sample : Q -> Point)
  (smoothPath : list Point) : list Point :=
  match n with
  | O => smoothPath
  | S n' =>
      let point := sample (inject_Z t / inject_Z pointsPerSegment) in
      sampleSegment n' (t + 1) sample (smoothPath ++ [point])
  end.

(** The outer loop of the branch with smoothing: [n] iterations remain. *)
Fixpoint smoothedLoop (n : nat) (i : Z) (pathPoints : list Point)
  (smoothPath : list Point) : res (list Point) :=
  match n with
  | O => Ok smoothPath
  | S n' =>
      let len := Z.of_nat (length pathPoints) in
      let tension := 1 # 2 in
      p0 <- deref (at_index pathPoints (Z.max (i - 1) 0)) ;;
      p1 <- deref (at_index pathPoints i) ;;
      p2 <- deref (at_index pathPoints (i + 1)) ;;
      p3 <- deref (at_index pathPoints (Z.min (i + 2) (len - 1))) ;;
      smoothedLoop n' (i + 1) pathPoints
        (sampleSegment (Z.to_nat pointsPerSegment) 0
           (fun segment => catmullRom p0 p1 p2 p3 segment tension)
           smoothPath)
  end.

(** The outer loop of the branch without smoothing. *)
Fixpoint straightLoop (n : nat) (i : Z) (pathPoints : list Point)
  (smoothPath : list Point) : res (list Point) :=
  match n with
  | O => Ok smoothPath
  | S n' =>
      p1 <- deref (at_index pathPoints i) ;;
      p2 <- deref (at_index pathPoints (i + 1)) ;;
      straightLoop n' (i + 1) pathPoints
        (sampleSegment (Z.to_nat pointsPerSegment) 0
           (fun ratio => {| x := x p1 + (x p2 - x p1) * ratio;
                            y := y p1 + (y p2 - y p1) * ratio |})
           smoothPath)
  end.

Definition createSmoothPath (pathPoints : list Point) (useSmoothing : bool)
  : res (list Point) :=
  if (Z.of_nat (length pathPoints) <? 2)%Z then Ok pathPoints
  else
    smoothPath <-
      (if useSmoothing
       then smoothedLoop (length pathPoints - 1) 0 pathPoints []
       else straightLoop (length pathPoints - 1) 0 pathPoints []) ;;
    lastPoint <- deref (at_index pathPoints
                          (Z.of_nat (length pathPoints) - 1)) ;;
    Ok (smoothPath ++ [lastPoint]).

Section FirstVersion.

Variable sqrt : Q -> Q.

(** The loop of [calculatePathLength]: [prev] is [path[i]], [rest] the
    points after it. *)
Fixpoint pathLengthLoop (prev : Point) (rest : list Point) (totalLength : Q)
  : Q :=
  match rest with
  | [] => totalLength
  | p :: rest' =>
      let dx := x p - x prev in
      let dy := y p - y prev in
      pathLengthLoop p rest' (totalLength + sqrt (dx * dx + dy * dy))
  end.

Definition calculatePathLength (path : list Point) : Q :=
  match path with
  | [] => 0
  | p :: rest => pathLengthLoop p rest 0
  end.

(** The loop of [buildDistanceMap] from [i = 1]: [prev] is [path[i - 1]],
    [rest] the points from [i] on. *)
Fixpoint distanceMapLoop (prev : Point) (rest : list Point) (cumulative : Q)
  : list Q :=
  match rest with
  | [] => []
  | p :: rest' =>
      let dx := x p - x prev in
      let dy := y p - y prev in
      let segmentLength := sqrt (dx * dx + dy * dy) in
      let cumulative := cumulative + segmentLength in
      cumulative :: distanceMapLoop p rest' cumulative
  end.

(** The map starts as [[0]], also for an empty path. *)
Definition buildDistanceMap (path : list Point) : list Q :=
  match path with
  | [] => [0]
  | p :: rest => 0 :: distanceMapLoop p rest 0
  end.

End FirstVersion.

(** A named waypoint of the first version: [{ index, name }], where [index]
    is a position in [pathPoints]. *)
Record NamedWaypoint : Type := mkNamedWaypoint {
  index : Z;
  name : string
}.

(** The loop [for (const wp of this.waypoints)] of [applyWaypointEasing]. *)
Fixpoint waypointLoop (waypoints : list NamedWaypoint)
  (currentPointIndex pathPointsLength : Z)
  (prevWaypointIndex nextWaypointIndex : Z) : Z * Z :=
  match waypoints with
  | [] => (prevWaypointIndex, nextWaypointIndex)
  | wp :: rest =>
      let prevWaypointIndex :=
        if (index wp <=? currentPointIndex)%Z then index wp
        else prevWaypointIndex in
      let nextWaypointIndex :=
        if (index wp >? currentPointIndex)%Z
           && (nextWaypointIndex =? pathPointsLength)%Z
        then index wp else nextWaypointIndex in
      waypointLoop rest currentPointIndex pathPointsLength
        prevWaypointIndex nextWaypointIndex
  end.

(** [applyWaypointEasing(segmentIndex, t, pathLength)]; it reads the fields
    [waypoints] and [pathPoints]. [segmentIndex] is a loop counter, so
    [Math.floor] of its quotient is the integer quotient. *)
Definition applyWaypointEasing (waypoints : list NamedWaypoint)
  (pathPoints : list Point) (segmentIndex : Z) (t : Q) (pathLength : Z)
  : res Q :=
  if (Z.of_nat (length waypoints) =? 0)%Z then Ok t
  else
    let currentPointIndex := (segmentIndex / pointsPerSegment)%Z in
    let pathPointsLength := Z.of_nat (length pathPoints) in
    let (prevWaypointIndex, nextWaypointIndex) :=
      waypointLoop waypoints currentPointIndex pathPointsLength
        (-1) pathPointsLength in
    if (prevWaypointIndex >=? 0)%Z && (nextWaypointIndex <? pathPointsLength)%Z
    then
      let segmentLength := (nextWaypointIndex - prevWaypointIndex)%Z in
      positionInSegment <-
        jsdiv (inject_Z (currentPointIndex - prevWaypointIndex))
              (inject_Z segmentLength) ;;
      if Qltb positionInSegment (3 # 10) then
        let easeT := positionInSegment / (3 # 10) in
        let eased := easeT * easeT in
        Ok (t * eased)
      else if Qltb (7 # 10) positionInSegment then
        let easeT := (positionInSegment - (7 # 10)) / (3 # 10) in
        let eased := 1 - (1 - easeT) * (1 - easeT) in
        Ok (t * eased)
      else Ok t
    else Ok t.

(** What [getPositionAtDistance] returns: [{ ...point, progress }] or
    [{ x, y, progress }]. The spread of a missing point leaves no
    coordinates. *)
Record PathPosition : Type := mkPathPosition {
  position : option Point;
  progress : Q
}.

(** The search loop of [getPositionAtDistance]: [n] iterations remain;
    [None] when the loop ends without returning. A comparison with a missing
    entry is false. A missing point throws before a number that is not
    finite reaches the result. *)
Fixpoint positionLoop (n : nat) (i : Z) (waypoints : list NamedWaypoint)
  (pathPoints path : list Point) (distances : list Q) (targetDistance : Q)
  (totalDistance : option Q) : res (option PathPosition) :=
  match n with
  | O => Ok None
  | S n' =>
      match at_index distances i, at_index distances (i + 1) with
      | Some segmentStart, Some segmentEnd =>
          if Qgeb targetDistance segmentStart
             && Qle_bool targetDistance segmentEnd
          then
            let segmentLength := segmentEnd - segmentStart in
            let distanceInSegment := targetDistance - segmentStart in
            a <- deref (at_index path i) ;;
            b <- deref (at_index path (i + 1)) ;;
            t <- jsdiv distanceInSegment segmentLength ;;
            easedT <- applyWaypointEasing waypoints pathPoints i t
                        (Z.of_nat (length path)) ;;
            total <- as_number totalDistance ;;
            progress <- jsdiv targetDistance total ;;
            Ok (Some {| position :=
                          Some {| x := x a + (x b - x a) * easedT;
                                  y := y a + (y b - y a) * easedT |};
                        progress := progress |})
          else positionLoop n' (i + 1) waypoints pathPoints path distances
                 targetDistance totalDistance
      | _, _ => positionLoop n' (i + 1) waypoints pathPoints path distances
                  targetDistance totalDistance
      end
  end.

Definition getPositionAtDistance (waypoints : list NamedWaypoint)
  (pathPoints path : list Point) (distances : list Q) (targetDistance : Q)
  : res PathPosition :=
  let totalDistance :=
    at_index distances (Z.of_nat (length distances) - 1) in
  let atEnd := {| position := at_index path (Z.of_nat (length path) - 1);
                  progress := 1 |} in
  if Qle_bool targetDistance 0
  then Ok {| position := at_index path 0; progress := 0 |}
  else if match totalDistance with
          | Some total => Qgeb targetDistance total
          | None => false
          end
  then Ok atEnd
  else
    found <- positionLoop (length distances - 1) 0 waypoints pathPoints path
               distances targetDistance totalDistance ;;
    match found with
    | Some found => Ok found
    | None => Ok atEnd
    end.

(** [undoPoint()], as the new values of the fields [pathPoints] and
    [waypoints]. *)
Definition undoPoint (pathPoints : list Point)
  (waypoints : list NamedWaypoint) : list Point * list NamedWaypoint :=
  if (Z.of_nat (length pathPoints) >? 0)%Z then
    let lastIndex := (Z.of_nat (length pathPoints) - 1)%Z in
    let waypoints :=
      filter (fun wp => negb (index wp =? lastIndex)%Z) waypoints in
    let waypoints :=
      map (fun wp =>
             if (index wp >? lastIndex)%Z
             then {| index := index wp - 1; name := name wp |}
             else wp)
          waypoints in
    (removelast pathPoints, waypoints)
  else (pathPoints, waypoints).

(** A point on the polyline [path]: between two neighbouring points. *)
Definition onPath (path : list Point) (p : Point) : Prop :=
  exists i a b e,
    nth_error path i = Some a /\ nth_error path (S i) = Some b
    /\ 0 <= e <= 1
    /\ x p == x a + (x b - x a) * e
    /\ y p == y a + (y b - y a) * e.

(** Every waypoint names a point of the path. *)
Definition validWaypoints (pathPoints : list Point)
  (waypoints : list NamedWaypoint) : Prop :=
  Forall (fun wp => (0 <= index wp < Z.of_nat (length pathPoints))%Z)
         waypoints.

(** What one of the outer loops of [createSmoothPath] appends: twenty points
    for each segment, the first of which is the path point that starts the
    segment. *)
Definition throughPoints (pathPoints : list Point) (i n : nat)
  (added : list Point) : Prop :=
  length added = (20 * n)%nat
  /\ forall k, (k < n)%nat ->
       exists p q,
         nth_error pathPoints (i + k) = Some p
         /\ nth_error added (20 * k) = Some q
         /\ x q == x p /\ y q == y p.

(** ** Worked inputs *)

Open Scope string_scope.

(** Three majors with a minor between each pair. *)
Definition threeMajors : list Waypoint :=
  [ mkWaypoint "wp1" 0 0 true None;
    mkWaypoint "wp2" 50 0 false None;
    mkWaypoint "wp3" 100 0 true None;
    mkWaypoint "wp4" 150 0 false None;
    mkWaypoint "wp5" 200 0 true None ].

(** [pauseMode = seconds], [pauseSeconds = 2], constant time. *)
Definition pauseConfig : TimingConfig :=
  mkTimingConfig constantTime 200 pause_seconds 2 true.

(** The map that [buildTimingMap] returns for [threeMajors] and
    [pauseConfig]. *)
Definition pausedMap : SegmentTimingMap :=
  {| segments :=
       [ mkSegment 0 3 3 (0 # 2) (1 # 2) 0 2 true 2;
         mkSegment 5 8 3 (1 # 2) (2 # 2) 2 4 true 2 ];
     totalDuration := 10;
     totalPathLength := Some 0;
     map_mode := constantTime;
     baseSpeed := 200 |}.

(** Four majors with a minor between each pair (the waypoints of
    [runTimingTests]). *)
Definition fourMajors : list Waypoint :=
  [ mkWaypoint "wp1" 0 0 true None;
    mkWaypoint "wp2" 50 0 false None;
    mkWaypoint "wp3" 100 0 true None;
    mkWaypoint "wp4" 150 0 false None;
    mkWaypoint "wp5" 200 0 true None;
    mkWaypoint "wp6" 250 0 false None;
    mkWaypoint "wp7" 300 0 true None ].

(** The map that [buildTimingMap] returns for [fourMajors] and
    [pauseConfig]. *)
Definition fourMajorMap : SegmentTimingMap :=
  {| segments :=
       [ mkSegment 0 3 3 (0 # 3) (1 # 3) 0 2 true 2;
         mkSegment 5 8 3 (1 # 3) (2 # 3) 2 4 true 2;
         mkSegment 10 13 3 (2 # 3) (3 # 3) 4 6 true 2 ];
     totalDuration := 15;
     totalPathLength := Some 0;
     map_mode := constantTime;
     baseSpeed := 200 |}.

(** Constant speed with a pause of 2 seconds. *)
Definition speedPauseConfig : TimingConfig :=
  mkTimingConfig constantSpeed 200 pause_seconds 2 true.

(** Three majors on a line, 300 and 100 pixels apart. *)
Definition unevenMajors : list Waypoint :=
  [ mkWaypoint "a" 0 0 true None;
    mkWaypoint "b" 300 0 true None;
    mkWaypoint "c" 400 0 true None ].

Definition unevenPath : list Point :=
  [ mkPoint 0 0; mkPoint 300 0; mkPoint 400 0 ].

(** Constant speed, 100 pixels per second, no pause. *)
Definition speedConfig : TimingConfig :=
  mkTimingConfig constantSpeed 100 pause_none 2 true.

(** A straight path of two points. *)
Definition twoPoints : list Point := [ mkPoint 0 0; mkPoint 100 0 ].

(** Four points, each 100 pixels from the one before. *)
Definition fourPoints : list Point :=
  [ mkPoint 0 0; mkPoint 100 0; mkPoint 100 100; mkPoint 200 100 ].

Definition config25 : RuntimeConfig := mkRuntimeConfig 25 0.

(** A runtime with [pausedMap] installed, playing. *)
Definition playingRuntime : DeterministicRuntime :=
  play (setTimingMap (constructor config25) pausedMap).

(** A preview run: three display callbacks 100 ms apart. *)
Definition previewTimestamps : list Q := [ 0; 100; 200 ].

Definition previewRun : DeterministicRuntime * list RuntimeState :=
  Eval vm_compute in
    match updates 10 playingRuntime previewTimestamps with
    | Ok r => r
    | Err _ => (playingRuntime, [])
    end.

(** [playingRuntime] after a first display callback at 0 ms, and the run of
    the callback one second later. *)
Definition startedRuntime : DeterministicRuntime :=
  Eval vm_compute in
    match update 10 playingRuntime 0 with
    | Ok r => fst r
    | Err _ => playingRuntime
    end.

Definition secondLater : DeterministicRuntime * list RuntimeState :=
  Eval vm_compute in
    match update 100 startedRuntime 1000 with
    | Ok r => r
    | Err _ => (startedRuntime, [])
    end.

(** Five direct steps of [playingRuntime]. *)
Definition fiveSteps : DeterministicRuntime * list RuntimeState :=
  Eval vm_compute in
    match steps 5 playingRuntime with
    | Ok r => r
    | Err _ => (playingRuntime, [])
    end.

Close Scope string_scope.

(** * Properties *)

(** ** Comparisons and clamping *)

Lemma Qgeb_true (a b : Q) : Qgeb a b = true <-> b <= a.
Proof. unfold Qgeb. apply Qle_bool_iff. Qed.

Lemma Qgeb_false (a b : Q) : Qgeb a b = false <-> a < b.
Proof.
  unfold Qgeb. split; intro H.
  - apply Qnot_le_lt. intro Hle. apply Qle_bool_iff in Hle. congruence.
  - destruct (Qle_bool b a) eqn:E; [|reflexivity].
    apply Qle_bool_iff in E. lra.
Qed.

Lemma Qltb_true (a b : Q) : Qltb a b = true <-> a < b.
Proof.
  unfold Qltb. rewrite negb_true_iff. apply (Qgeb_false a b).
Qed.

Lemma Qltb_false (a b : Q) : Qltb a b = false <-> b <= a.
Proof.
  unfold Qltb. rewrite negb_false_iff. apply (Qgeb_true a b).
Qed.

Lemma Math_min_spec (a b : Q) :
  (a <= b /\ Math_min a b = a) \/ (b < a /\ Math_min a b = b).
Proof.
  unfold Math_min. destruct (Qle_bool a b) eqn:E.
  - left. split; [apply Qle_bool_iff; exact E | reflexivity].
  - right. split; [apply (Qgeb_false b a); exact E | reflexivity].
Qed.

Lemma Math_max_spec (a b : Q) :
  (a <= b /\ Math_max a b = b) \/ (b < a /\ Math_max a b = a).
Proof.
  unfold Math_max. destruct (Qle_bool a b) eqn:E.
  - left. split; [apply Qle_bool_iff; exact E | reflexivity].
  - right. split; [apply (Qgeb_false b a); exact E | reflexivity].
Qed.

(** A value inside the range is returned as it is. *)
Lemma clamp0_inside (v hi : Q) : 0 <= v -> v <= hi -> clamp0 v hi = v.
Proof.
  intros H0 Hhi. unfold clamp0.
  destruct (Math_min_spec v hi) as [[_ ->] | [Hlt _]]; [|lra].
  destruct (Math_max_spec 0 v) as [[_ ->] | [Hlt _]]; [reflexivity | lra].
Qed.

(** The clamped value lies in the range whenever the range is not empty. *)
Lemma clamp0_range (v hi : Q) : 0 <= hi -> 0 <= clamp0 v hi <= hi.
Proof.
  intro Hhi. unfold clamp0.
  destruct (Math_min_spec v hi) as [[H1 ->] | [H1 ->]];
    destruct (Math_max_spec 0 v) as [[H2 E] | [H2 E]];
    try (destruct (Math_max_spec 0 hi) as [[H3 ->] | [H3 ->]]);
    try rewrite E; lra.
Qed.

Lemma jsdiv_ok (a b : Q) : ~ b == 0 -> jsdiv a b = Ok (a / b).
Proof.
  intro H. unfold jsdiv. destruct (Qeq_bool b 0) eqn:E; [|reflexivity].
  apply Qeq_bool_iff in E. contradiction.
Qed.

Lemma jsdiv_zero (a b : Q) : b == 0 -> jsdiv a b = Err NonFinite.
Proof.
  intro H. unfold jsdiv. apply Qeq_bool_iff in H. now rewrite H.
Qed.

Lemma bind_ok {A B : Type} (r : res A) (k : A -> res B) (b : B) :
  bind r k = Ok b -> exists a, r = Ok a /\ k a = Ok b.
Proof.
  destruct r as [a|e]; simpl; intro H; [eauto | discriminate].
Qed.

Lemma at_index_some {A : Type} (l : list A) (i : Z) (v : A) :
  at_index l i = Some v ->
  (0 <= i < Z.of_nat (length l))%Z /\ nth_error l (Z.to_nat i) = Some v.
Proof.
  unfold at_index. destruct (i <? 0)%Z eqn:E; [discriminate|].
  intro H. apply Z.ltb_ge in E. split; [|exact H].
  assert (Hn : (Z.to_nat i < length l)%nat).
  { apply nth_error_Some. congruence. }
  lia.
Qed.

Lemma deref_ok {A : Type} (o : option A) (v : A) : deref o = Ok v -> o = Some v.
Proof. destruct o; simpl; congruence. Qed.

(** Unfolds one monadic step of a hypothesis [H : bind _ _ = Ok _]. *)
Ltac bind_inv H :=
  let a := fresh "v" in
  let Ha := fresh "Hv" in
  apply bind_ok in H; destruct H as [a [Ha H]].

(** ** The segments that [buildTimingMap] makes *)

Lemma chained_from (segs : list Segment) (t0 t0' tEnd : Q) :
  t0 == t0' -> chained t0 segs tEnd -> chained t0' segs tEnd.
Proof.
  intros E H. destruct segs as [|s rest]; simpl in *.
  - rewrite <- E. exact H.
  - destruct H as [H1 H2]. split; [rewrite <- E; exact H1 | exact H2].
Qed.

Lemma chained_nth (segs : list Segment) :
  forall (t0 tEnd : Q) (i : nat) (s : Segment),
    chained t0 segs tEnd ->
    nth_error segs i = Some s ->
    endTime s == startTime s + duration s
    /\ (forall next, nth_error segs (S i) = Some next ->
                     startTime next == endTime s + pauseDuration s)
    /\ (nth_error segs (S i) = None -> tEnd == endTime s + pauseDuration s).
Proof.
  induction segs as [|h rest IH]; intros t0 tEnd i s Hch Hn.
  - destruct i; discriminate.
  - destruct Hch as [H1 [H2 H3]]. destruct i as [|i]; simpl in Hn.
    + injection Hn as <-. split; [exact H2|]. split.
      * intros next Hnext. simpl in Hnext.
        destruct rest as [|r rest']; [discriminate|].
        injection Hnext as <-. destruct H3 as [H3 _]. exact H3.
      * intro Hnone. simpl in Hnone.
        destruct rest as [|r rest']; [|discriminate].
        simpl in H3. symmetry. exact H3.
    + apply (IH _ _ _ _ H3 Hn).
Qed.

Lemma evenly_nth (den : Z) (segs : list Segment) :
  forall (k : Z) (i : nat) (s : Segment),
    evenly den k segs ->
    nth_error segs i = Some s ->
    startProgress s = inject_Z (k + Z.of_nat i) / inject_Z den
    /\ endProgress s = inject_Z (k + Z.of_nat i + 1) / inject_Z den.
Proof.
  induction segs as [|h rest IH]; intros k i s Hev Hn.
  - destruct i; discriminate.
  - destruct Hev as [H1 [H2 H3]]. destruct i as [|i]; simpl in Hn.
    + injection Hn as <-. rewrite Z.add_0_r. split; assumption.
    + destruct (IH _ _ _ H3 Hn) as [E1 E2].
      replace (k + Z.of_nat (S i))%Z with (k + 1 + Z.of_nat i)%Z by lia.
      split; assumption.
Qed.

(** The end of a chain is its start plus all motion and all pauses. *)
Lemma chained_total (segs : list Segment) :
  forall (t0 tEnd : Q),
    chained t0 segs tEnd ->
    tEnd == t0 + totalMotion segs + totalPause segs.
Proof.
  induction segs as [|h rest IH]; intros t0 tEnd Hch; simpl in *.
  - rewrite <- Hch. ring.
  - destruct Hch as [H1 [H2 H3]]. rewrite (IH _ _ H3), H2, H1. ring.
Qed.

Lemma at_index_in_range {A : Type} (l : list A) (i : Z) :
  (0 <= i < Z.of_nat (length l))%Z -> exists v, at_index l i = Some v.
Proof.
  intro H. unfold at_index.
  destruct (i <? 0)%Z eqn:E; [apply Z.ltb_lt in E; lia|].
  destruct (nth_error l (Z.to_nat i)) as [v|] eqn:En; [eauto|].
  apply nth_error_None in En. lia.
Qed.

Lemma inject_Z_nonzero (z : Z) : z <> 0%Z -> ~ inject_Z z == 0.
Proof.
  intros Hz H. apply Hz. unfold Qeq, inject_Z in H. simpl in H. lia.
Qed.

(** ** Locating the segment of a time *)

(** In a chain of segments that do not run backwards, every segment lies
    between the start and the end of the chain. *)
Lemma chained_bounds (segs : list Segment) :
  forall (t0 tEnd : Q) (i : nat) (s : Segment),
    chained t0 segs tEnd ->
    Forall nonneg segs ->
    nth_error segs i = Some s ->
    t0 <= startTime s /\ endTime s + pauseDuration s <= tEnd.
Proof.
  induction segs as [|h rest IH]; intros t0 tEnd i s Hch HF Hn.
  - destruct i; discriminate.
  - destruct Hch as [H1 [H2 H3]].
    inversion HF as [|? ? [Hd Hp] HF']; subst.
    assert (Hend : endTime h + pauseDuration h <= tEnd).
    { destruct rest as [|r rest'].
      - simpl in H3. rewrite H3. apply Qle_refl.
      - inversion HF' as [|? ? Hr HF'']; subst.
        destruct (IH _ _ 0%nat r H3 HF' eq_refl) as [Ha Hb].
        destruct Hr as [Hrd Hrp]. destruct H3 as [H3a [H3b _]]. lra. }
    destruct i as [|i]; simpl in Hn.
    + injection Hn as <-. split; [rewrite H1; apply Qle_refl | exact Hend].
    + destruct (IH _ _ _ _ H3 HF' Hn) as [Ha Hb]. split; [lra | exact Hb].
Qed.

(** The search finds segment [i] for every time in its window, pause
    included. *)
Lemma findFirst_located (t : Q) (segs : list Segment) :
  forall (t0 tEnd : Q) (k : Z) (i : nat) (s : Segment),
    chained t0 segs tEnd ->
    Forall nonneg segs ->
    nth_error segs i = Some s ->
    startTime s <= t ->
    t < endTime s + pauseDuration s ->
    findFirst (inTimeWindow t) k segs = Some ((k + Z.of_nat i)%Z, s).
Proof.
  induction segs as [|h rest IH]; intros t0 tEnd k i s Hch HF Hn Hlo Hhi.
  - destruct i; discriminate.
  - destruct i as [|i]; simpl in Hn.
    + injection Hn as <-. simpl. unfold inTimeWindow.
      rewrite (proj2 (Qgeb_true _ _) Hlo), (proj2 (Qltb_true _ _) Hhi).
      simpl. rewrite Z.add_0_r. reflexivity.
    + destruct Hch as [H1 [H2 H3]].
      inversion HF as [|? ? _ HF']; subst.
      destruct (chained_bounds _ _ _ _ _ H3 HF' Hn) as [Ha _].
      simpl. unfold inTimeWindow at 1.
      assert (Hout : Qltb t (endTime h + pauseDuration h) = false)
        by (apply Qltb_false; lra).
      rewrite Hout, andb_false_r.
      rewrite (IH _ _ (k + 1)%Z i s H3 HF' Hn Hlo Hhi).
      f_equal. f_equal. lia.
Qed.

(** The two cases of the easing function, in the form of the
    specification. *)
Lemma quadraticEaseInOut_closed_form (t : Q) :
  (t < 1 # 2 -> quadraticEaseInOut t == 2 * t * t)
  /\ (1 # 2 <= t -> quadraticEaseInOut t == 1 - 2 * (1 - t) * (1 - t)).
Proof.
  unfold quadraticEaseInOut. split; intro H.
  - rewrite (proj2 (Qltb_true _ _) H). reflexivity.
  - rewrite (proj2 (Qltb_false _ _) H). ring.
Qed.

(** The progress of a map whose segments are chained, at a time in the
    motion window of segment [i]: the ratio of the elapsed time goes through
    [applyEasing] and then, linearly, into the progress span. *)
Lemma progress_in_motion (m : SegmentTimingMap) (i : nat) (s : Segment)
  (t : Q) :
  chained 0 (segments m) (totalDuration m) ->
  Forall nonneg (segments m) ->
  nth_error (segments m) i = Some s ->
  startTime s <= t ->
  t < endTime s ->
  getNormalizedProgressAtTime m t
  = Ok (startProgress s
        + (endProgress s - startProgress s)
          * applyEasing ((t - startTime s) / duration s) true
              (Z.of_nat i) (Z.of_nat (length (segments m)))).
Proof.
  intros Hch HF Hn Hlo Hhi.
  destruct (chained_bounds _ _ _ _ _ Hch HF Hn) as [Ha Hb].
  destruct (chained_nth _ _ _ _ _ Hch Hn) as [He _].
  pose proof (proj1 (Forall_forall _ _) HF s (nth_error_In _ _ Hn)) as [Hd Hp].
  unfold getNormalizedProgressAtTime.
  destruct (segments m) as [|s0 rest] eqn:Es; [destruct i; discriminate|].
  rewrite (clamp0_inside t (totalDuration m)) by lra.
  rewrite (findFirst_located t _ _ _ 0 i s Hch HF Hn Hlo) by lra.
  rewrite Z.add_0_l.
  rewrite (proj2 (Qgeb_false _ _) Hhi). cbn [andb].
  rewrite jsdiv_ok by (intro Hz; rewrite Hz in He; lra).
  reflexivity.
Qed.

(** At a time in the pause window of segment [i] the progress is the end
    progress of that segment. *)
Lemma progress_in_pause (m : SegmentTimingMap) (i : nat) (s : Segment)
  (t : Q) :
  chained 0 (segments m) (totalDuration m) ->
  Forall nonneg (segments m) ->
  nth_error (segments m) i = Some s ->
  endTime s <= t ->
  t < endTime s + pauseDuration s ->
  getNormalizedProgressAtTime m t = Ok (endProgress s).
Proof.
  intros Hch HF Hn Hlo Hhi.
  destruct (chained_bounds _ _ _ _ _ Hch HF Hn) as [Ha Hb].
  destruct (chained_nth _ _ _ _ _ Hch Hn) as [He _].
  pose proof (proj1 (Forall_forall _ _) HF s (nth_error_In _ _ Hn)) as [Hd Hp].
  unfold getNormalizedProgressAtTime.
  destruct (segments m) as [|s0 rest] eqn:Es; [destruct i; discriminate|].
  rewrite (clamp0_inside t (totalDuration m)) by lra.
  rewrite (findFirst_located t _ _ _ 0 i s Hch HF Hn) by lra.
  rewrite (proj2 (Qgeb_true _ _) Hlo), (proj2 (Qltb_true _ _) Hhi).
  reflexivity.
Qed.

(** ** Progress before the end of the map *)

Lemma quadraticEaseInOut_monotone (a b : Q) :
  0 <= a -> a <= b -> b <= 1 ->
  quadraticEaseInOut a <= quadraticEaseInOut b.
Proof.
  intros Ha Hab Hb. unfold quadraticEaseInOut.
  destruct (Qltb a (1 # 2)) eqn:Ea; destruct (Qltb b (1 # 2)) eqn:Eb;
    try apply Qltb_true in Ea; try apply Qltb_false in Ea;
    try apply Qltb_true in Eb; try apply Qltb_false in Eb; nra.
Qed.

Lemma quadraticEaseInOut_range (a : Q) :
  0 <= a -> a <= 1 -> 0 <= quadraticEaseInOut a <= 1.
Proof.
  intros Ha Hb. unfold quadraticEaseInOut.
  destruct (Qltb a (1 # 2)) eqn:Ea;
    try apply Qltb_true in Ea; try apply Qltb_false in Ea; nra.
Qed.

Lemma applyEasing_monotone (a b : Q) (index total : Z) :
  0 <= a -> a <= b -> b <= 1 ->
  applyEasing a true index total <= applyEasing b true index total.
Proof.
  intros Ha Hab Hb. unfold applyEasing. cbn [negb].
  destruct ((index =? 0) || (index =? total - 1))%Z;
    [exact Hab | apply quadraticEaseInOut_monotone; assumption].
Qed.

Lemma applyEasing_range (a : Q) (index total : Z) :
  0 <= a -> a <= 1 -> 0 <= applyEasing a true index total <= 1.
Proof.
  intros Ha Hb. unfold applyEasing. cbn [negb].
  destruct ((index =? 0) || (index =? total - 1))%Z;
    [split; assumption | apply quadraticEaseInOut_range; assumption].
Qed.

(** Later segments start after earlier ones have ended their pause. *)
Lemma chained_order (segs : list Segment) :
  forall (t0 tEnd : Q) (i j : nat) (s s' : Segment),
    chained t0 segs tEnd ->
    Forall nonneg segs ->
    nth_error segs i = Some s ->
    nth_error segs j = Some s' ->
    (i < j)%nat ->
    endTime s + pauseDuration s <= startTime s'.
Proof.
  induction segs as [|h rest IH]; intros t0 tEnd i j s s' Hch HF Hi Hj Hlt.
  - destruct i; discriminate.
  - destruct Hch as [H1 [H2 H3]]. inversion HF as [|? ? _ HF']; subst.
    destruct j as [|j]; [lia|]. simpl in Hj.
    destruct i as [|i]; simpl in Hi.
    + injection Hi as <-.
      destruct (chained_bounds _ _ _ _ _ H3 HF' Hj) as [Ha _]. exact Ha.
    + apply (IH _ _ i j s s' H3 HF' Hi Hj). lia.
Qed.

(** Every time from the start of a chain to before its end lies in the
    window of some segment. *)
Lemma chained_covers (t : Q) (segs : list Segment) :
  forall (t0 tEnd : Q),
    chained t0 segs tEnd ->
    t0 <= t -> t < tEnd ->
    exists i s,
      nth_error segs i = Some s
      /\ startTime s <= t
      /\ t < endTime s + pauseDuration s.
Proof.
  induction segs as [|h rest IH]; intros t0 tEnd Hch Hlo Hhi.
  - simpl in Hch. lra.
  - destruct Hch as [H1 [H2 H3]].
    destruct (Qlt_le_dec t (endTime h + pauseDuration h)) as [Hin | Hout].
    + exists 0%nat, h. split; [reflexivity|]. split; [lra | exact Hin].
    + destruct (IH _ _ H3 Hout Hhi) as [i [s [Hn Hw]]].
      exists (S i), s. split; [exact Hn | exact Hw].
Qed.

Lemma evenly_span (m : SegmentTimingMap) (i : nat) (s : Segment) :
  wellFormed m ->
  nth_error (segments m) i = Some s ->
  let den := inject_Z (Z.of_nat (length (segments m))) in
  0 < den
  /\ startProgress s * den == inject_Z (Z.of_nat i)
  /\ endProgress s * den == inject_Z (Z.of_nat i) + 1.
Proof.
  intros [_ [_ Hev]] Hn den.
  assert (Hlen : (i < length (segments m))%nat)
    by (apply nth_error_Some; congruence).
  assert (Hden : 0 < den).
  { unfold den. change 0 with (inject_Z 0). rewrite <- Zlt_Qlt. lia. }
  destruct (evenly_nth _ _ _ _ _ Hev Hn) as [E1 E2].
  rewrite Z.add_0_l in E1, E2. fold den in E1, E2.
  split; [exact Hden|]. split.
  - rewrite E1. field. lra.
  - rewrite E2, inject_Z_plus. change (inject_Z 1) with 1. field. lra.
Qed.

(** The progress at a time in the window of segment [i] lies in the progress
    span of that segment. *)
Lemma progress_in_window (m : SegmentTimingMap) (i : nat) (s : Segment)
  (t : Q) :
  wellFormed m ->
  nth_error (segments m) i = Some s ->
  startTime s <= t ->
  t < endTime s + pauseDuration s ->
  exists p,
    getNormalizedProgressAtTime m t = Ok p
    /\ startProgress s <= p <= endProgress s
    /\ ((t < endTime s
         /\ p = startProgress s
                + (endProgress s - startProgress s)
                  * applyEasing ((t - startTime s) / duration s) true
                      (Z.of_nat i) (Z.of_nat (length (segments m))))
        \/ (endTime s <= t /\ p = endProgress s)).
Proof.
  intros Hwf Hn Hlo Hhi. pose proof Hwf as [Hch [HF Hev]].
  destruct (evenly_span m i s Hwf Hn) as [Hden [Es Ee]].
  destruct (chained_nth _ _ _ _ _ Hch Hn) as [Hend _].
  destruct (Qlt_le_dec t (endTime s)) as [Hmotion | Hpause].
  - eexists. split; [apply (progress_in_motion m i s t); assumption|].
    split; [|left; split; [exact Hmotion | reflexivity]].
    assert (Hd : 0 < duration s) by lra.
    set (r := (t - startTime s) / duration s).
    assert (Hr : r * duration s == t - startTime s)
      by (unfold r; field; lra).
    assert (Hr0 : 0 <= r) by nra.
    assert (Hr1 : r <= 1) by nra.
    pose proof (applyEasing_range r (Z.of_nat i)
                  (Z.of_nat (length (segments m))) Hr0 Hr1) as [He0 He1].
    set (e := applyEasing r true (Z.of_nat i)
                (Z.of_nat (length (segments m)))) in *.
    set (den := inject_Z (Z.of_nat (length (segments m)))) in *.
    assert (Hspan : 0 <= endProgress s - startProgress s) by nra.
    split; nra.
  - exists (endProgress s).
    split; [apply (progress_in_pause m i s t); assumption|].
    split; [|right; split; [exact Hpause | reflexivity]].
    set (den := inject_Z (Z.of_nat (length (segments m)))) in *.
    split; [nra | apply Qle_refl].
Qed.

(** Before the total duration the progress of a well-formed map never
    decreases. *)
Lemma progress_monotone_before_end (m : SegmentTimingMap) (t1 t2 : Q) :
  wellFormed m ->
  0 <= t1 -> t1 <= t2 -> t2 < totalDuration m ->
  exists p1 p2,
    getNormalizedProgressAtTime m t1 = Ok p1
    /\ getNormalizedProgressAtTime m t2 = Ok p2
    /\ p1 <= p2.
Proof.
  intros Hwf H0 H12 Hend. pose proof Hwf as [Hch [HF Hev]].
  destruct (chained_covers t1 _ _ _ Hch H0) as [i [s [Hi [Hlo1 Hhi1]]]];
    [lra|].
  destruct (chained_covers t2 _ _ _ Hch) as [j [s' [Hj [Hlo2 Hhi2]]]];
    [lra | lra |].
  destruct (progress_in_window m i s t1 Hwf Hi Hlo1 Hhi1)
    as [p1 [E1 [[Hp1a Hp1b] Hc1]]].
  destruct (progress_in_window m j s' t2 Hwf Hj Hlo2 Hhi2)
    as [p2 [E2 [[Hp2a Hp2b] Hc2]]].
  exists p1, p2. split; [exact E1|]. split; [exact E2|].
  destruct (evenly_span m i s Hwf Hi) as [Hden [Es Ee]].
  destruct (evenly_span m j s' Hwf Hj) as [_ [Es' Ee']].
  set (den := inject_Z (Z.of_nat (length (segments m)))) in *.
  destruct (Nat.lt_trichotomy i j) as [Hlt | [Heq | Hgt]].
  - assert (Hij : inject_Z (Z.of_nat i) + 1 <= inject_Z (Z.of_nat j)).
    { change 1 with (inject_Z 1). rewrite <- inject_Z_plus, <- Zle_Qle. lia. }
    assert (Hse : endProgress s <= startProgress s') by nra.
    lra.
  - subst j. rewrite Hi in Hj. injection Hj as <-.
    destruct (chained_nth _ _ _ _ _ Hch Hi) as [Hends _].
    destruct Hc1 as [[Hm1 ->] | [Hq1 ->]]; destruct Hc2 as [[Hm2 ->] | [Hq2 ->]].
    + assert (Hd : 0 < duration s) by lra.
      set (r1 := (t1 - startTime s) / duration s).
      set (r2 := (t2 - startTime s) / duration s).
      assert (Hr1 : r1 * duration s == t1 - startTime s)
        by (unfold r1; field; lra).
      assert (Hr2 : r2 * duration s == t2 - startTime s)
        by (unfold r2; field; lra).
      assert (Ha : 0 <= r1) by nra.
      assert (Hb : r1 <= r2) by nra.
      assert (Hc : r2 <= 1) by nra.
      pose proof (applyEasing_monotone r1 r2 (Z.of_nat i)
                    (Z.of_nat (length (segments m))) Ha Hb Hc) as Hmono.
      assert (Hspan : 0 <= endProgress s - startProgress s) by nra.
      set (e1 := applyEasing r1 true _ _) in *.
      set (e2 := applyEasing r2 true _ _) in *.
      nra.
    + exact Hp1b.
    + lra.
    + apply Qle_refl.
  - pose proof (chained_order _ _ _ _ _ _ _ Hch HF Hj Hi Hgt). lra.
Qed.

(** At time 0 the progress of a well-formed map whose first segment takes
    time is 0. *)
Lemma progress_at_zero (m : SegmentTimingMap) (s0 : Segment) :
  wellFormed m ->
  nth_error (segments m) 0 = Some s0 ->
  0 < duration s0 ->
  exists p, getNormalizedProgressAtTime m 0 = Ok p /\ p == 0.
Proof.
  intros Hwf Hn Hd. pose proof Hwf as [Hch [HF Hev]].
  destruct (chained_nth _ _ _ _ _ Hch Hn) as [He _].
  destruct (chained_bounds _ _ _ _ _ Hch HF Hn) as [Ha _].
  pose proof (proj1 (Forall_forall _ _) HF s0 (nth_error_In _ _ Hn)) as [_ Hp].
  assert (Hs : startTime s0 == 0).
  { destruct (segments m) as [|h rest]; [discriminate|].
    injection Hn as <-. destruct Hch as [H1 _]. exact H1. }
  destruct (evenly_span m 0%nat s0 Hwf Hn) as [Hden [Es _]].
  destruct (progress_in_window m 0%nat s0 0 Hwf Hn) as [p [E [_ Hc]]];
    [lra | lra |].
  exists p. split; [exact E|].
  destruct Hc as [[_ ->] | [Hq _]]; [|lra].
  unfold applyEasing. cbn [negb Z.of_nat Z.eqb orb].
  assert (Hsp : startProgress s0 == 0).
  { change (inject_Z (Z.of_nat 0)) with 0 in Es.
    set (den := inject_Z (Z.of_nat (length (segments m)))) in *. nra. }
  rewrite Hsp, Hs. field. lra.
Qed.

(** From time 0 the round trip through progress comes back to 0. *)
Lemma round_trip_at_zero (m : SegmentTimingMap) (s0 : Segment) :
  wellFormed m ->
  nth_error (segments m) 0 = Some s0 ->
  0 < duration s0 ->
  exists p back,
    getNormalizedProgressAtTime m 0 = Ok p
    /\ getTimeAtNormalizedProgress m p = Ok back
    /\ back == 0.
Proof.
  intros Hwf Hn Hd.
  destruct (progress_at_zero m s0 Hwf Hn Hd) as [p [E Hp]].
  pose proof Hwf as [Hch [HF Hev]].
  destruct (evenly_span m 0%nat s0 Hwf Hn) as [Hden [Es Ee]].
  change (inject_Z (Z.of_nat 0)) with 0 in Es, Ee.
  set (den := inject_Z (Z.of_nat (length (segments m)))) in *.
  assert (Hsp : startProgress s0 == 0) by nra.
  assert (Hep : 0 < endProgress s0) by nra.
  assert (Hs : startTime s0 == 0).
  { destruct (segments m) as [|h rest]; [discriminate|].
    injection Hn as <-. destruct Hch as [H1 _]. exact H1. }
  exists p. unfold getTimeAtNormalizedProgress.
  destruct (segments m) as [|h rest] eqn:Esegs; [discriminate|].
  injection Hn as ->.
  assert (Hc : clamp0 p 1 = p) by (apply clamp0_inside; lra).
  rewrite Hc. cbn [findFirst]. unfold inProgressWindow at 1.
  rewrite (proj2 (Qgeb_true _ _)) by lra.
  rewrite (proj2 (Qle_bool_iff _ _)) by lra.
  cbn [andb]. rewrite jsdiv_ok by lra. cbn [bind].
  eexists. split; [exact E|]. split; [reflexivity|].
  rewrite Hs, Hp, Hsp. field. lra.
Qed.

Section TimingProperties.

Variable sqrt : Q -> Q.

(** One run of the loop adds [n] segments that are chained from the running
    total, evenly spread from [i] on, and carry the pause of the
    configuration. *)
Lemma segmentsLoop_spec (waypoints : list Waypoint) (cfg : TimingConfig)
  (pathPoints : option (list Point)) (majors : list (Z * Waypoint)) :
  forall (n : nat) (i : Z) (segs : list Segment) (total : Q)
         (segs' : list Segment) (total' : Q),
    segmentsLoop sqrt n i waypoints cfg pathPoints majors segs total
      = Ok (segs', total') ->
    exists new,
      segs' = segs ++ new
      /\ length new = n
      /\ chained total new total'
      /\ evenly (Z.of_nat (length majors) - 1) i new
      /\ Forall (pauseRule cfg) new.
Proof.
  induction n as [|n IH]; intros i segs total segs' total' H; simpl in H.
  - injection H as <- <-. exists []. rewrite app_nil_r.
    repeat split; simpl; try reflexivity; constructor.
  - bind_inv H. bind_inv H. bind_inv H. bind_inv H. bind_inv H.
    rename v into startMajor, v0 into endMajor, v1 into d, v2 into sp,
      v3 into ep.
    apply IH in H. destruct H as [new [E [Hlen [Hch [Hev Hp]]]]].
    apply deref_ok in Hv0. apply at_index_some in Hv0.
    destruct Hv0 as [Hrange _].
    assert (Hlt : (i <? Z.of_nat (length majors) - 1)%Z = true)
      by (apply Z.ltb_lt; lia).
    assert (Hne : ~ inject_Z (Z.of_nat (length majors) - 1) == 0).
    { unfold jsdiv in Hv2.
      destruct (Qeq_bool (inject_Z (Z.of_nat (length majors) - 1)) 0) eqn:Eq;
        [discriminate|].
      intro Hz. apply Qeq_bool_iff in Hz. congruence. }
    rewrite (jsdiv_ok _ _ Hne) in Hv2. rewrite (jsdiv_ok _ _ Hne) in Hv3.
    injection Hv2 as <-. injection Hv3 as <-.
    rewrite Hlt, andb_true_r in *.
    eexists (_ :: new). split; [rewrite E, <- app_assoc; reflexivity|].
    split; [simpl; congruence|].
    split; [|split].
    + simpl. split; [reflexivity|]. split; [reflexivity|].
      eapply chained_from; [|exact Hch]. ring.
    + simpl. split; [reflexivity|]. split; [reflexivity|]. exact Hev.
    + constructor; [|exact Hp]. split; reflexivity.
Qed.

(** What [buildTimingMap] returns when there are at least two majors. *)
Lemma buildTimingMap_spec (waypoints : list Waypoint) (cfg : TimingConfig)
  (pathPoints : option (list Point)) (m : SegmentTimingMap) :
  buildTimingMap sqrt waypoints cfg pathPoints = Ok m ->
  (2 <= majorCount waypoints)%Z ->
  Z.of_nat (length (segments m)) = (majorCount waypoints - 1)%Z
  /\ chained 0 (segments m) (totalDuration m)
  /\ evenly (majorCount waypoints - 1) 0 (segments m)
  /\ Forall (pauseRule cfg) (segments m).
Proof.
  unfold buildTimingMap, majorCount. intros H Hn.
  destruct (Z.of_nat (length (majorsFrom 0 waypoints)) <? 2)%Z eqn:E.
  - apply Z.ltb_lt in E. lia.
  - bind_inv H. destruct v as [segs total]. injection H as <-. simpl.
    apply segmentsLoop_spec in Hv.
    destruct Hv as [new [E1 [Hlen [Hch [Hev Hp]]]]]. simpl in E1. subst segs.
    repeat split; try assumption. rewrite Hlen. lia.
Qed.

(** With fewer than two majors the map is empty. *)
Lemma buildTimingMap_few (waypoints : list Waypoint) (cfg : TimingConfig)
  (pathPoints : option (list Point)) (m : SegmentTimingMap) :
  buildTimingMap sqrt waypoints cfg pathPoints = Ok m ->
  (majorCount waypoints < 2)%Z ->
  segments m = [] /\ totalDuration m = 0.
Proof.
  unfold buildTimingMap, majorCount. intros H Hn.
  destruct (Z.of_nat (length (majorsFrom 0 waypoints)) <? 2)%Z eqn:E.
  - injection H as <-. split; reflexivity.
  - apply Z.ltb_ge in E. lia.
Qed.

(** The loop runs to its end whenever every segment has the duration [d0]
    at hand (constant time, or constant speed without a path). *)
Lemma segmentsLoop_total (waypoints : list Waypoint) (cfg : TimingConfig)
  (pathPoints : option (list Point)) (majors : list (Z * Waypoint)) (d0 : Q) :
  (forall a b, segmentDurationOf sqrt waypoints cfg pathPoints a b = Ok d0) ->
  forall (n : nat) (i : Z) (segs : list Segment) (total : Q),
    (0 <= i)%Z ->
    (i + Z.of_nat n <= Z.of_nat (length majors) - 1)%Z ->
    exists new total',
      segmentsLoop sqrt n i waypoints cfg pathPoints majors segs total
        = Ok (segs ++ new, total')
      /\ Forall (fun s => duration s = d0) new.
Proof.
  intros Hd. induction n as [|n IH]; intros i segs total Hi Hn.
  - exists [], total. simpl. rewrite app_nil_r. split; [reflexivity|constructor].
  - cbn [segmentsLoop].
    destruct (at_index_in_range majors i) as [startMajor ->]; [lia|].
    destruct (at_index_in_range majors (i + 1)) as [endMajor ->]; [lia|].
    cbn [deref bind]. rewrite Hd. cbn [bind].
    rewrite !jsdiv_ok by (apply inject_Z_nonzero; lia). cbn [bind].
    edestruct (IH (i + 1)%Z) as [new [total' [E HF]]];
      [lia | lia | rewrite E].
    eexists (_ :: new), total'. split.
    + rewrite <- app_assoc. reflexivity.
    + constructor; [reflexivity | exact HF].
Qed.


(** C10.  In constant-speed mode with at least two majors and no path
    argument, [buildTimingMap] returns a map without raising; each of its
    segments has duration 0 and ends when it starts; and the total duration
    is the sum of the pauses alone. *)
Theorem C10_no_path_zero_durations (waypoints : list Waypoint)
  (cfg : TimingConfig) :
  mode cfg = constantSpeed ->
  (2 <= majorCount waypoints)%Z ->
  exists m,
    buildTimingMap sqrt waypoints cfg None = Ok m
    /\ Z.of_nat (length (segments m)) = (majorCount waypoints - 1)%Z
    /\ Forall (fun s => duration s == 0 /\ startTime s == endTime s)
              (segments m)
    /\ totalDuration m == totalPause (segments m).
Proof.
  intros Hmode Hn.
  assert (Hd : forall a b,
             segmentDurationOf sqrt waypoints cfg None a b = Ok 0).
  { intros a b. unfold segmentDurationOf. rewrite Hmode. reflexivity. }
  destruct (segmentsLoop_total waypoints cfg None (majorsFrom 0 waypoints) 0 Hd
              (length (majorsFrom 0 waypoints) - 1) 0 [] 0)
    as [new [total' [E HF]]]; [lia | unfold majorCount in Hn; lia |].
  assert (Hb : buildTimingMap sqrt waypoints cfg None
               = Ok {| segments := new;
                       totalDuration := total';
                       totalPathLength := Some 0;
                       map_mode := mode cfg;
                       baseSpeed := baseSpeedPxPerSec cfg |}).
  { unfold buildTimingMap. unfold majorCount in Hn.
    destruct (Z.of_nat (length (majorsFrom 0 waypoints)) <? 2)%Z eqn:E2;
      [apply Z.ltb_lt in E2; lia|].
    rewrite E. rewrite Hmode. reflexivity. }
  eexists. split; [exact Hb|].
  destruct (buildTimingMap_spec _ _ _ _ Hb Hn) as [Hlen [Hch _]].
  simpl in Hlen, Hch |- *. split; [exact Hlen|].
  assert (Hzero : Forall (fun s => duration s == 0 /\ startTime s == endTime s)
                         new).
  { apply Forall_forall. intros s Hin.
    pose proof (proj1 (Forall_forall _ _) HF s Hin) as Hs. simpl in Hs.
    destruct (In_nth_error _ _ Hin) as [k Hk].
    destruct (chained_nth _ _ _ _ _ Hch Hk) as [He _].
    rewrite Hs in He |- *. split; [reflexivity | rewrite He; ring]. }
  split; [exact Hzero|].
  rewrite (chained_total _ _ _ Hch).
  assert (Hm : totalMotion new == 0).
  { clear -Hzero. induction Hzero as [|s l [Hs _] _ IH]; simpl;
      [reflexivity | rewrite Hs, IH; ring]. }
  rewrite Hm. ring.
Qed.

(** When pauses are on, every segment of a built map has one, the last
    included: the test [i < majors.length - 1] holds on every turn of the
    loop. *)
Lemma buildTimingMap_pause_everywhere (waypoints : list Waypoint)
  (cfg : TimingConfig) (pathPoints : option (list Point))
  (m : SegmentTimingMap) (s : Segment) :
  buildTimingMap sqrt waypoints cfg pathPoints = Ok m ->
  pauseMode cfg <> pause_none ->
  In s (segments m) ->
  hasPause s = true /\ pauseDuration s = pauseSeconds cfg.
Proof.
  intros Hb Hp Hin.
  destruct (Z_lt_le_dec (majorCount waypoints) 2) as [Hfew | Hmany].
  - destruct (buildTimingMap_few _ _ _ _ Hb Hfew) as [E _].
    rewrite E in Hin. contradiction.
  - destruct (buildTimingMap_spec _ _ _ _ Hb Hmany) as [_ [_ [_ HF]]].
    destruct (proj1 (Forall_forall _ _) HF s Hin) as [H1 H2].
    assert (E : hasPause s = true).
    { rewrite H1. destruct (pauseMode cfg); simpl; congruence. }
    rewrite E in H2. split; assumption.
Qed.

(** C8.  [quadraticEaseInOut t] is [2t^2] below one half and
    [1 - 2(1-t)^2] from one half on.  In a built map, at a time [t] in the
    motion window of segment [i], the progress is the start progress plus the
    progress span times a factor: the ratio of elapsed time to duration
    itself for the first and for the last segment, and the eased ratio for
    every segment in between.  Time enters through that ratio only. *)
Theorem C8_easing_on_interior_segments :
  (forall u : Q,
      (u < 1 # 2 -> quadraticEaseInOut u == 2 * u * u)
      /\ (1 # 2 <= u -> quadraticEaseInOut u == 1 - 2 * (1 - u) * (1 - u)))
  /\ (forall (waypoints : list Waypoint) (cfg : TimingConfig)
             (pathPoints : option (list Point)) (m : SegmentTimingMap)
             (i : nat) (s : Segment) (t : Q),
         buildTimingMap sqrt waypoints cfg pathPoints = Ok m ->
         0 <= pauseSeconds cfg ->
         (forall s', In s' (segments m) -> 0 <= duration s') ->
         nth_error (segments m) i = Some s ->
         startTime s <= t ->
         t < endTime s ->
         let ratio := (t - startTime s) / duration s in
         let span := endProgress s - startProgress s in
         (i = 0%nat \/ S i = length (segments m) ->
          getNormalizedProgressAtTime m t
          = Ok (startProgress s + span * ratio))
         /\ (i <> 0%nat -> S i <> length (segments m) ->
             getNormalizedProgressAtTime m t
             = Ok (startProgress s + span * quadraticEaseInOut ratio))).
Proof.
  split; [exact quadraticEaseInOut_closed_form|].
  intros waypoints cfg pathPoints m i s t Hb Hps Hdur Hn Hlo Hhi ratio span.
  destruct (Z_lt_le_dec (majorCount waypoints) 2) as [Hfew | Hmany].
  { destruct (buildTimingMap_few _ _ _ _ Hb Hfew) as [E _].
    rewrite E in Hn. destruct i; discriminate. }
  destruct (buildTimingMap_spec _ _ _ _ Hb Hmany) as [_ [Hch [_ HF]]].
  assert (Hnn : Forall nonneg (segments m)).
  { apply Forall_forall. intros s' Hin. split; [apply Hdur; exact Hin|].
    destruct (proj1 (Forall_forall _ _) HF s' Hin) as [_ ->].
    destruct (hasPause s'); [exact Hps | apply Qle_refl]. }
  pose proof (progress_in_motion m i s t Hch Hnn Hn Hlo Hhi) as Hp.
  assert (Hi : (i < length (segments m))%nat)
    by (apply nth_error_Some; congruence).
  unfold applyEasing in Hp. cbn [negb] in Hp. split.
  - intros Hedge. rewrite Hp.
    assert (E : ((Z.of_nat i =? 0)
                 || (Z.of_nat i =? Z.of_nat (length (segments m)) - 1))%Z
                = true).
    { apply orb_true_iff. destruct Hedge as [-> | Hl].
      - left. reflexivity.
      - right. apply Z.eqb_eq. lia. }
    rewrite E. reflexivity.
  - intros Hfirst Hlast. rewrite Hp.
    assert (E : ((Z.of_nat i =? 0)
                 || (Z.of_nat i =? Z.of_nat (length (segments m)) - 1))%Z
                = false).
    { apply orb_false_iff. split; apply Z.eqb_neq; lia. }
    rewrite E. reflexivity.
Qed.

(** In a built map the progress stays at the end progress of a segment for
    every time in the pause window of that segment. *)
Lemma progress_pinned_during_pause (waypoints : list Waypoint)
  (cfg : TimingConfig) (pathPoints : option (list Point))
  (m : SegmentTimingMap) (i : nat) (s : Segment) (t : Q) :
  buildTimingMap sqrt waypoints cfg pathPoints = Ok m ->
  0 <= pauseSeconds cfg ->
  (forall s', In s' (segments m) -> 0 <= duration s') ->
  nth_error (segments m) i = Some s ->
  endTime s <= t ->
  t < endTime s + pauseDuration s ->
  getNormalizedProgressAtTime m t = Ok (endProgress s).
Proof.
  intros Hb Hps Hdur Hn Hlo Hhi.
  destruct (Z_lt_le_dec (majorCount waypoints) 2) as [Hfew | Hmany].
  { destruct (buildTimingMap_few _ _ _ _ Hb Hfew) as [E _].
    rewrite E in Hn. destruct i; discriminate. }
  destruct (buildTimingMap_spec _ _ _ _ Hb Hmany) as [_ [Hch [_ HF]]].
  assert (Hnn : Forall nonneg (segments m)).
  { apply Forall_forall. intros s' Hin. split; [apply Hdur; exact Hin|].
    destruct (proj1 (Forall_forall _ _) HF s' Hin) as [_ ->].
    destruct (hasPause s'); [exact Hps | apply Qle_refl]. }
  exact (progress_in_pause m i s t Hch Hnn Hn Hlo Hhi).
Qed.

(** A built map with non-negative pauses and durations is well formed. *)
Lemma buildTimingMap_wellFormed (waypoints : list Waypoint)
  (cfg : TimingConfig) (pathPoints : option (list Point))
  (m : SegmentTimingMap) :
  buildTimingMap sqrt waypoints cfg pathPoints = Ok m ->
  (2 <= majorCount waypoints)%Z ->
  0 <= pauseSeconds cfg ->
  (forall s, In s (segments m) -> 0 <= duration s) ->
  wellFormed m.
Proof.
  intros Hb Hmany Hps Hdur.
  destruct (buildTimingMap_spec _ _ _ _ Hb Hmany) as [Hlen [Hch [Hev HF]]].
  split; [exact Hch|]. split; [|rewrite Hlen; exact Hev].
  apply Forall_forall. intros s Hin. split; [apply Hdur; exact Hin|].
  destruct (proj1 (Forall_forall _ _) HF s Hin) as [_ ->].
  destruct (hasPause s); [exact Hps | apply Qle_refl].
Qed.

(** In constant-time mode every segment of a built map lasts 3 seconds. *)
Lemma buildTimingMap_constantTime (waypoints : list Waypoint)
  (cfg : TimingConfig) (pathPoints : option (list Point))
  (m : SegmentTimingMap) (s : Segment) :
  buildTimingMap sqrt waypoints cfg pathPoints = Ok m ->
  mode cfg = constantTime ->
  In s (segments m) ->
  duration s = 3.
Proof.
  intros Hb Hmode Hin.
  destruct (Z_lt_le_dec (majorCount waypoints) 2) as [Hfew | Hmany].
  { destruct (buildTimingMap_few _ _ _ _ Hb Hfew) as [E _].
    rewrite E in Hin. contradiction. }
  assert (Hd : forall a b,
             segmentDurationOf sqrt waypoints cfg pathPoints a b = Ok 3).
  { intros a b. unfold segmentDurationOf. rewrite Hmode. reflexivity. }
  destruct (segmentsLoop_total waypoints cfg pathPoints
              (majorsFrom 0 waypoints) 3 Hd
              (length (majorsFrom 0 waypoints) - 1) 0 [] 0)
    as [new [total' [E HF]]]; [lia | unfold majorCount in Hmany; lia |].
  unfold buildTimingMap in Hb. unfold majorCount in Hmany.
  destruct (Z.of_nat (length (majorsFrom 0 waypoints)) <? 2)%Z eqn:E2;
    [apply Z.ltb_lt in E2; lia|].
  rewrite E in Hb. cbn [bind fst snd app] in Hb. injection Hb as <-.
  exact (proj1 (Forall_forall _ _) HF s Hin).
Qed.

(** Before its end the progress of a constant-time map never decreases, and
    it starts at 0. *)
Lemma constantTime_progress_monotone (waypoints : list Waypoint)
  (cfg : TimingConfig) (m : SegmentTimingMap) (t1 t2 : Q) :
  buildTimingMap sqrt waypoints cfg None = Ok m ->
  mode cfg = constantTime ->
  (2 <= majorCount waypoints)%Z ->
  0 <= pauseSeconds cfg ->
  0 <= t1 -> t1 <= t2 -> t2 < totalDuration m ->
  (exists p0, getNormalizedProgressAtTime m 0 = Ok p0 /\ p0 == 0)
  /\ (exists p1 p2,
         getNormalizedProgressAtTime m t1 = Ok p1
         /\ getNormalizedProgressAtTime m t2 = Ok p2
         /\ p1 <= p2).
Proof.
  intros Hb Hmode Hmany Hps H0 H12 Hend.
  assert (Hdur : forall s, In s (segments m) -> duration s = 3)
    by (intros s Hin; exact (buildTimingMap_constantTime _ _ _ _ s Hb Hmode Hin)).
  assert (Hwf : wellFormed m).
  { apply (buildTimingMap_wellFormed waypoints cfg None m Hb Hmany Hps).
    intros s Hin. rewrite (Hdur s Hin). lra. }
  split; [|exact (progress_monotone_before_end m t1 t2 Hwf H0 H12 Hend)].
  destruct (buildTimingMap_spec _ _ _ _ Hb Hmany) as [Hlen _].
  destruct (segments m) as [|s0 rest] eqn:Es; [simpl in Hlen; lia|].
  apply (progress_at_zero m s0 Hwf); [rewrite Es; reflexivity|].
  rewrite (Hdur s0); [lra | left; reflexivity].
Qed.

(** C1.  For three majors with [pauseMode = seconds] and [pauseSeconds = 2]
    the map has a pause on both segments, the last included: the total
    duration is 3 + 2 + 3 + 2 = 10 and not the 3 + 3 + 2 = 8 of two motions
    and one pause. *)
Theorem C1_pause_after_last_segment :
  buildTimingMap sqrt threeMajors pauseConfig None = Ok pausedMap
  /\ Forall (fun s => hasPause s = true /\ pauseDuration s == 2)
            (segments pausedMap)
  /\ totalDuration pausedMap
     == totalMotion (segments pausedMap) + 2 + 2
  /\ ~ totalDuration pausedMap == totalMotion (segments pausedMap) + 2.
Proof.
  split; [reflexivity|]. split; [|split].
  - repeat constructor.
  - reflexivity.
  - discriminate.
Qed.

End TimingProperties.

(** ** The spline at the ends of a path *)

Lemma blend_outcome (na da u nb db v : Q) :
  (exists r, blend na da u nb db v = Ok r)
  \/ blend na da u nb db v = Err NonFinite.
Proof.
  unfold blend, jsdiv.
  destruct (Qeq_bool da 0); [right; reflexivity|].
  destruct (Qeq_bool db 0); [right; reflexivity|].
  left. eexists. reflexivity.
Qed.

Lemma blend_zero_divisor (na da u nb db v : Q) :
  da == 0 -> blend na da u nb db v = Err NonFinite.
Proof. intro H. unfold blend. rewrite (jsdiv_zero _ _ H). reflexivity. Qed.

Lemma clamp0_zero (hi : Q) : clamp0 0 hi = 0.
Proof.
  unfold clamp0, Math_min, Math_max.
  destruct (Qle_bool 0 hi) eqn:E.
  - reflexivity.
  - destruct (Qle_bool 0 hi); [discriminate | reflexivity].
Qed.

(** Clamping twice is clamping once. *)
Lemma clamp0_idempotent (v hi : Q) :
  0 <= hi -> clamp0 (clamp0 v hi) hi = clamp0 v hi.
Proof.
  intro Hhi. pose proof (clamp0_range v hi Hhi) as [H1 H2].
  apply clamp0_inside; assumption.
Qed.

Section GeometryProperties.

Variable sqrt : Q -> Q.

(** What the development asks of the square root. *)
Hypothesis sqrt_zero : forall q : Q, q == 0 -> sqrt q == 0.
Hypothesis sqrt_nonneg : forall q : Q, 0 <= sqrt q.

Lemma distance_same (p : Point) : distance sqrt p p == 0.
Proof. unfold distance. apply sqrt_zero. ring. Qed.

(** With the first control point doubled, as on the first segment of a
    path, the spline divides by the zero chord length. *)
Lemma catmullRomCentripetal_doubled_first (p p2 p3 : Point) (t tension : Q) :
  catmullRomCentripetal sqrt p p p2 p3 t tension = Err NonFinite.
Proof.
  unfold catmullRomCentripetal.
  rewrite blend_zero_divisor; [reflexivity|].
  unfold pow_alpha. rewrite (sqrt_zero _ (distance_same p)). ring.
Qed.

(** With the last control point doubled, as on the last segment of a path,
    it does so too. *)
Lemma catmullRomCentripetal_doubled_last (p0 p1 p : Point) (t tension : Q) :
  catmullRomCentripetal sqrt p0 p1 p p t tension = Err NonFinite.
Proof.
  unfold catmullRomCentripetal.
  repeat match goal with
         | |- bind (blend ?na ?da ?u ?nb ?db ?v) _ = _ =>
             first
               [ rewrite (blend_zero_divisor na da u nb db v)
                   by (unfold pow_alpha;
                       rewrite (sqrt_zero _ (distance_same p)); ring);
                 reflexivity
               | destruct (blend_outcome na da u nb db v) as [[? ->] | ->];
                 [cbn [bind] | reflexivity] ]
         end.
Qed.

(** The position at length 0 of a path of at least two points, with its
    arc-length table: the first point when the second point coincides with
    it, and no finite point otherwise. *)
Lemma getPositionAtArcLength_at_zero (p q : Point) (rest : list Point) :
  let points := p :: q :: rest in
  (distance sqrt p q == 0 ->
   getPositionAtArcLength sqrt points (buildArcLengthTable sqrt points) 0
   = Ok p)
  /\ (~ distance sqrt p q == 0 ->
      getPositionAtArcLength sqrt points (buildArcLengthTable sqrt points) 0
      = Err NonFinite).
Proof.
  intro points. unfold points.
  assert (Hlast : exists total,
             at_index (buildArcLengthTable sqrt (p :: q :: rest))
               (Z.of_nat (length (buildArcLengthTable sqrt (p :: q :: rest)))
                - 1) = Some total).
  { apply at_index_in_range. unfold buildArcLengthTable.
    cbn [arcLengthLoop length]. lia. }
  destruct Hlast as [total Hlast].
  assert (Hidx : findSegmentIndex
                   (tl (buildArcLengthTable sqrt (p :: q :: rest))) 1 0
                 = 0%nat).
  { simpl. rewrite (proj2 (Qgeb_true _ _)); [reflexivity|].
    pose proof (sqrt_nonneg
                  ((x q - x p) * (x q - x p) + (y q - y p) * (y q - y p))).
    unfold distance. lra. }
  unfold getPositionAtArcLength. rewrite Hlast. cbn [as_number bind].
  rewrite clamp0_zero, Hidx.
  assert (Hlen : (Z.of_nat 0 >=? Z.of_nat (length (p :: q :: rest)) - 1)%Z
                 = false).
  { rewrite Z.geb_leb. apply Z.leb_gt. cbn [length]. lia. }
  rewrite Hlen.
  change (at_index (buildArcLengthTable sqrt (p :: q :: rest)) (Z.of_nat 0))
    with (Some 0).
  change (at_index (buildArcLengthTable sqrt (p :: q :: rest))
            (Z.of_nat 0 + 1))
    with (Some (0 + distance sqrt p q)).
  cbn [as_number bind].
  split; intro Hd.
  - assert (E : Qeq_bool (0 + distance sqrt p q - 0) 0 = true)
      by (apply Qeq_bool_iff; rewrite Hd; ring).
    rewrite E. reflexivity.
  - assert (E : Qeq_bool (0 + distance sqrt p q - 0) 0 = false).
    { destruct (Qeq_bool (0 + distance sqrt p q - 0) 0) eqn:E;
        [|reflexivity].
      apply Qeq_bool_iff in E. exfalso. apply Hd. rewrite <- E. ring. }
    rewrite E. rewrite jsdiv_ok
      by (intro Hz; apply Hd; rewrite <- Hz; ring).
    cbn [bind].
    change (at_index (p :: q :: rest) (Z.max 0 (Z.of_nat 0 - 1)))
      with (Some p).
    change (at_index (p :: q :: rest) (Z.of_nat 0)) with (Some p).
    change (at_index (p :: q :: rest) (Z.of_nat 0 + 1)) with (Some q).
    cbn [deref bind].
    destruct (deref _) as [p3|e] eqn:E3.
    + cbn [bind]. apply catmullRomCentripetal_doubled_first.
    + exfalso.
      destruct (at_index_in_range (p :: q :: rest)
                  (Z.min (Z.of_nat (length (p :: q :: rest)) - 1)
                         (Z.of_nat 0 + 2))) as [w Hw].
      { simpl length. lia. }
      rewrite Hw in E3. discriminate.
Qed.

(** A target length outside the table is treated as the nearest end. *)
Lemma getPositionAtArcLength_clamps (points : list Point)
  (distances : list Q) (targetLength totalLength : Q) :
  at_index distances (Z.of_nat (length distances) - 1) = Some totalLength ->
  0 <= totalLength ->
  getPositionAtArcLength sqrt points distances targetLength
  = getPositionAtArcLength sqrt points distances
      (clamp0 targetLength totalLength).
Proof.
  intros Hlast Hpos. unfold getPositionAtArcLength.
  destruct points as [|p [|q rest]]; try reflexivity.
  rewrite Hlast. cbn [as_number bind].
  rewrite (clamp0_idempotent _ _ Hpos). reflexivity.
Qed.

(** The first segment of the densified path has no finite sample: its
    first control point is doubled. *)
Lemma generateSmoothPath_first_segment (p q : Point) (rest : list Point)
  (pointsPerSegment : Z) (tension : Q) :
  (1 <= pointsPerSegment)%Z ->
  generateSmoothPath sqrt (p :: q :: rest) pointsPerSegment tension
  = Err NonFinite.
Proof.
  intro Hpps. unfold generateSmoothPath.
  assert (Hlen : (Z.of_nat (length (p :: q :: rest)) <? 2)%Z = false)
    by (apply Z.ltb_ge; cbn [length]; lia).
  rewrite Hlen. cbn [length Nat.sub pathLoop].
  change (at_index (p :: q :: rest) 0) with (Some p).
  change (at_index (p :: q :: rest) (Z.max 0 (0 - 1))) with (Some p).
  change (at_index (p :: q :: rest) (0 + 1)) with (Some q).
  cbn [Z.eqb deref bind].
  destruct (at_index_in_range (p :: q :: rest)
              (Z.min (Z.of_nat (S (S (length rest))) - 1) (0 + 2)))
    as [p3 ->].
  { cbn [length]. lia. }
  cbn [deref bind].
  destruct (Z.to_nat pointsPerSegment) as [|n] eqn:En; [lia|].
  cbn [sampleLoop].
  rewrite jsdiv_ok by (apply inject_Z_nonzero; lia). cbn [bind].
  rewrite catmullRomCentripetal_doubled_first. reflexivity.
Qed.

End GeometryProperties.

(** [sqrtQ] is such a square root. *)
Lemma sqrtQ_zero (q : Q) : q == 0 -> sqrtQ q == 0.
Proof.
  intro H. unfold sqrtQ.
  rewrite (Qred_complete q 0 H). reflexivity.
Qed.

Lemma sqrtQ_nonneg (q : Q) : 0 <= sqrtQ q.
Proof.
  unfold sqrtQ, Qle. simpl.
  pose proof (Z.sqrt_nonneg (Qnum (Qred q))). lia.
Qed.

(** ** The runtime *)

Lemma jsdiv_not_OutOfFuel (a b : Q) : jsdiv a b <> Err OutOfFuel.
Proof. unfold jsdiv. destruct (Qeq_bool b 0); discriminate. Qed.

Lemma getNormalizedProgressAtTime_not_OutOfFuel (m : SegmentTimingMap)
  (t : Q) : getNormalizedProgressAtTime m t <> Err OutOfFuel.
Proof.
  unfold getNormalizedProgressAtTime.
  destruct (segments m) as [|s0 rest]; [discriminate|].
  destruct (match findFirst _ _ _ with Some found => found | None => _ end)
    as [index current].
  destruct (_ && _); [discriminate|].
  unfold jsdiv. destruct (Qeq_bool _ 0); discriminate.
Qed.

(** [step] reads and writes [state] only; the other fields stay. *)
Lemma step_fields (rt rt' : DeterministicRuntime) :
  step rt = Ok rt' ->
  config rt' = config rt
  /\ timingMap rt' = timingMap rt
  /\ accumulatedTime rt' = accumulatedTime rt
  /\ lastTimestamp rt' = lastTimestamp rt.
Proof.
  unfold step. destruct (timingMap rt) as [m|] eqn:Em.
  - destruct (isPlaying (state rt)).
    + intro H. bind_inv H. bind_inv H. injection H as <-. simpl. auto.
    + intro H. injection H as <-. auto.
  - intro H. injection H as <-. auto.
Qed.

Lemma step_not_OutOfFuel (rt : DeterministicRuntime) :
  step rt <> Err OutOfFuel.
Proof.
  unfold step. destruct (timingMap rt) as [m|]; [|discriminate].
  destruct (isPlaying (state rt)); [|discriminate].
  unfold getFixedTimeStep, jsdiv.
  destruct (Qeq_bool (cfg_fps (config rt)) 0); [discriminate|]. cbn [bind].
  destruct (getNormalizedProgressAtTime m _) as [p|e] eqn:E; [discriminate|].
  cbn [bind]. intro H. injection H as ->.
  exact (getNormalizedProgressAtTime_not_OutOfFuel _ _ E).
Qed.

(** The outcome of [step] is the same for two runtimes that differ in the
    bookkeeping of [update] only. *)
Lemma step_sameSimulation (a b : DeterministicRuntime) :
  sameSimulation a b ->
  match step a, step b with
  | Ok a', Ok b' => sameSimulation a' b'
  | Err e, Err e' => e = e'
  | _, _ => False
  end.
Proof.
  intros Hab. pose proof Hab as [Hc [Hm Hs]].
  unfold step. rewrite <- Hm, <- Hs.
  destruct (timingMap a) as [m|] eqn:Em; [|exact Hab].
  destruct (isPlaying (state a)) eqn:Ep; [|exact Hab].
  unfold getFixedTimeStep. rewrite <- Hc.
  destruct (jsdiv 1 (cfg_fps (config a))) as [fs|e]; cbn [bind]; [|reflexivity].
  destruct (getNormalizedProgressAtTime m _) as [p|e]; cbn [bind];
    [|reflexivity].
  repeat split; simpl; congruence.
Qed.

Lemma sameSimulation_refl (a : DeterministicRuntime) : sameSimulation a a.
Proof. repeat split. Qed.

Lemma sameSimulation_sym (a b : DeterministicRuntime) :
  sameSimulation a b -> sameSimulation b a.
Proof. intros [H1 [H2 H3]]. repeat split; congruence. Qed.

Lemma sameSimulation_trans (a b c : DeterministicRuntime) :
  sameSimulation a b -> sameSimulation b c -> sameSimulation a c.
Proof. intros [H1 [H2 H3]] [H4 [H5 H6]]. repeat split; congruence. Qed.

(** Runs of [step] from two such runtimes go through the same states. *)
Lemma steps_sameSimulation (n : nat) :
  forall a b : DeterministicRuntime,
    sameSimulation a b ->
    match steps n a, steps n b with
    | Ok ra, Ok rb => snd ra = snd rb /\ sameSimulation (fst ra) (fst rb)
    | Err e, Err e' => e = e'
    | _, _ => False
    end.
Proof.
  induction n as [|n IH]; intros a b Hab; simpl.
  - split; [reflexivity | exact Hab].
  - pose proof (step_sameSimulation a b Hab) as Hstep.
    destruct (step a) as [a'|e], (step b) as [b'|e']; cbn [bind];
      try contradiction; [|exact Hstep].
    specialize (IH a' b' Hstep).
    destruct (steps n a') as [ra|e], (steps n b') as [rb|e']; cbn [bind];
      try contradiction; [|exact IH].
    destruct IH as [E Hs]. destruct Hstep as [_ [_ Est]].
    simpl. split; [rewrite E, Est; reflexivity | exact Hs].
Qed.

(** A run of [n1 + n2] steps is a run of [n1] followed by a run of [n2]. *)
Lemma steps_app (n1 n2 : nat) :
  forall (rt : DeterministicRuntime) r1 r2,
    steps n1 rt = Ok r1 ->
    steps n2 (fst r1) = Ok r2 ->
    steps (n1 + n2) rt = Ok (fst r2, snd r1 ++ snd r2).
Proof.
  induction n1 as [|n1 IH]; intros rt r1 r2 H1 H2; simpl in *.
  - injection H1 as <-. simpl in H2. rewrite H2. destruct r2; reflexivity.
  - bind_inv H1. bind_inv H1. injection H1 as <-. simpl in H2.
    rewrite Hv. cbn [bind]. rewrite (IH _ _ _ Hv0 H2). reflexivity.
Qed.

Lemma steps_length (n : nat) :
  forall (rt : DeterministicRuntime) r,
    steps n rt = Ok r -> length (snd r) = n.
Proof.
  induction n as [|n IH]; intros rt r H; simpl in H.
  - injection H as <-. reflexivity.
  - bind_inv H. bind_inv H. injection H as <-. simpl.
    rewrite (IH _ _ Hv0). reflexivity.
Qed.

(** Moves a successful run of [step] calls to a runtime with the same
    simulation fields. *)
Lemma steps_transfer (n : nat) (a b : DeterministicRuntime) ra :
  sameSimulation a b ->
  steps n a = Ok ra ->
  exists rb,
    steps n b = Ok rb /\ snd rb = snd ra /\ sameSimulation (fst rb) (fst ra).
Proof.
  intros Hab Ha. pose proof (steps_sameSimulation n a b Hab) as H.
  rewrite Ha in H. destruct (steps n b) as [rb|e]; [|contradiction].
  destruct H as [E Hs]. exists rb.
  split; [reflexivity|]. split; [congruence | apply sameSimulation_sym, Hs].
Qed.

(** The loop of [update] is a run of [step] calls: what it adds to [visited]
    is what that run goes through. *)
Lemma updateLoop_steps (fixedStep : Q) (fuel : nat) :
  forall (rt : DeterministicRuntime) (visited : list RuntimeState) r,
    updateLoop fuel fixedStep rt visited = Ok r ->
    exists n r',
      steps n rt = Ok r'
      /\ snd r = visited ++ snd r'
      /\ sameSimulation (fst r') (fst r).
Proof.
  induction fuel as [|fuel IH]; intros rt visited r H; simpl in H.
  - destruct (Qgeb (accumulatedTime rt) fixedStep); [discriminate|].
    injection H as <-. exists 0%nat, (rt, []). simpl.
    rewrite app_nil_r. repeat split.
  - destruct (Qgeb (accumulatedTime rt) fixedStep).
    + bind_inv H. rename v into rt1.
      apply IH in H. destruct H as [n [r2 [Hsteps [Hvis Hsim]]]].
      set (rt2 := set_accumulatedTime rt1 (accumulatedTime rt1 - fixedStep))
        in *.
      assert (H21 : sameSimulation rt2 rt1) by (repeat split).
      destruct (steps_transfer n rt2 rt1 r2 H21 Hsteps)
        as [r1 [Hsteps1 [Hvis1 Hsim1]]].
      exists (S n), (fst r1, state rt1 :: snd r1). simpl.
      rewrite Hv. cbn [bind]. rewrite Hsteps1. cbn [bind].
      split; [reflexivity|]. split.
      * rewrite Hvis, Hvis1, <- app_assoc. reflexivity.
      * eapply sameSimulation_trans; eassumption.
    + injection H as <-. exists 0%nat, (rt, []). simpl.
      rewrite app_nil_r. repeat split.
Qed.

(** One call of [update] goes through the states of as many direct calls of
    [step]. *)
Lemma update_steps (fuel : nat) (rt : DeterministicRuntime) (timestamp : Q) r :
  update fuel rt timestamp = Ok r ->
  exists r',
    steps (length (snd r)) rt = Ok r'
    /\ snd r' = snd r
    /\ sameSimulation (fst r') (fst r).
Proof.
  unfold update. destruct (negb (isPlaying (state rt))).
  - intro H. injection H as <-. exists (rt, []). repeat split.
  - intro H. bind_inv H. rename v into fixedStep.
    apply updateLoop_steps in H. destruct H as [n [r1 [Hsteps [Hvis Hsim]]]].
    simpl in Hvis.
    match type of Hsteps with steps n ?rt1 = _ =>
      assert (H1 : sameSimulation rt1 rt) by (repeat split);
      destruct (steps_transfer n rt1 rt r1 H1 Hsteps)
        as [r0 [Hsteps0 [Hvis0 Hsim0]]]
    end.
    exists r0. rewrite Hvis, <- Hvis0, (steps_length _ _ _ Hsteps0).
    split; [exact Hsteps0|]. split; [reflexivity|].
    eapply sameSimulation_trans; eassumption.
Qed.

(** C3.  The states that a run of [update] calls goes through, whatever the
    timestamps, the speed and the map, are the states of as many direct
    calls of [step] from the same start, in the same order, and both runs
    end in the same simulation state.  Two runs of [step] of the same length
    from runtimes with the same map, configuration and state go through the
    same states (or stop at the same failure). *)
Theorem C3_update_visits_the_states_of_step :
  (forall (fuel : nat) (rt : DeterministicRuntime) (timestamps : list Q) r,
      updates fuel rt timestamps = Ok r ->
      exists r',
        steps (length (snd r)) rt = Ok r'
        /\ snd r' = snd r
        /\ sameSimulation (fst r') (fst r))
  /\ (forall (n : nat) (rt1 rt2 : DeterministicRuntime),
         sameSimulation rt1 rt2 ->
         visitedStates (steps n rt1) = visitedStates (steps n rt2)).
Proof.
  split.
  - intros fuel rt timestamps. revert rt.
    induction timestamps as [|timestamp rest IH]; intros rt r H; simpl in H.
    + injection H as <-. exists (rt, []). repeat split.
    + bind_inv H. bind_inv H. rename v into r1, v0 into r2.
      injection H as <-. simpl.
      destruct (update_steps _ _ _ _ Hv) as [s1 [Hs1 [Hvis1 Hsim1]]].
      destruct (IH _ _ Hv0) as [s2 [Hs2 [Hvis2 Hsim2]]].
      destruct (steps_transfer _ _ _ _ (sameSimulation_sym _ _ Hsim1) Hs2)
        as [s3 [Hs3 [Hvis3 Hsim3]]].
      rewrite length_app.
      exists (fst s3, snd s1 ++ snd s3).
      split; [exact (steps_app _ _ _ _ _ Hs1 Hs3)|]. simpl.
      split; [congruence|].
      eapply sameSimulation_trans; eassumption.
  - intros n rt1 rt2 H. pose proof (steps_sameSimulation n rt1 rt2 H) as Hs.
    destruct (steps n rt1) as [r1|e1], (steps n rt2) as [r2|e2]; simpl;
      try contradiction.
    + destruct Hs as [-> _]. reflexivity.
    + congruence.
Qed.

(** C4.  [setTimingMap] installs the map, takes its total duration, and puts
    time, frame, progress and segment index back to 0 (with the accumulator
    and the last timestamp of [update]); it leaves [isPlaying] and [speed]
    as they were. *)
Theorem C4_setTimingMap_resets_position (rt : DeterministicRuntime)
  (map : SegmentTimingMap) :
  let rt' := setTimingMap rt map in
  timingMap rt' = Some map
  /\ cfg_totalDuration (config rt') = totalDuration map
  /\ time (state rt') = 0
  /\ frame (state rt') = 0%Z
  /\ normalizedProgress (state rt') = 0
  /\ currentSegmentIndex (state rt') = 0%Z
  /\ accumulatedTime rt' = 0
  /\ lastTimestamp rt' = None
  /\ isPlaying (state rt') = isPlaying (state rt)
  /\ speed (state rt') = speed (state rt).
Proof. repeat split. Qed.

(** C4, as stated, fails: a runtime that is playing when a map is installed
    is still playing afterwards. *)
Lemma C4_still_playing_after_setTimingMap :
  isPlaying (state playingRuntime) = true
  /\ isPlaying (state (setTimingMap playingRuntime fourMajorMap)) <> false.
Proof. split; [reflexivity | discriminate]. Qed.

(** C5.  With no map installed, [step], [seekToTime],
    [seekToNormalizedProgress] and [seekToFrame] return normally and leave
    the runtime as it was. *)
Theorem C5_no_map_is_a_silent_no_op (rt : DeterministicRuntime)
  (time : res Q) (progress frame : Q) :
  timingMap rt = None ->
  step rt = Ok rt
  /\ seekToTime rt time = Ok rt
  /\ seekToNormalizedProgress rt progress = Ok rt
  /\ seekToFrame rt frame = Ok rt.
Proof.
  intro H. unfold seekToFrame, step, seekToTime, seekToNormalizedProgress.
  rewrite H. repeat split.
Qed.

Lemma C5_no_map_witness :
  step (constructor config25) = Ok (constructor config25)
  /\ seekToTime (constructor config25) (Ok 1) = Ok (constructor config25)
  /\ seekToNormalizedProgress (constructor config25) (1 # 2)
     = Ok (constructor config25)
  /\ seekToFrame (constructor config25) 10 = Ok (constructor config25).
Proof.
  apply (C5_no_map_is_a_silent_no_op (constructor config25) (Ok 1) (1 # 2) 10).
  reflexivity.
Defined.

(** C5, as stated, fails: on a runtime without a map no operation throws. *)
Lemma C5_no_exception_without_map :
  timingMap (constructor config25) = None
  /\ step (constructor config25) <> Err Thrown
  /\ seekToTime (constructor config25) (Ok 1) <> Err Thrown
  /\ seekToNormalizedProgress (constructor config25) (1 # 2) <> Err Thrown
  /\ seekToFrame (constructor config25) 10 <> Err Thrown.
Proof. repeat split; discriminate. Qed.

Lemma C3_preview_witness :
  exists r',
    steps (length (snd previewRun)) playingRuntime = Ok r'
    /\ snd r' = snd previewRun
    /\ sameSimulation (fst r') (fst previewRun).
Proof.
  apply (proj1 C3_update_visits_the_states_of_step
           10%nat playingRuntime previewTimestamps previewRun).
  vm_compute. reflexivity.
Defined.

(** The preview run above makes five steps. *)
Example previewRun_steps : length (snd previewRun) = 5%nat.
Proof. reflexivity. Qed.

(** *** The loop of [update] finishes *)

(** With a positive step the loop needs no more turns than the accumulated
    time holds steps. *)
Lemma updateLoop_enough_fuel (fixedStep : Q) (fuel : nat) :
  0 < fixedStep ->
  forall (rt : DeterministicRuntime) (visited : list RuntimeState),
    accumulatedTime rt < inject_Z (Z.of_nat fuel) * fixedStep ->
    updateLoop fuel fixedStep rt visited <> Err OutOfFuel.
Proof.
  intro Hpos. induction fuel as [|fuel IH]; intros rt visited Hacc; simpl.
  - destruct (Qgeb (accumulatedTime rt) fixedStep) eqn:E; [|discriminate].
    apply Qgeb_true in E. change (inject_Z (Z.of_nat 0)) with 0 in Hacc. lra.
  - destruct (Qgeb (accumulatedTime rt) fixedStep) eqn:E; [|discriminate].
    destruct (step rt) as [rt1|e] eqn:Es; cbn [bind].
    + apply IH. cbn [accumulatedTime set_accumulatedTime].
      destruct (step_fields _ _ Es) as [_ [_ [-> _]]].
      apply Qgeb_true in E.
      rewrite Nat2Z.inj_succ in Hacc. unfold Z.succ in Hacc.
      rewrite inject_Z_plus in Hacc. change (inject_Z 1) with 1 in Hacc.
      lra.
    + intro H. injection H as ->. exact (step_not_OutOfFuel _ Es).
Qed.

(** More fuel does not change an outcome that is not [OutOfFuel]. *)
Lemma updateLoop_more_fuel (fixedStep : Q) (fuel : nat) :
  forall (fuel' : nat) (rt : DeterministicRuntime)
         (visited : list RuntimeState),
    (fuel <= fuel')%nat ->
    updateLoop fuel fixedStep rt visited <> Err OutOfFuel ->
    updateLoop fuel' fixedStep rt visited
    = updateLoop fuel fixedStep rt visited.
Proof.
  induction fuel as [|fuel IH]; intros fuel' rt visited Hle H.
  - simpl in H |- *.
    destruct fuel'; simpl;
      destruct (Qgeb (accumulatedTime rt) fixedStep);
      try reflexivity; congruence.
  - destruct fuel' as [|fuel']; [lia|]. simpl in H |- *.
    destruct (Qgeb (accumulatedTime rt) fixedStep); [|reflexivity].
    destruct (step rt) as [rt1|e]; cbn [bind] in *; [|reflexivity].
    apply IH; [lia | exact H].
Qed.

Lemma update_more_fuel (fuel fuel' : nat) (rt : DeterministicRuntime)
  (timestamp : Q) :
  (fuel <= fuel')%nat ->
  update fuel rt timestamp <> Err OutOfFuel ->
  update fuel' rt timestamp = update fuel rt timestamp.
Proof.
  unfold update. intros Hle H.
  destruct (negb (isPlaying (state rt))); [reflexivity|].
  destruct (getFixedTimeStep _) as [fs|e]; cbn [bind] in *; [|reflexivity].
  apply updateLoop_more_fuel; assumption.
Qed.

(** With a positive frame rate one call of [update] finishes. *)
Lemma update_terminates (rt : DeterministicRuntime) (timestamp : Q) :
  0 < cfg_fps (config rt) ->
  exists fuel, update fuel rt timestamp <> Err OutOfFuel.
Proof.
  intro Hfps. unfold update.
  destruct (negb (isPlaying (state rt))); [exists 0%nat; discriminate|].
  unfold getFixedTimeStep. cbn [config].
  rewrite jsdiv_ok by lra. cbn [bind].
  set (fs := 1 / cfg_fps (config rt)).
  assert (Hfs : 0 < fs).
  { unfold fs. apply Qlt_shift_div_l; lra. }
  match goal with |- exists fuel, updateLoop fuel fs ?rt1 _ <> _ =>
    set (acc := accumulatedTime rt1);
    exists (Z.to_nat (Z.max 0 (Qfloor (acc / fs) + 1)));
    apply updateLoop_enough_fuel; [exact Hfs|]; fold acc
  end.
  rewrite Z2Nat.id by lia.
  pose proof (Qlt_floor (acc / fs)) as Hfloor.
  assert (Hle : inject_Z (Qfloor (acc / fs) + 1)
                <= inject_Z (Z.max 0 (Qfloor (acc / fs) + 1))).
  { rewrite <- Zle_Qle. lia. }
  assert (Hq : acc / fs < inject_Z (Z.max 0 (Qfloor (acc / fs) + 1))) by lra.
  apply (Qmult_lt_r _ _ fs Hfs) in Hq.
  assert (Heq : acc / fs * fs == acc) by (field; lra).
  rewrite Heq in Hq. exact Hq.
Qed.

Lemma steps_config (n : nat) :
  forall (rt : DeterministicRuntime) r,
    steps n rt = Ok r -> config (fst r) = config rt.
Proof.
  induction n as [|n IH]; intros rt r Hs; simpl in Hs.
  - injection Hs as <-. reflexivity.
  - bind_inv Hs. bind_inv Hs. injection Hs as <-. simpl.
    rewrite (IH _ _ Hv0). apply (step_fields _ _ Hv).
Qed.

Lemma update_config (fuel : nat) (rt : DeterministicRuntime) (timestamp : Q)
  r :
  update fuel rt timestamp = Ok r -> config (fst r) = config rt.
Proof.
  intro H. destruct (update_steps _ _ _ _ H) as [r' [Hs [_ [Hc _]]]].
  rewrite <- Hc. exact (steps_config _ _ _ Hs).
Qed.

Lemma update_not_OutOfFuel_more (fuel fuel' : nat) (rt : DeterministicRuntime)
  (timestamp : Q) :
  (fuel <= fuel')%nat ->
  update fuel rt timestamp <> Err OutOfFuel ->
  update fuel' rt timestamp <> Err OutOfFuel.
Proof.
  intros Hle H. rewrite (update_more_fuel _ _ _ _ Hle H). exact H.
Qed.

(** With a positive frame rate a run of [update] calls finishes: some fuel is
    enough for all of them. *)
Lemma updates_terminates (timestamps : list Q) :
  forall rt : DeterministicRuntime,
    0 < cfg_fps (config rt) ->
    exists fuel,
      forall fuel', (fuel <= fuel')%nat ->
                    updates fuel' rt timestamps <> Err OutOfFuel.
Proof.
  induction timestamps as [|timestamp rest IH]; intros rt Hfps.
  - exists 0%nat. intros fuel' _. discriminate.
  - destruct (update_terminates rt timestamp Hfps) as [f1 H1].
    destruct (update f1 rt timestamp) as [r1|e] eqn:E1.
    + assert (Hc : 0 < cfg_fps (config (fst r1)))
        by (rewrite (update_config _ _ _ _ E1); exact Hfps).
      destruct (IH (fst r1) Hc) as [f2 H2].
      exists (Nat.max f1 f2). intros fuel' Hle. simpl.
      rewrite (update_more_fuel f1 fuel') by (try lia; congruence).
      rewrite E1. cbn [bind].
      specialize (H2 fuel' ltac:(lia)).
      destruct (updates fuel' (fst r1) rest) as [r2|e2]; cbn [bind];
        [discriminate | congruence].
    + exists f1. intros fuel' Hle. simpl.
      rewrite (update_more_fuel f1 fuel') by (try lia; congruence).
      rewrite E1. cbn [bind]. congruence.
Qed.

(** ** The worked inputs *)


Lemma C8_interior_segment_witness :
  let s := mkSegment 5 8 3 (1 # 3) (2 # 3) 2 4 true 2 in
  let ratio := (6 - startTime s) / duration s in
  let span := endProgress s - startProgress s in
  (1%nat = 0%nat \/ 2%nat = length (segments fourMajorMap) ->
   getNormalizedProgressAtTime fourMajorMap 6
   = Ok (startProgress s + span * ratio))
  /\ (1%nat <> 0%nat -> 2%nat <> length (segments fourMajorMap) ->
      getNormalizedProgressAtTime fourMajorMap 6
      = Ok (startProgress s + span * quadraticEaseInOut ratio)).
Proof.
  intro s.
  apply (proj2 (C8_easing_on_interior_segments sqrtQ)
           fourMajors pauseConfig None fourMajorMap 1%nat s 6).
  - reflexivity.
  - vm_compute. discriminate.
  - intros s' Hin. simpl in Hin.
    destruct Hin as [<- | [<- | [<- | []]]]; vm_compute; discriminate.
  - reflexivity.
  - vm_compute. discriminate.
  - vm_compute. reflexivity.
Defined.

(** In the interior segment of [fourMajorMap] the progress one second into
    the motion is the eased one: 1/3 + 1/3 * 2 * (1/3)^2. *)
Example fourMajorMap_eased :
  exists p, getNormalizedProgressAtTime fourMajorMap 6 = Ok p
            /\ p == (1 # 3) + (1 # 3) * (2 # 9).
Proof. eexists. split; [reflexivity | vm_compute; reflexivity]. Qed.

(** In its first segment the progress is linear in time. *)
Example fourMajorMap_linear :
  exists p, getNormalizedProgressAtTime fourMajorMap 1 = Ok p
            /\ p == (1 # 3) * (1 # 3).
Proof. eexists. split; [reflexivity | vm_compute; reflexivity]. Qed.

Lemma C10_threeMajors_witness :
  exists m,
    buildTimingMap sqrtQ threeMajors speedPauseConfig None = Ok m
    /\ Z.of_nat (length (segments m)) = (majorCount threeMajors - 1)%Z
    /\ Forall (fun s => duration s == 0 /\ startTime s == endTime s)
              (segments m)
    /\ totalDuration m == totalPause (segments m).
Proof.
  apply (C10_no_path_zero_durations sqrtQ threeMajors speedPauseConfig).
  - reflexivity.
  - vm_compute. discriminate.
Defined.

(** C2.  On the map of two segments that last 3 and 1 seconds the progress
    at the total duration is 2/3 and not 1, and it is less than the progress
    3/4 half a second earlier: at [time = totalDuration] no window holds the
    time and the lookup falls back to the first segment. *)
Theorem C2_progress_at_total_duration :
  exists m pEnd pBefore,
    buildTimingMap sqrtQ unevenMajors speedConfig (Some unevenPath) = Ok m
    /\ totalDuration m == 4
    /\ getNormalizedProgressAtTime m (totalDuration m) = Ok pEnd
    /\ pEnd == 2 # 3
    /\ ~ pEnd == 1
    /\ getNormalizedProgressAtTime m (7 # 2) = Ok pBefore
    /\ pBefore == 3 # 4
    /\ pEnd < pBefore.
Proof.
  eexists. eexists. eexists.
  split; [vm_compute; reflexivity|].
  split; [vm_compute; reflexivity|].
  split; [vm_compute; reflexivity|].
  split; [vm_compute; reflexivity|].
  split; [vm_compute; discriminate|].
  split; [vm_compute; reflexivity|].
  split; [vm_compute; reflexivity|].
  vm_compute. reflexivity.
Qed.

(** With a pause the progress at the total duration of [pausedMap] is 5/3. *)
Example pausedMap_progress_at_end :
  exists p, getNormalizedProgressAtTime pausedMap (totalDuration pausedMap)
            = Ok p /\ p == 5 # 3.
Proof. eexists. split; [reflexivity | vm_compute; reflexivity]. Qed.

(** C6.  On the same map the round trip from the total duration, 4 seconds,
    comes back at 10/3 seconds. *)
Theorem C6_round_trip_at_total_duration :
  exists m p back,
    buildTimingMap sqrtQ unevenMajors speedConfig (Some unevenPath) = Ok m
    /\ totalDuration m == 4
    /\ getNormalizedProgressAtTime m (totalDuration m) = Ok p
    /\ getTimeAtNormalizedProgress m p = Ok back
    /\ back == 10 # 3
    /\ ~ back == totalDuration m.
Proof.
  eexists. eexists. eexists.
  split; [vm_compute; reflexivity|].
  split; [vm_compute; reflexivity|].
  split; [vm_compute; reflexivity|].
  split; [vm_compute; reflexivity|].
  split; [vm_compute; reflexivity|].
  vm_compute. discriminate.
Qed.

(** The round trip from the total duration of [pausedMap], 10 seconds, comes
    back at 8 seconds. *)
Example pausedMap_round_trip_at_end :
  exists p back,
    getNormalizedProgressAtTime pausedMap (totalDuration pausedMap) = Ok p
    /\ getTimeAtNormalizedProgress pausedMap p = Ok back
    /\ back == 8.
Proof.
  eexists. eexists. split; [reflexivity|]. split; [reflexivity|].
  vm_compute. reflexivity.
Qed.

(** C9.  On a straight path of two points with its arc-length table
    [0, 100], the position at the total length and the position at length 0
    are not the last and the first point: in both cases the spline is
    evaluated with a doubled control point, whose zero chord length is a
    divisor. *)
Theorem C9_endpoints_of_two_points :
  buildArcLengthTable sqrtQ twoPoints = [0; 100]
  /\ getPositionAtArcLength sqrtQ twoPoints
       (buildArcLengthTable sqrtQ twoPoints) 100 = Err NonFinite
  /\ getPositionAtArcLength sqrtQ twoPoints
       (buildArcLengthTable sqrtQ twoPoints) 0 = Err NonFinite.
Proof. repeat split; vm_compute; reflexivity. Qed.

(** At a length inside the middle segment of [fourPoints] the position is
    the spline through the four points at the local fraction, with the
    default tension of [generateSmoothPath]. *)
Example fourPoints_interior :
  getPositionAtArcLength sqrtQ fourPoints
    (buildArcLengthTable sqrtQ fourPoints) 150
  = catmullRomCentripetal sqrtQ
      (mkPoint 0 0) (mkPoint 100 0) (mkPoint 100 100) (mkPoint 200 100)
      ((150 - 100) / (200 - 100)) default_tension.
Proof. vm_compute. reflexivity. Qed.

Example fourPoints_interior_value :
  exists p,
    getPositionAtArcLength sqrtQ fourPoints
      (buildArcLengthTable sqrtQ fourPoints) 150 = Ok p
    /\ x p == 100 /\ y p == 775.
Proof.
  eexists. split; [vm_compute; reflexivity|].
  split; vm_compute; reflexivity.
Qed.

(** Both ends of [fourPoints] behave as those of [twoPoints]. *)
Example fourPoints_ends :
  getPositionAtArcLength sqrtQ fourPoints
    (buildArcLengthTable sqrtQ fourPoints) 300 = Err NonFinite
  /\ getPositionAtArcLength sqrtQ fourPoints
       (buildArcLengthTable sqrtQ fourPoints) 0 = Err NonFinite.
Proof. split; vm_compute; reflexivity. Qed.

(** The general statement for length 0, at [sqrtQ]. *)
Example twoPoints_start :
  getPositionAtArcLength sqrtQ twoPoints
    (buildArcLengthTable sqrtQ twoPoints) 0 = Err NonFinite.
Proof.
  apply (getPositionAtArcLength_at_zero sqrtQ sqrtQ_zero sqrtQ_nonneg
           (mkPoint 0 0) (mkPoint 100 0) []).
  vm_compute. discriminate.
Qed.

(** * Further properties of the engine *)

(** ** The arc-length table *)

Section ArcLengthTable.

Variable sqrt : Q -> Q.

Hypothesis sqrt_nonneg : forall q : Q, 0 <= sqrt q.

Lemma arcLengthLoop_length (rest : list Point) :
  forall (prev : Point) (total : Q),
    length (arcLengthLoop sqrt prev rest total) = length rest.
Proof.
  induction rest as [|p rest IH]; intros prev total; simpl;
    [reflexivity | rewrite IH; reflexivity].
Qed.

(** Neighbouring entries of the table under construction, with the points
    they belong to. *)
Lemma arcLengthLoop_neighbours (rest : list Point) :
  forall (prev : Point) (total : Q) (i : nat) (a b : Q),
    nth_error (total :: arcLengthLoop sqrt prev rest total) i = Some a ->
    nth_error (total :: arcLengthLoop sqrt prev rest total) (S i) = Some b ->
    exists p q,
      nth_error (prev :: rest) i = Some p
      /\ nth_error (prev :: rest) (S i) = Some q
      /\ b = a + distance sqrt p q.
Proof.
  induction rest as [|r rest IH]; intros prev total i a b Ha Hb.
  - destruct i as [|[|i]]; discriminate.
  - destruct i as [|i].
    + simpl in Ha, Hb. injection Ha as <-. injection Hb as <-.
      exists prev, r. repeat split.
    + change (nth_error (total :: arcLengthLoop sqrt prev (r :: rest) total)
                (S i))
        with (nth_error
                ((total + distance sqrt prev r)
                   :: arcLengthLoop sqrt r rest (total + distance sqrt prev r))
                i) in Ha.
      change (nth_error (total :: arcLengthLoop sqrt prev (r :: rest) total)
                (S (S i)))
        with (nth_error
                ((total + distance sqrt prev r)
                   :: arcLengthLoop sqrt r rest (total + distance sqrt prev r))
                (S i)) in Hb.
      destruct (IH _ _ _ _ _ Ha Hb) as [p [q [Hp [Hq E]]]].
      exists p, q. repeat split; assumption.
Qed.

(** X1.  The arc-length table has one entry per point; its first entry is
    0; and every entry is the one before plus the distance between the two
    points they belong to, so the table never decreases, repeated points
    included. *)
Theorem X1_arc_length_table_shape (points : list Point) :
  let table := buildArcLengthTable sqrt points in
  length table = length points
  /\ (points <> [] -> nth_error table 0 = Some 0)
  /\ (forall (i : nat) (a b : Q),
         nth_error table i = Some a ->
         nth_error table (S i) = Some b ->
         a <= b
         /\ exists p q,
              nth_error points i = Some p
              /\ nth_error points (S i) = Some q
              /\ b = a + distance sqrt p q).
Proof.
  destruct points as [|p rest]; simpl.
  - split; [reflexivity|]. split; [congruence|].
    intros i a b Ha. destruct i; discriminate.
  - split; [rewrite arcLengthLoop_length; reflexivity|].
    split; [reflexivity|].
    intros i a b Ha Hb.
    destruct (arcLengthLoop_neighbours rest p 0 i a b Ha Hb)
      as [u [v [Hu [Hv E]]]].
    split; [|exists u, v; repeat split; assumption].
    rewrite E. unfold distance.
    pose proof (sqrt_nonneg
                  ((x v - x u) * (x v - x u) + (y v - y u) * (y v - y u))).
    lra.
Qed.

End ArcLengthTable.

Lemma X1_fourPoints_witness :
  let table := buildArcLengthTable sqrtQ fourPoints in
  length table = length fourPoints
  /\ (fourPoints <> [] -> nth_error table 0 = Some 0)
  /\ (forall (i : nat) (a b : Q),
         nth_error table i = Some a ->
         nth_error table (S i) = Some b ->
         a <= b
         /\ exists p q,
              nth_error fourPoints i = Some p
              /\ nth_error fourPoints (S i) = Some q
              /\ b = a + distance sqrtQ p q).
Proof.
  exact (X1_arc_length_table_shape sqrtQ sqrtQ_nonneg fourPoints).
Defined.

(** ** The spline at the ends of a segment *)

Lemma blend_ok (na da u nb db v : Q) :
  ~ da == 0 -> ~ db == 0 ->
  blend na da u nb db v = Ok (na / da * u + nb / db * v).
Proof.
  intros Ha Hb. unfold blend.
  rewrite (jsdiv_ok _ _ Ha), (jsdiv_ok _ _ Hb). reflexivity.
Qed.

Section SplineEnds.

Variable sqrt : Q -> Q.

(** X2.  With four control points whose neighbours are apart, the spline
    at parameter 0 is [p1] moved towards [p2] by the factor
    [(1 - tension) * a], and at parameter 1 it is [p2] moved along the same
    chord by the factor [(1 - tension) * (a + b - 1)], where [a] and [b] are
    the square roots of the first two chord lengths: the straight part of
    the blend is taken at the rescaled parameter.  With tension 1 the curve
    goes through [p1] and [p2]. *)
Theorem X2_spline_at_segment_ends (p0 p1 p2 p3 : Point) (tension : Q) :
  let a := pow_alpha sqrt (distance sqrt p0 p1) in
  let b := pow_alpha sqrt (distance sqrt p1 p2) in
  let c := pow_alpha sqrt (distance sqrt p2 p3) in
  0 < a -> 0 < b -> 0 < c ->
  exists q0 q1,
    catmullRomCentripetal sqrt p0 p1 p2 p3 0 tension = Ok q0
    /\ catmullRomCentripetal sqrt p0 p1 p2 p3 1 tension = Ok q1
    /\ x q0 == x p1 + (1 - tension) * a * (x p2 - x p1)
    /\ y q0 == y p1 + (1 - tension) * a * (y p2 - y p1)
    /\ x q1 == x p2 + (1 - tension) * (a + b - 1) * (x p2 - x p1)
    /\ y q1 == y p2 + (1 - tension) * (a + b - 1) * (y p2 - y p1)
    /\ (tension == 1 ->
        x q0 == x p1 /\ y q0 == y p1 /\ x q1 == x p2 /\ y q1 == y p2).
Proof.
  intros a b c Ha Hb Hc.
  unfold catmullRomCentripetal. fold a b c.
  repeat (rewrite blend_ok by lra; cbn [bind]).
  eexists. eexists.
  split; [reflexivity|]. split; [reflexivity|]. cbn [x y].
  split; [field; lra|]. split; [field; lra|].
  split; [field; lra|]. split; [field; lra|].
  intro Ht. repeat split; rewrite Ht; field; lra.
Qed.

End SplineEnds.

Lemma X2_fourPoints_witness :
  let a := pow_alpha sqrtQ (distance sqrtQ (mkPoint 0 0) (mkPoint 100 0)) in
  let b := pow_alpha sqrtQ (distance sqrtQ (mkPoint 100 0) (mkPoint 100 100)) in
  exists q0 q1,
    catmullRomCentripetal sqrtQ (mkPoint 0 0) (mkPoint 100 0)
      (mkPoint 100 100) (mkPoint 200 100) 0 (1 # 2) = Ok q0
    /\ catmullRomCentripetal sqrtQ (mkPoint 0 0) (mkPoint 100 0)
         (mkPoint 100 100) (mkPoint 200 100) 1 (1 # 2) = Ok q1
    /\ x q0 == 100 + (1 - (1 # 2)) * a * (100 - 100)
    /\ y q0 == 0 + (1 - (1 # 2)) * a * (100 - 0)
    /\ x q1 == 100 + (1 - (1 # 2)) * (a + b - 1) * (100 - 100)
    /\ y q1 == 100 + (1 - (1 # 2)) * (a + b - 1) * (100 - 0)
    /\ ((1 # 2) == 1 ->
        x q0 == 100 /\ y q0 == 0 /\ x q1 == 100 /\ y q1 == 100).
Proof.
  apply (X2_spline_at_segment_ends sqrtQ (mkPoint 0 0) (mkPoint 100 0)
           (mkPoint 100 100) (mkPoint 200 100) (1 # 2));
    vm_compute; reflexivity.
Defined.

(** With the default tension the spline of [fourPoints] starts its middle
    segment 500 pixels off the waypoint (100, 0). *)
Example fourPoints_segment_start :
  exists q,
    catmullRomCentripetal sqrtQ (mkPoint 0 0) (mkPoint 100 0)
      (mkPoint 100 100) (mkPoint 200 100) 0 default_tension = Ok q
    /\ x q == 100 /\ y q == 500.
Proof.
  eexists. split; [vm_compute; reflexivity|].
  split; vm_compute; reflexivity.
Qed.

(** ** The densified path *)

Section SmoothPath.

Variable sqrt : Q -> Q.

Hypothesis sqrt_zero : forall q : Q, q == 0 -> sqrt q == 0.

(** Without samples the outer loop only reads the control points. *)
Lemma pathLoop_no_samples (points : list Point) (pointsPerSegment : Z)
  (tension : Q) :
  (pointsPerSegment <= 0)%Z ->
  forall (n : nat) (i : Z) (smoothPath : list Point),
    (1 <= i)%Z ->
    (i + Z.of_nat n <= Z.of_nat (length points) - 1)%Z ->
    pathLoop sqrt n i points pointsPerSegment tension smoothPath
    = Ok smoothPath.
Proof.
  intros Hpps. induction n as [|n IH]; intros i smoothPath Hi Hn.
  - reflexivity.
  - cbn [pathLoop].
    assert (E : (i =? 0)%Z = false) by (apply Z.eqb_neq; lia).
    rewrite E. cbn [bind].
    destruct (at_index_in_range points (Z.max 0 (i - 1))) as [p0 ->]; [lia|].
    destruct (at_index_in_range points i) as [p1 ->]; [lia|].
    destruct (at_index_in_range points (i + 1)) as [p2 ->]; [lia|].
    destruct (at_index_in_range points
                (Z.min (Z.of_nat (length points) - 1) (i + 2)))
      as [p3 ->]; [lia|].
    cbn [deref bind].
    replace (Z.to_nat pointsPerSegment) with 0%nat by lia.
    cbn [sampleLoop bind]. apply IH; lia.
Qed.

(** X3.  [generateSmoothPath] returns fewer than two points as they are.
    For two or more points it has no finite result as soon as a sample is
    asked for: the first segment doubles its first control point, whose
    zero chord length is a divisor of the spline.  Without samples it
    returns the first point alone. *)
Theorem X3_smooth_path_outcomes (points : list Point)
  (pointsPerSegment : Z) (tension : Q) :
  ((length points < 2)%nat ->
   generateSmoothPath sqrt points pointsPerSegment tension = Ok points)
  /\ ((2 <= length points)%nat -> (1 <= pointsPerSegment)%Z ->
      generateSmoothPath sqrt points pointsPerSegment tension
      = Err NonFinite)
  /\ ((2 <= length points)%nat -> (pointsPerSegment <= 0)%Z ->
      generateSmoothPath sqrt points pointsPerSegment tension
      = Ok (firstn 1 points)).
Proof.
  split; [|split].
  - intro H. unfold generateSmoothPath.
    assert (E : (Z.of_nat (length points) <? 2)%Z = true)
      by (apply Z.ltb_lt; lia).
    rewrite E. reflexivity.
  - intros H Hpps. destruct points as [|p [|q rest]]; simpl in H; try lia.
    apply (generateSmoothPath_first_segment sqrt sqrt_zero); exact Hpps.
  - intros H Hpps. destruct points as [|p [|q rest]]; simpl in H; try lia.
    unfold generateSmoothPath.
    assert (E : (Z.of_nat (length (p :: q :: rest)) <? 2)%Z = false)
      by (apply Z.ltb_ge; cbn [length]; lia).
    rewrite E. cbn [length Nat.sub pathLoop].
    change (at_index (p :: q :: rest) 0) with (Some p).
    change (at_index (p :: q :: rest) (Z.max 0 (0 - 1))) with (Some p).
    change (at_index (p :: q :: rest) (0 + 1)) with (Some q).
    cbn [Z.eqb deref bind].
    destruct (at_index_in_range (p :: q :: rest)
                (Z.min (Z.of_nat (S (S (length rest))) - 1) (0 + 2)))
      as [p3 ->].
    { cbn [length]. lia. }
    cbn [deref bind].
    replace (Z.to_nat pointsPerSegment) with 0%nat by lia.
    cbn [sampleLoop bind app].
    cbn [firstn].
    apply pathLoop_no_samples; [exact Hpps | lia | cbn [length]; lia].
Qed.

(** X4.  For a path of two or more points with its arc-length table, the
    position at length 0 is the first point when the second point coincides
    with it; otherwise the lookup evaluates the spline with the first
    control point doubled and has no finite result. *)
Theorem X4_position_at_length_zero (p q : Point) (rest : list Point) :
  (forall u : Q, 0 <= sqrt u) ->
  let points := p :: q :: rest in
  (distance sqrt p q == 0 ->
   getPositionAtArcLength sqrt points (buildArcLengthTable sqrt points) 0
   = Ok p)
  /\ (~ distance sqrt p q == 0 ->
      getPositionAtArcLength sqrt points (buildArcLengthTable sqrt points) 0
      = Err NonFinite).
Proof.
  intro Hnn. exact (getPositionAtArcLength_at_zero sqrt sqrt_zero Hnn p q rest).
Qed.

End SmoothPath.

Lemma X3_fourPoints_witness :
  generateSmoothPath sqrtQ [mkPoint 5 5] 20 (1 # 2) = Ok [mkPoint 5 5]
  /\ generateSmoothPath sqrtQ fourPoints 20 (1 # 2) = Err NonFinite
  /\ generateSmoothPath sqrtQ fourPoints 0 (1 # 2) = Ok [mkPoint 0 0].
Proof.
  split; [|split].
  - apply (proj1 (X3_smooth_path_outcomes sqrtQ sqrtQ_zero
                    [mkPoint 5 5] 20 (1 # 2))).
    apply Nat.lt_succ_diag_r.
  - apply (proj1 (proj2 (X3_smooth_path_outcomes sqrtQ sqrtQ_zero
                           fourPoints 20 (1 # 2)))).
    + apply Nat.leb_le. reflexivity.
    + discriminate.
  - apply (proj2 (proj2 (X3_smooth_path_outcomes sqrtQ sqrtQ_zero
                           fourPoints 0 (1 # 2)))).
    + apply Nat.leb_le. reflexivity.
    + discriminate.
Defined.

Lemma X4_twoPoints_witness :
  getPositionAtArcLength sqrtQ twoPoints
    (buildArcLengthTable sqrtQ twoPoints) 0 = Err NonFinite
  /\ getPositionAtArcLength sqrtQ
       [mkPoint 7 7; mkPoint 7 7; mkPoint 100 0]
       (buildArcLengthTable sqrtQ [mkPoint 7 7; mkPoint 7 7; mkPoint 100 0])
       0 = Ok (mkPoint 7 7).
Proof.
  split.
  - apply (proj2 (X4_position_at_length_zero sqrtQ sqrtQ_zero
                    (mkPoint 0 0) (mkPoint 100 0) [] sqrtQ_nonneg)).
    vm_compute. discriminate.
  - apply (proj1 (X4_position_at_length_zero sqrtQ sqrtQ_zero
                    (mkPoint 7 7) (mkPoint 7 7) [mkPoint 100 0] sqrtQ_nonneg)).
    vm_compute. reflexivity.
Defined.

(** ** More on the timing map *)

Lemma totalMotion_constant (d : Q) (segs : list Segment) :
  Forall (fun s => duration s = d) segs ->
  totalMotion segs == inject_Z (Z.of_nat (length segs)) * d.
Proof.
  induction 1 as [|s l Hs _ IH].
  - simpl. ring.
  - cbn [totalMotion length]. rewrite IH, Hs, Nat2Z.inj_succ.
    unfold Z.succ. rewrite inject_Z_plus. change (inject_Z 1) with 1. ring.
Qed.

Lemma totalPause_constant (cfg : TimingConfig) (segs : list Segment) :
  Forall (pauseRule cfg) segs ->
  totalPause segs == inject_Z (Z.of_nat (length segs)) * pausePerSegment cfg.
Proof.
  induction 1 as [|s l [H1 H2] _ IH].
  - simpl. ring.
  - cbn [totalPause length]. rewrite IH, Nat2Z.inj_succ.
    unfold Z.succ. rewrite inject_Z_plus. change (inject_Z 1) with 1.
    assert (E : pauseDuration s = pausePerSegment cfg).
    { rewrite H2, H1. unfold pausePerSegment.
      destruct (PauseMode_eqb (pauseMode cfg) pause_none); reflexivity. }
    rewrite E. ring.
Qed.

Section MoreTiming.

Variable sqrt : Q -> Q.

(** X5.  With fewer than two majors [buildTimingMap] returns, whatever the
    configuration and the path, a map without segments and with total
    duration 0; on that map the progress at every time and the time at every
    progress are 0 and there is no current segment. *)
Theorem X5_fewer_than_two_majors (waypoints : list Waypoint)
  (cfg : TimingConfig) (pathPoints : option (list Point)) (t : Q) :
  (majorCount waypoints < 2)%Z ->
  exists m,
    buildTimingMap sqrt waypoints cfg pathPoints = Ok m
    /\ segments m = []
    /\ totalDuration m = 0
    /\ getNormalizedProgressAtTime m t = Ok 0
    /\ getTimeAtNormalizedProgress m t = Ok 0
    /\ getCurrentSegment m t = None.
Proof.
  intro H. unfold buildTimingMap. unfold majorCount in H.
  assert (E : (Z.of_nat (length (majorsFrom 0 waypoints)) <? 2)%Z = true)
    by (apply Z.ltb_lt; exact H).
  rewrite E. eexists. split; [reflexivity|]. repeat split.
Qed.

(** X6.  In constant-time mode [buildTimingMap] always returns a map; for
    [n >= 2] majors it has [n - 1] segments of 3 seconds each, and its total
    duration is [(n - 1) * (3 + pause)], where the pause is [pauseSeconds]
    unless the pause mode is [none]. *)
Theorem X6_constant_time_total (waypoints : list Waypoint)
  (cfg : TimingConfig) (pathPoints : option (list Point)) :
  mode cfg = constantTime ->
  (2 <= majorCount waypoints)%Z ->
  exists m,
    buildTimingMap sqrt waypoints cfg pathPoints = Ok m
    /\ Z.of_nat (length (segments m)) = (majorCount waypoints - 1)%Z
    /\ Forall (fun s => duration s = 3) (segments m)
    /\ totalDuration m
       == inject_Z (majorCount waypoints - 1) * (3 + pausePerSegment cfg).
Proof.
  intros Hmode Hn.
  assert (Hd : forall a b,
             segmentDurationOf sqrt waypoints cfg pathPoints a b = Ok 3).
  { intros a b. unfold segmentDurationOf. rewrite Hmode. reflexivity. }
  destruct (segmentsLoop_total sqrt waypoints cfg pathPoints
              (majorsFrom 0 waypoints) 3 Hd
              (length (majorsFrom 0 waypoints) - 1) 0 [] 0)
    as [new [total' [E HF]]]; [lia | unfold majorCount in Hn; lia |].
  assert (Hb : exists m, buildTimingMap sqrt waypoints cfg pathPoints = Ok m
                         /\ segments m = new).
  { unfold buildTimingMap. unfold majorCount in Hn.
    destruct (Z.of_nat (length (majorsFrom 0 waypoints)) <? 2)%Z eqn:E2;
      [apply Z.ltb_lt in E2; lia|].
    rewrite E. cbn [bind fst snd app]. eexists. split; reflexivity. }
  destruct Hb as [m [Hb Hsegs]]. exists m. split; [exact Hb|].
  destruct (buildTimingMap_spec sqrt _ _ _ _ Hb Hn) as [Hlen [Hch [_ Hp]]].
  split; [exact Hlen|]. split; [rewrite Hsegs; exact HF|].
  rewrite (chained_total _ _ _ Hch).
  rewrite (totalPause_constant cfg _ Hp).
  rewrite (totalMotion_constant 3 (segments m)) by (rewrite Hsegs; exact HF).
  rewrite Hlen. ring.
Qed.

End MoreTiming.

Lemma X5_single_major_witness :
  exists m,
    buildTimingMap sqrtQ [mkWaypoint "a" 0 0 true None] pauseConfig None = Ok m
    /\ segments m = []
    /\ totalDuration m = 0
    /\ getNormalizedProgressAtTime m 5 = Ok 0
    /\ getTimeAtNormalizedProgress m 5 = Ok 0
    /\ getCurrentSegment m 5 = None.
Proof.
  apply (X5_fewer_than_two_majors sqrtQ [mkWaypoint "a" 0 0 true None]
           pauseConfig None 5).
  reflexivity.
Defined.

Lemma X6_fourMajors_witness :
  exists m,
    buildTimingMap sqrtQ fourMajors pauseConfig None = Ok m
    /\ Z.of_nat (length (segments m)) = (majorCount fourMajors - 1)%Z
    /\ Forall (fun s => duration s = 3) (segments m)
    /\ totalDuration m
       == inject_Z (majorCount fourMajors - 1)
          * (3 + pausePerSegment pauseConfig).
Proof.
  apply (X6_constant_time_total sqrtQ fourMajors pauseConfig None).
  - reflexivity.
  - discriminate.
Defined.

(** ** The waypoints of a segment *)

(** An entry of the list of majors is a major waypoint at its position. *)
Lemma majorsFrom_nth (waypoints : list Waypoint) :
  forall (k : Z) (j : nat) (a : Z) (wa : Waypoint),
    nth_error (majorsFrom k waypoints) j = Some (a, wa) ->
    (k <= a)%Z
    /\ nth_error waypoints (Z.to_nat (a - k)) = Some wa
    /\ isMajor wa = true.
Proof.
  induction waypoints as [|w rest IH]; intros k j a wa H.
  - destruct j; discriminate.
  - cbn [majorsFrom] in H. destruct (isMajor w) eqn:Ew.
    + destruct j as [|j]; simpl in H.
      * injection H as <- <-. rewrite Z.sub_diag. repeat split; [lia|exact Ew].
      * destruct (IH _ _ _ _ H) as [H1 [H2 H3]].
        split; [lia|]. split; [|exact H3].
        replace (Z.to_nat (a - k)) with (S (Z.to_nat (a - (k + 1)))) by lia.
        exact H2.
    + destruct (IH _ _ _ _ H) as [H1 [H2 H3]].
      split; [lia|]. split; [|exact H3].
      replace (Z.to_nat (a - k)) with (S (Z.to_nat (a - (k + 1)))) by lia.
      exact H2.
Qed.

(** No waypoint before the first entry of the list of majors is major. *)
Lemma majorsFrom_head (waypoints : list Waypoint) :
  forall (k b : Z) (wb : Waypoint) (z : Z) (w : Waypoint),
    nth_error (majorsFrom k waypoints) 0 = Some (b, wb) ->
    (k <= z < b)%Z ->
    nth_error waypoints (Z.to_nat (z - k)) = Some w ->
    isMajor w = false.
Proof.
  induction waypoints as [|w0 rest IH]; intros k b wb z w H Hz Hw.
  - discriminate.
  - cbn [majorsFrom] in H. destruct (isMajor w0) eqn:E0.
    + simpl in H. injection H as <- <-. lia.
    + destruct (Z.eq_dec z k) as [-> | Hne].
      * rewrite Z.sub_diag in Hw. simpl in Hw. injection Hw as <-. exact E0.
      * replace (Z.to_nat (z - k)) with (S (Z.to_nat (z - (k + 1)))) in Hw
          by lia.
        simpl in Hw. apply (IH (k + 1)%Z b wb z w H); [lia | exact Hw].
Qed.

(** Two neighbours in the list of majors are in order and have no major
    between them. *)
Lemma majorsFrom_consecutive (waypoints : list Waypoint) :
  forall (k : Z) (j : nat) (a b : Z) (wa wb : Waypoint),
    nth_error (majorsFrom k waypoints) j = Some (a, wa) ->
    nth_error (majorsFrom k waypoints) (S j) = Some (b, wb) ->
    (a < b)%Z
    /\ (forall (z : Z) (w : Waypoint),
           (a < z < b)%Z ->
           nth_error waypoints (Z.to_nat (z - k)) = Some w ->
           isMajor w = false).
Proof.
  induction waypoints as [|w0 rest IH]; intros k j a b wa wb Ha Hb.
  - destruct j; discriminate.
  - cbn [majorsFrom] in Ha, Hb. destruct (isMajor w0) eqn:E0.
    + change (nth_error (majorsFrom (k + 1) rest) j = Some (b, wb)) in Hb.
      destruct j as [|j]; simpl in Ha.
      * injection Ha as <- <-.
        destruct (majorsFrom_nth _ _ _ _ _ Hb) as [H1 _].
        split; [lia|]. intros z w Hz Hw.
        replace (Z.to_nat (z - k)) with (S (Z.to_nat (z - (k + 1)))) in Hw
          by lia.
        simpl in Hw.
        apply (majorsFrom_head rest (k + 1)%Z b wb z w Hb); [lia | exact Hw].
      * destruct (IH _ _ _ _ _ _ Ha Hb) as [H1 H2].
        destruct (majorsFrom_nth _ _ _ _ _ Ha) as [H3 _].
        split; [exact H1|]. intros z w Hz Hw.
        replace (Z.to_nat (z - k)) with (S (Z.to_nat (z - (k + 1)))) in Hw
          by lia.
        simpl in Hw. apply (H2 z w Hz Hw).
    + destruct (IH _ _ _ _ _ _ Ha Hb) as [H1 H2].
      destruct (majorsFrom_nth _ _ _ _ _ Ha) as [H3 _].
      split; [exact H1|]. intros z w Hz Hw.
      replace (Z.to_nat (z - k)) with (S (Z.to_nat (z - (k + 1)))) in Hw
        by lia.
      simpl in Hw. apply (H2 z w Hz Hw).
Qed.

Section SegmentWaypoints.

Variable sqrt : Q -> Q.

(** Segment [k] of a run of the loop from [i] goes from major [i + k] to
    major [i + k + 1]. *)
Lemma segmentsLoop_indices (waypoints : list Waypoint) (cfg : TimingConfig)
  (pathPoints : option (list Point)) (majors : list (Z * Waypoint)) :
  forall (n : nat) (i : Z) (segs : list Segment) (total : Q)
         (segs' : list Segment) (total' : Q),
    (0 <= i)%Z ->
    segmentsLoop sqrt n i waypoints cfg pathPoints majors segs total
      = Ok (segs', total') ->
    exists new,
      segs' = segs ++ new
      /\ forall (k : nat) (s : Segment),
           nth_error new k = Some s ->
           exists ms me,
             nth_error majors (Z.to_nat i + k) = Some ms
             /\ nth_error majors (S (Z.to_nat i + k)) = Some me
             /\ startWaypointIndex s = fst ms
             /\ endWaypointIndex s = fst me.
Proof.
  induction n as [|n IH]; intros i segs total segs' total' Hi H; simpl in H.
  - injection H as <- <-. exists []. rewrite app_nil_r. split; [reflexivity|].
    intros k s Hk. destruct k; discriminate.
  - bind_inv H. bind_inv H. bind_inv H. bind_inv H. bind_inv H.
    rename v into startMajor, v0 into endMajor.
    apply IH in H; [|lia]. destruct H as [new [E Hnew]].
    apply deref_ok, at_index_some in Hv. destruct Hv as [_ Hstart].
    apply deref_ok, at_index_some in Hv0. destruct Hv0 as [_ Hend].
    replace (Z.to_nat (i + 1)) with (S (Z.to_nat i)) in Hend, Hnew by lia.
    eexists (_ :: new). split; [rewrite E, <- app_assoc; reflexivity|].
    intros k s Hk. destruct k as [|k]; simpl in Hk.
    + injection Hk as <-. exists startMajor, endMajor.
      rewrite Nat.add_0_r. repeat split; assumption.
    + destruct (Hnew _ _ Hk) as [ms [me [H1 [H2 [H3 H4]]]]].
      exists ms, me. rewrite Nat.add_succ_r. repeat split; assumption.
Qed.

(** X7.  In a built map every segment starts and ends at a major waypoint:
    its two waypoint indices are positions of majors in the waypoint list,
    the start lies before the end, no waypoint between them is major, and
    the next segment starts at the waypoint where this one ends. *)
Theorem X7_segments_join_neighbouring_majors (waypoints : list Waypoint)
  (cfg : TimingConfig) (pathPoints : option (list Point))
  (m : SegmentTimingMap) (i : nat) (s : Segment) :
  buildTimingMap sqrt waypoints cfg pathPoints = Ok m ->
  nth_error (segments m) i = Some s ->
  (exists ws we,
      at_index waypoints (startWaypointIndex s) = Some ws
      /\ isMajor ws = true
      /\ at_index waypoints (endWaypointIndex s) = Some we
      /\ isMajor we = true)
  /\ (startWaypointIndex s < endWaypointIndex s)%Z
  /\ (forall (z : Z) (w : Waypoint),
         (startWaypointIndex s < z < endWaypointIndex s)%Z ->
         at_index waypoints z = Some w ->
         isMajor w = false)
  /\ (forall next,
         nth_error (segments m) (S i) = Some next ->
         startWaypointIndex next = endWaypointIndex s).
Proof.
  intros Hb Hn. unfold buildTimingMap in Hb.
  destruct (Z.of_nat (length (majorsFrom 0 waypoints)) <? 2)%Z.
  { injection Hb as <-. destruct i; discriminate. }
  bind_inv Hb. destruct v as [segs total]. injection Hb as <-.
  cbn [segments fst] in Hn |- *.
  apply segmentsLoop_indices in Hv; [|lia].
  destruct Hv as [new [E Hnew]]. simpl in E. subst segs.
  destruct (Hnew _ _ Hn) as [[a wa] [[b wb] [Ha [Hb' [Es Ee]]]]].
  change (Z.to_nat 0 + i)%nat with i in Ha, Hb'. cbn [fst] in Es, Ee.
  destruct (majorsFrom_nth _ _ _ _ _ Ha) as [Ha0 [Hwa Hma]].
  destruct (majorsFrom_nth _ _ _ _ _ Hb') as [Hb0 [Hwb Hmb]].
  destruct (majorsFrom_consecutive _ _ _ _ _ _ _ Ha Hb') as [Hlt Hbetween].
  rewrite Z.sub_0_r in Hwa, Hwb. rewrite Es, Ee.
  assert (Hat : forall z, (0 <= z)%Z ->
                          at_index waypoints z
                          = nth_error waypoints (Z.to_nat z)).
  { intros z Hz. unfold at_index.
    destruct (z <? 0)%Z eqn:Ez; [apply Z.ltb_lt in Ez; lia | reflexivity]. }
  split; [|split; [exact Hlt|split]].
  - exists wa, wb. rewrite !Hat by lia. repeat split; assumption.
  - intros z w Hz Hw. rewrite Hat in Hw by lia.
    apply (Hbetween z w Hz). rewrite Z.sub_0_r. exact Hw.
  - intros next Hnext.
    destruct (Hnew _ _ Hnext) as [[c wc] [_ [Hc [_ [Hsn _]]]]].
    change (Z.to_nat 0 + S i)%nat with (S i) in Hc. cbn [fst] in Hsn.
    rewrite Hsn. rewrite Hb' in Hc. injection Hc as <- _. reflexivity.
Qed.

End SegmentWaypoints.

Lemma X7_fourMajors_witness :
  let s := mkSegment 5 8 3 (1 # 3) (2 # 3) 2 4 true 2 in
  (exists ws we,
      at_index fourMajors (startWaypointIndex s) = Some ws
      /\ isMajor ws = true
      /\ at_index fourMajors (endWaypointIndex s) = Some we
      /\ isMajor we = true)
  /\ (startWaypointIndex s < endWaypointIndex s)%Z
  /\ (forall (z : Z) (w : Waypoint),
         (startWaypointIndex s < z < endWaypointIndex s)%Z ->
         at_index fourMajors z = Some w ->
         isMajor w = false)
  /\ (forall next,
         nth_error (segments fourMajorMap) 2 = Some next ->
         startWaypointIndex next = endWaypointIndex s).
Proof.
  intro s.
  apply (X7_segments_join_neighbouring_majors sqrtQ fourMajors pauseConfig
           None fourMajorMap 1%nat s); reflexivity.
Defined.

(** ** Lookups in a well-formed map *)

(** No window of a chain holds a time before its start or from its end
    on. *)
Lemma findFirst_outside (t : Q) (segs : list Segment) :
  forall (t0 tEnd : Q) (k : Z),
    chained t0 segs tEnd ->
    Forall nonneg segs ->
    t < t0 \/ tEnd <= t ->
    findFirst (inTimeWindow t) k segs = None.
Proof.
  induction segs as [|h rest IH]; intros t0 tEnd k Hch HF Hout.
  - reflexivity.
  - pose proof (chained_bounds _ _ _ 0%nat h Hch HF eq_refl) as [Ha Hb].
    destruct Hch as [H1 [H2 H3]].
    inversion HF as [|? ? [Hd Hp] HF']; subst.
    cbn [findFirst]. unfold inTimeWindow at 1.
    assert (E : Qgeb t (startTime h)
                && Qltb t (endTime h + pauseDuration h) = false).
    { destruct Hout as [Hlo | Hhi].
      - rewrite (proj2 (Qgeb_false _ _)) by lra. reflexivity.
      - rewrite (proj2 (Qltb_false _ _)) by lra. apply andb_false_r. }
    rewrite E. apply (IH _ _ _ H3 HF'). destruct Hout; [left | right]; lra.
Qed.

Lemma clamp0_below (t hi : Q) : t < 0 -> clamp0 t hi = 0.
Proof.
  intro H. unfold clamp0, Math_min, Math_max.
  assert (E : Qle_bool 0 t = false) by (apply (Qgeb_false t 0); exact H).
  destruct (Qle_bool t hi) eqn:E1.
  - rewrite E. reflexivity.
  - destruct (Qle_bool 0 hi) eqn:E2; [|reflexivity].
    apply Qle_bool_iff in E2. apply (Qgeb_false hi t) in E1. lra.
Qed.

Lemma clamp0_above (t hi : Q) : 0 <= hi -> hi < t -> clamp0 t hi = hi.
Proof.
  intros H0 H. unfold clamp0, Math_min, Math_max.
  assert (E : Qle_bool t hi = false) by (apply (Qgeb_false hi t); exact H).
  rewrite E. rewrite (proj2 (Qle_bool_iff 0 hi)) by exact H0. reflexivity.
Qed.

(** X8.  [getCurrentSegment] has no segment only for a map without
    segments.  In a well-formed map it is the segment, with its position,
    whose window of motion and pause holds the time; for a time from the
    total duration on, and also for a time below 0 (the time is not
    clamped), it is the last segment. *)
Theorem X8_current_segment (m : SegmentTimingMap) (t : Q) :
  wellFormed m ->
  (getCurrentSegment m t = None <-> segments m = [])
  /\ (forall (i : nat) (s : Segment),
         nth_error (segments m) i = Some s ->
         startTime s <= t ->
         t < endTime s + pauseDuration s ->
         getCurrentSegment m t = Some (Z.of_nat i, s))
  /\ (forall s : Segment,
         nth_error (segments m) (length (segments m) - 1) = Some s ->
         t < 0 \/ totalDuration m <= t ->
         getCurrentSegment m t
         = Some ((Z.of_nat (length (segments m)) - 1)%Z, s)).
Proof.
  intros [Hch [HF _]]. unfold getCurrentSegment. split; [|split].
  - split.
    + destruct (segments m) as [|h rest] eqn:E; [reflexivity|].
      destruct (findFirst _ _ _); [discriminate|].
      destruct (at_index_in_range (h :: rest)
                  (Z.of_nat (length (h :: rest)) - 1)) as [v ->];
        [cbn [length]; lia | discriminate].
    + intros ->. reflexivity.
  - intros i s Hn Hlo Hhi.
    rewrite (findFirst_located t _ _ _ 0 i s Hch HF Hn Hlo Hhi).
    destruct (segments m); [destruct i; discriminate | reflexivity].
  - intros s Hn Hout.
    rewrite (findFirst_outside t _ _ _ 0 Hch HF Hout).
    destruct (segments m) as [|h rest] eqn:E; [discriminate|].
    unfold at_index.
    assert (E1 : (Z.of_nat (length (h :: rest)) - 1 <? 0)%Z = false)
      by (apply Z.ltb_ge; cbn [length]; lia).
    rewrite E1.
    replace (Z.to_nat (Z.of_nat (length (h :: rest)) - 1))
      with (length (h :: rest) - 1)%nat by lia.
    rewrite Hn. reflexivity.
Qed.

Lemma fourMajorMap_wellFormed : wellFormed fourMajorMap.
Proof.
  split; [|split].
  - vm_compute. repeat split; discriminate.
  - repeat constructor; discriminate.
  - repeat split.
Qed.

Lemma X8_fourMajorMap_witness :
  getCurrentSegment fourMajorMap 6
  = Some (1%Z, mkSegment 5 8 3 (1 # 3) (2 # 3) 2 4 true 2)
  /\ getCurrentSegment fourMajorMap (-1)
     = Some (2%Z, mkSegment 10 13 3 (2 # 3) (3 # 3) 4 6 true 2)
  /\ getCurrentSegment fourMajorMap 15
     = Some (2%Z, mkSegment 10 13 3 (2 # 3) (3 # 3) 4 6 true 2).
Proof.
  split; [|split].
  - apply (proj1 (proj2 (X8_current_segment fourMajorMap 6
                           fourMajorMap_wellFormed)) 1%nat);
      [reflexivity | discriminate | reflexivity].
  - apply (proj2 (proj2 (X8_current_segment fourMajorMap (-1)
                           fourMajorMap_wellFormed)));
      [reflexivity | left; reflexivity].
  - apply (proj2 (proj2 (X8_current_segment fourMajorMap 15
                           fourMajorMap_wellFormed)));
      [reflexivity | right; discriminate].
Defined.

(** X9.  In a well-formed map with a positive total duration the progress
    at every time before the total duration is defined and lies between 0
    and 1; a time below 0 gives the progress of time 0, and a time above the
    total duration gives the progress of the total duration. *)
Theorem X9_progress_range_and_clamping (m : SegmentTimingMap) (t : Q) :
  wellFormed m ->
  0 < totalDuration m ->
  (t < totalDuration m ->
   exists p, getNormalizedProgressAtTime m t = Ok p /\ 0 <= p <= 1)
  /\ (t < 0 ->
      getNormalizedProgressAtTime m t = getNormalizedProgressAtTime m 0)
  /\ (totalDuration m < t ->
      getNormalizedProgressAtTime m t
      = getNormalizedProgressAtTime m (totalDuration m)).
Proof.
  intros Hwf Hpos. pose proof Hwf as [Hch [HF Hev]].
  assert (Hlow : t < 0 ->
                 getNormalizedProgressAtTime m t
                 = getNormalizedProgressAtTime m 0).
  { intro Hneg. unfold getNormalizedProgressAtTime.
    destruct (segments m); [reflexivity|].
    rewrite (clamp0_below t _ Hneg), clamp0_zero. reflexivity. }
  split; [|split; [exact Hlow|]].
  - intro Hlt.
    assert (Hin : forall u, 0 <= u -> u < totalDuration m ->
                  exists p, getNormalizedProgressAtTime m u = Ok p
                            /\ 0 <= p <= 1).
    { intros u Hu0 Hu1.
      destruct (chained_covers u _ _ _ Hch Hu0 Hu1) as [i [s [Hi [Hlo Hhi]]]].
      destruct (progress_in_window m i s u Hwf Hi Hlo Hhi)
        as [p [E [[Hp1 Hp2] _]]].
      exists p. split; [exact E|].
      destruct (evenly_span m i s Hwf Hi) as [Hden [Es Ee]].
      assert (Hlen : (i < length (segments m))%nat)
        by (apply nth_error_Some; congruence).
      assert (Hi0 : 0 <= inject_Z (Z.of_nat i)).
      { change 0 with (inject_Z 0). rewrite <- Zle_Qle. lia. }
      assert (Hi1 : inject_Z (Z.of_nat i) + 1
                    <= inject_Z (Z.of_nat (length (segments m)))).
      { change 1 with (inject_Z 1). rewrite <- inject_Z_plus, <- Zle_Qle.
        lia. }
      set (den := inject_Z (Z.of_nat (length (segments m)))) in *.
      split; nra. }
    destruct (Qlt_le_dec t 0) as [Hneg | Hnn].
    + rewrite (Hlow Hneg). apply Hin; lra.
    + apply Hin; assumption.
  - intro Hgt. unfold getNormalizedProgressAtTime.
    destruct (segments m); [reflexivity|].
    rewrite (clamp0_above t (totalDuration m)) by lra.
    rewrite (clamp0_inside (totalDuration m) (totalDuration m)) by lra.
    reflexivity.
Qed.

Lemma X9_fourMajorMap_witness :
  (exists p, getNormalizedProgressAtTime fourMajorMap 6 = Ok p
             /\ 0 <= p <= 1)
  /\ getNormalizedProgressAtTime fourMajorMap (-3)
     = getNormalizedProgressAtTime fourMajorMap 0
  /\ getNormalizedProgressAtTime fourMajorMap 20
     = getNormalizedProgressAtTime fourMajorMap (totalDuration fourMajorMap).
Proof.
  split; [|split].
  - apply (proj1 (X9_progress_range_and_clamping fourMajorMap 6
                    fourMajorMap_wellFormed eq_refl)).
    reflexivity.
  - apply (proj1 (proj2 (X9_progress_range_and_clamping fourMajorMap (-3)
                           fourMajorMap_wellFormed eq_refl))).
    reflexivity.
  - apply (proj2 (proj2 (X9_progress_range_and_clamping fourMajorMap 20
                           fourMajorMap_wellFormed eq_refl))).
    reflexivity.
Defined.

(** The search by progress finds a segment for every progress between the
    start of the first span and the end of the last. *)
Lemma findFirst_progress_located (den : Z) (p : Q) (segs : list Segment) :
  (0 < den)%Z ->
  forall (k j : Z),
    evenly den k segs ->
    segs <> [] ->
    inject_Z k / inject_Z den <= p ->
    p <= inject_Z (k + Z.of_nat (length segs)) / inject_Z den ->
    exists (i : nat) (s : Segment),
      findFirst (inProgressWindow p) j segs = Some ((j + Z.of_nat i)%Z, s)
      /\ nth_error segs i = Some s
      /\ startProgress s <= p <= endProgress s.
Proof.
  intro Hden. induction segs as [|h rest IH]; intros k j Hev Hne Hlo Hhi.
  - congruence.
  - destruct Hev as [H1 [H2 H3]]. cbn [findFirst].
    unfold inProgressWindow at 1.
    rewrite (proj2 (Qgeb_true _ _)) by (rewrite H1; exact Hlo).
    cbn [andb]. destruct (Qle_bool p (endProgress h)) eqn:E.
    + exists 0%nat, h. rewrite Z.add_0_r. split; [reflexivity|].
      split; [reflexivity|]. apply Qle_bool_iff in E. rewrite H1 at 1.
      split; assumption.
    + apply (Qgeb_false (endProgress h) p) in E. rewrite H2 in E.
      destruct rest as [|r rest'].
      { exfalso. cbn [length] in Hhi.
        replace (k + Z.of_nat 1)%Z with (k + 1)%Z in Hhi by lia. lra. }
      destruct (IH (k + 1)%Z (j + 1)%Z H3) as [i [s [Hf [Hn Hw]]]].
      * discriminate.
      * apply Qlt_le_weak. exact E.
      * replace (k + 1 + Z.of_nat (length (r :: rest')))%Z
          with (k + Z.of_nat (length (h :: r :: rest')))%Z
          by (cbn [length]; lia).
        exact Hhi.
      * exists (S i), s. split; [|split; assumption].
        rewrite Hf. f_equal. f_equal. lia.
Qed.

(** In a well-formed map with at least one segment the time at every
    progress value is defined and lies between 0 and the total duration; it
    lies in the motion window of a segment whose progress span holds the
    progress clamped to [0, 1]. *)
Lemma time_at_progress_range (m : SegmentTimingMap) (progress : Q) :
  wellFormed m ->
  segments m <> [] ->
  exists (time : Q) (i : nat) (s : Segment),
    getTimeAtNormalizedProgress m progress = Ok time
    /\ 0 <= time <= totalDuration m
    /\ nth_error (segments m) i = Some s
    /\ startProgress s <= clamp0 progress 1 <= endProgress s
    /\ startTime s <= time <= endTime s.
Proof.
  intros Hwf Hne. pose proof Hwf as [Hch [HF Hev]].
  assert (Hc : 0 <= clamp0 progress 1 <= 1) by (apply clamp0_range; lra).
  set (c := clamp0 progress 1) in *.
  assert (Hlen : (0 < Z.of_nat (length (segments m)))%Z).
  { destruct (segments m); [congruence | cbn [length]; lia]. }
  destruct (findFirst_progress_located (Z.of_nat (length (segments m))) c
              (segments m) Hlen 0 0 Hev Hne) as [i [s [Hf [Hn [Hw1 Hw2]]]]].
  { change (inject_Z 0) with 0. unfold Qdiv. rewrite Qmult_0_l. apply Hc. }
  { rewrite Z.add_0_l.
    assert (E : inject_Z (Z.of_nat (length (segments m)))
                / inject_Z (Z.of_nat (length (segments m))) == 1).
    { field. apply inject_Z_nonzero. lia. }
    rewrite E. apply Hc. }
  destruct (evenly_span m i s Hwf Hn) as [Hden [Es Ee]].
  destruct (chained_nth _ _ _ _ _ Hch Hn) as [Hend _].
  destruct (chained_bounds _ _ _ _ _ Hch HF Hn) as [Ha Hb].
  pose proof (proj1 (Forall_forall _ _) HF s (nth_error_In _ _ Hn)) as [Hd Hp].
  set (den := inject_Z (Z.of_nat (length (segments m)))) in *.
  assert (Hspan : 0 < endProgress s - startProgress s) by nra.
  unfold getTimeAtNormalizedProgress. fold c.
  destruct (segments m) as [|s0 rest] eqn:Esegs; [congruence|].
  rewrite Hf. rewrite jsdiv_ok by lra. cbn [bind].
  set (r := (c - startProgress s) / (endProgress s - startProgress s)).
  assert (Hr : r * (endProgress s - startProgress s) == c - startProgress s)
    by (unfold r; field; lra).
  assert (Hr0 : 0 <= r) by nra.
  assert (Hr1 : r <= 1) by nra.
  exists (startTime s + r * duration s), i, s.
  split; [reflexivity|].
  assert (Hrd : 0 <= r * duration s <= duration s) by (split; nra).
  split; [split; lra|]. split; [exact Hn|].
  split; [split; assumption | split; lra].
Qed.

(** X10.  In a well-formed map with at least one segment the time at every
    progress value is defined and lies between 0 and the total duration; it
    lies in the motion window of a segment whose progress span holds the
    progress clamped to [0, 1]. *)
Theorem X10_time_at_progress_range (m : SegmentTimingMap) (progress : Q) :
  wellFormed m ->
  segments m <> [] ->
  exists (time : Q) (i : nat) (s : Segment),
    getTimeAtNormalizedProgress m progress = Ok time
    /\ 0 <= time <= totalDuration m
    /\ nth_error (segments m) i = Some s
    /\ startProgress s <= clamp0 progress 1 <= endProgress s
    /\ startTime s <= time <= endTime s.
Proof. exact (time_at_progress_range m progress). Qed.

Lemma X10_fourMajorMap_witness :
  exists (time : Q) (i : nat) (s : Segment),
    getTimeAtNormalizedProgress fourMajorMap (1 # 2) = Ok time
    /\ 0 <= time <= totalDuration fourMajorMap
    /\ nth_error (segments fourMajorMap) i = Some s
    /\ startProgress s <= clamp0 (1 # 2) 1 <= endProgress s
    /\ startTime s <= time <= endTime s.
Proof.
  apply (X10_time_at_progress_range fourMajorMap (1 # 2)
           fourMajorMap_wellFormed).
  discriminate.
Defined.

(** X11.  In a well-formed map the round trip from a time in the motion
    window of the first segment, through the progress and back, returns to
    that time: the first segment is not eased, and the inverse is linear. *)
Theorem X11_round_trip_in_first_segment (m : SegmentTimingMap)
  (s0 : Segment) (t : Q) :
  wellFormed m ->
  nth_error (segments m) 0 = Some s0 ->
  startTime s0 <= t ->
  t < endTime s0 ->
  exists p back,
    getNormalizedProgressAtTime m t = Ok p
    /\ getTimeAtNormalizedProgress m p = Ok back
    /\ back == t.
Proof.
  intros Hwf Hn Hlo Hhi. pose proof Hwf as [Hch [HF Hev]].
  destruct (chained_nth _ _ _ _ _ Hch Hn) as [Hend _].
  pose proof (proj1 (Forall_forall _ _) HF s0 (nth_error_In _ _ Hn)) as [Hd Hp].
  destruct (evenly_span m 0%nat s0 Hwf Hn) as [Hden [Es Ee]].
  change (inject_Z (Z.of_nat 0)) with 0 in Es, Ee.
  destruct (progress_in_window m 0%nat s0 t Hwf Hn Hlo)
    as [p [E [[Hp1 Hp2] Hc]]]; [lra|].
  destruct Hc as [[_ Hval] | [Hq _]]; [|lra].
  unfold applyEasing in Hval. cbn [negb Z.of_nat Z.eqb orb] in Hval.
  set (den := inject_Z (Z.of_nat (length (segments m)))) in *.
  assert (Hsp : startProgress s0 == 0) by nra.
  assert (Hep : 0 < endProgress s0) by nra.
  assert (Hep1 : endProgress s0 <= 1).
  { assert (Hlen : (0 < length (segments m))%nat)
      by (apply nth_error_Some; congruence).
    assert (H1 : 1 <= den).
    { unfold den. change 1 with (inject_Z 1). rewrite <- Zle_Qle. lia. }
    nra. }
  exists p. unfold getTimeAtNormalizedProgress.
  destruct (segments m) as [|h rest] eqn:Esegs; [discriminate|].
  injection Hn as ->.
  rewrite (clamp0_inside p 1) by lra.
  cbn [findFirst]. unfold inProgressWindow at 1.
  rewrite (proj2 (Qgeb_true _ _)) by lra.
  rewrite (proj2 (Qle_bool_iff _ _)) by lra.
  cbn [andb]. rewrite jsdiv_ok by lra. cbn [bind].
  eexists. split; [exact E|]. split; [reflexivity|].
  rewrite Hval. field. lra.
Qed.

Lemma X11_fourMajorMap_witness :
  exists p back,
    getNormalizedProgressAtTime fourMajorMap 2 = Ok p
    /\ getTimeAtNormalizedProgress fourMajorMap p = Ok back
    /\ back == 2.
Proof.
  apply (X11_round_trip_in_first_segment fourMajorMap
           (mkSegment 0 3 3 (0 # 3) (1 # 3) 0 2 true 2) 2
           fourMajorMap_wellFormed).
  - reflexivity.
  - discriminate.
  - reflexivity.
Defined.

(** X12.  In a well-formed map the progress never decreases between two
    times before the total duration, and it is 0 at time 0 when the first
    segment takes time. *)
Theorem X12_progress_monotone_before_end (m : SegmentTimingMap)
  (s0 : Segment) (t1 t2 : Q) :
  wellFormed m ->
  nth_error (segments m) 0 = Some s0 ->
  0 < duration s0 ->
  0 <= t1 -> t1 <= t2 -> t2 < totalDuration m ->
  exists p0 p1 p2,
    getNormalizedProgressAtTime m 0 = Ok p0
    /\ getNormalizedProgressAtTime m t1 = Ok p1
    /\ getNormalizedProgressAtTime m t2 = Ok p2
    /\ p0 == 0
    /\ p1 <= p2.
Proof.
  intros Hwf Hn Hd H0 H12 Hend.
  destruct (progress_at_zero m s0 Hwf Hn Hd) as [p0 [E0 Hp0]].
  destruct (progress_monotone_before_end m t1 t2 Hwf H0 H12 Hend)
    as [p1 [p2 [E1 [E2 Hle]]]].
  exists p0, p1, p2. repeat split; assumption.
Qed.

Lemma X12_fourMajorMap_witness :
  exists p0 p1 p2,
    getNormalizedProgressAtTime fourMajorMap 0 = Ok p0
    /\ getNormalizedProgressAtTime fourMajorMap 4 = Ok p1
    /\ getNormalizedProgressAtTime fourMajorMap 6 = Ok p2
    /\ p0 == 0
    /\ p1 <= p2.
Proof.
  apply (X12_progress_monotone_before_end fourMajorMap
           (mkSegment 0 3 3 (0 # 3) (1 # 3) 0 2 true 2) 4 6
           fourMajorMap_wellFormed);
    first [reflexivity | discriminate].
Defined.

(** ** More on the runtime *)

(** X13.  [setSpeed] stores the speed clamped to [0.25, 8]: the stored
    speed lies in that range for every argument, an argument in the range is
    stored as it is, and nothing else of the runtime changes. *)
Theorem X13_setSpeed_clamps (rt : DeterministicRuntime) (v : Q) :
  let rt' := setSpeed rt v in
  (1 # 4 <= speed (state rt') <= 8)
  /\ (1 # 4 <= v <= 8 -> speed (state rt') = v)
  /\ (v < 1 # 4 -> speed (state rt') = 1 # 4)
  /\ (8 < v -> speed (state rt') = 8)
  /\ time (state rt') = time (state rt)
  /\ frame (state rt') = frame (state rt)
  /\ normalizedProgress (state rt') = normalizedProgress (state rt)
  /\ currentSegmentIndex (state rt') = currentSegmentIndex (state rt)
  /\ isPlaying (state rt') = isPlaying (state rt)
  /\ fps (state rt') = fps (state rt)
  /\ timingMap rt' = timingMap rt
  /\ config rt' = config rt
  /\ accumulatedTime rt' = accumulatedTime rt
  /\ lastTimestamp rt' = lastTimestamp rt.
Proof.
  cbn [setSpeed with_state state speed time frame normalizedProgress
       currentSegmentIndex isPlaying fps timingMap config accumulatedTime
       lastTimestamp].
  split; [|split; [|split; [|split; [|repeat split]]]].
  - destruct (Math_min_spec v 8) as [[H1 ->] | [H1 ->]];
      [destruct (Math_max_spec (1 # 4) v) as [[H2 ->] | [H2 ->]]
      | destruct (Math_max_spec (1 # 4) 8) as [[H2 ->] | [H2 ->]]]; lra.
  - intros [Hlo Hhi].
    destruct (Math_min_spec v 8) as [[H1 ->] | [H1 _]]; [|lra].
    destruct (Math_max_spec (1 # 4) v) as [[H2 ->] | [H2 _]];
      [reflexivity | lra].
  - intro Hlo.
    destruct (Math_min_spec v 8) as [[H1 ->] | [H1 _]]; [|lra].
    destruct (Math_max_spec (1 # 4) v) as [[H2 _] | [H2 ->]];
      [lra | reflexivity].
  - intro Hhi.
    destruct (Math_min_spec v 8) as [[H1 _] | [H1 ->]]; [lra|].
    reflexivity.
Qed.

Lemma progress_defined (m : SegmentTimingMap) (u : Q) :
  wellFormed m -> 0 <= u -> u < totalDuration m ->
  exists p, getNormalizedProgressAtTime m u = Ok p.
Proof.
  intros Hwf H0 H1. pose proof Hwf as [Hch _].
  destruct (chained_covers u _ _ _ Hch H0 H1) as [i [s [Hi [Hlo Hhi]]]].
  destruct (progress_in_window m i s u Hwf Hi Hlo Hhi) as [p [E _]].
  exists p. exact E.
Qed.

(** At the total duration the lookup falls back to the first segment. *)
Lemma progress_defined_at_end (m : SegmentTimingMap) (s0 : Segment) :
  wellFormed m ->
  nth_error (segments m) 0 = Some s0 ->
  0 < duration s0 ->
  getNormalizedProgressAtTime m (totalDuration m)
  = Ok (startProgress s0
        + (endProgress s0 - startProgress s0)
          * ((totalDuration m - startTime s0) / duration s0)).
Proof.
  intros [Hch [HF _]] Hn Hd.
  destruct (chained_bounds _ _ _ _ _ Hch HF Hn) as [Ha Hb].
  destruct (chained_nth _ _ _ _ _ Hch Hn) as [He _].
  pose proof (proj1 (Forall_forall _ _) HF s0 (nth_error_In _ _ Hn)) as [_ Hp].
  unfold getNormalizedProgressAtTime.
  destruct (segments m) as [|h rest] eqn:Es; [discriminate|].
  injection Hn as ->.
  rewrite (clamp0_inside (totalDuration m) (totalDuration m))
    by (try apply Qle_refl; lra).
  rewrite (findFirst_outside (totalDuration m) _ _ _ 0 Hch HF)
    by (right; apply Qle_refl).
  assert (E : Qltb (totalDuration m) (endTime s0 + pauseDuration s0) = false)
    by (apply Qltb_false; exact Hb).
  rewrite E, andb_false_r.
  rewrite jsdiv_ok by lra. reflexivity.
Qed.

(** One step of a playing runtime that stays before the end. *)
Lemma step_before_end (rt : DeterministicRuntime) (m : SegmentTimingMap) :
  installed rt m ->
  wellFormed m ->
  isPlaying (state rt) = true ->
  0 < cfg_fps (config rt) ->
  0 <= time (state rt) + 1 / cfg_fps (config rt) * speed (state rt) ->
  time (state rt) + 1 / cfg_fps (config rt) * speed (state rt)
  < totalDuration m ->
  exists rt',
    step rt = Ok rt'
    /\ installed rt' m
    /\ config rt' = config rt
    /\ time (state rt')
       = time (state rt) + 1 / cfg_fps (config rt) * speed (state rt)
    /\ frame (state rt') = (frame (state rt) + 1)%Z
    /\ isPlaying (state rt') = true
    /\ speed (state rt') = speed (state rt).
Proof.
  intros [Hm Hc] Hwf Hplay Hfps H0 H1.
  destruct (progress_defined m _ Hwf H0 H1) as [p Ep].
  unfold step. rewrite Hm, Hplay. unfold getFixedTimeStep.
  rewrite jsdiv_ok by lra. cbn [bind]. rewrite Hc.
  assert (E : Qgeb (time (state rt)
                    + 1 / cfg_fps (config rt) * speed (state rt))
                   (totalDuration m) = false)
    by (apply Qgeb_false; exact H1).
  rewrite E, Ep. cbn [bind].
  eexists. split; [reflexivity|].
  cbn [with_state state time frame isPlaying speed config timingMap].
  repeat split; assumption.
Qed.

(** A playing runtime with a well-formed map installed that stays
    before the end for [n] steps is, after these steps, at its time plus [n]
    times [speed / fps] and at its frame plus [n], and still playing. *)
Lemma steps_before_end (n : nat) :
  forall (rt : DeterministicRuntime) (m : SegmentTimingMap),
    installed rt m ->
    wellFormed m ->
    isPlaying (state rt) = true ->
    0 < cfg_fps (config rt) ->
    0 <= speed (state rt) ->
    0 <= time (state rt) ->
    time (state rt)
    + inject_Z (Z.of_nat n) * (1 / cfg_fps (config rt) * speed (state rt))
    < totalDuration m ->
    exists r,
      steps n rt = Ok r
      /\ length (snd r) = n
      /\ time (state (fst r))
         == time (state rt)
            + inject_Z (Z.of_nat n)
              * (1 / cfg_fps (config rt) * speed (state rt))
      /\ frame (state (fst r)) = (frame (state rt) + Z.of_nat n)%Z
      /\ isPlaying (state (fst r)) = true.
Proof.
  induction n as [|n IH]; intros rt m Hin Hwf Hplay Hfps Hsp Ht0 Hend.
  - exists (rt, []). cbn [steps fst snd length].
    split; [reflexivity|]. split; [reflexivity|].
    split; [change (inject_Z (Z.of_nat 0)) with 0; ring|].
    split; [lia | exact Hplay].
  - set (dt := 1 / cfg_fps (config rt) * speed (state rt)) in *.
    assert (Hdt : 0 <= dt).
    { unfold dt. apply Qmult_le_0_compat; [|exact Hsp].
      apply Qle_shift_div_l; lra. }
    rewrite Nat2Z.inj_succ in Hend. unfold Z.succ in Hend.
    rewrite inject_Z_plus in Hend. change (inject_Z 1) with 1 in Hend.
    assert (Hn0 : 0 <= inject_Z (Z.of_nat n)).
    { change 0 with (inject_Z 0). rewrite <- Zle_Qle. lia. }
    assert (Hnd : 0 <= inject_Z (Z.of_nat n) * dt)
      by (apply Qmult_le_0_compat; assumption).
    destruct (step_before_end rt m Hin Hwf Hplay Hfps)
      as [rt1 [Es [Hin1 [Hc1 [Ht1 [Hf1 [Hp1 Hs1]]]]]]];
      [fold dt; lra | fold dt; lra |].
    fold dt in Ht1.
    destruct (IH rt1 m Hin1 Hwf Hp1) as [r [Er [Hl [Ht [Hf Hp]]]]].
    + rewrite Hc1. exact Hfps.
    + rewrite Hs1. exact Hsp.
    + rewrite Ht1. lra.
    + rewrite Hc1, Hs1, Ht1. fold dt. lra.
    + exists (fst r, state rt1 :: snd r). cbn [steps].
      rewrite Es. cbn [bind]. rewrite Er. cbn [bind fst snd length].
      split; [reflexivity|]. split; [congruence|].
      split; [|split; [lia | exact Hp]].
      rewrite Ht, Hc1, Hs1, Ht1. fold dt.
      rewrite Nat2Z.inj_succ. unfold Z.succ. rewrite inject_Z_plus.
      change (inject_Z 1) with 1. ring.
Qed.

(** X14.  A playing runtime with a well-formed map installed that stays
    before the end for [n] steps is, after these steps, at its time plus [n]
    times [speed / fps] and at its frame plus [n], and still playing. *)
Theorem X14_steps_before_end (n : nat) :
  forall (rt : DeterministicRuntime) (m : SegmentTimingMap),
    installed rt m ->
    wellFormed m ->
    isPlaying (state rt) = true ->
    0 < cfg_fps (config rt) ->
    0 <= speed (state rt) ->
    0 <= time (state rt) ->
    time (state rt)
    + inject_Z (Z.of_nat n) * (1 / cfg_fps (config rt) * speed (state rt))
    < totalDuration m ->
    exists r,
      steps n rt = Ok r
      /\ length (snd r) = n
      /\ time (state (fst r))
         == time (state rt)
            + inject_Z (Z.of_nat n)
              * (1 / cfg_fps (config rt) * speed (state rt))
      /\ frame (state (fst r)) = (frame (state rt) + Z.of_nat n)%Z
      /\ isPlaying (state (fst r)) = true.
Proof. exact (steps_before_end n). Qed.

Lemma playingRuntime_installed : installed playingRuntime pausedMap.
Proof. split; reflexivity. Qed.

Lemma pausedMap_wellFormed : wellFormed pausedMap.
Proof.
  split; [|split].
  - vm_compute. repeat split; discriminate.
  - repeat constructor; discriminate.
  - repeat split.
Qed.

Lemma X14_playingRuntime_witness :
  exists r,
    steps 50 playingRuntime = Ok r
    /\ length (snd r) = 50%nat
    /\ time (state (fst r))
       == time (state playingRuntime)
          + inject_Z (Z.of_nat 50)
            * (1 / cfg_fps (config playingRuntime)
               * speed (state playingRuntime))
    /\ frame (state (fst r)) = (frame (state playingRuntime) + Z.of_nat 50)%Z
    /\ isPlaying (state (fst r)) = true.
Proof.
  apply (X14_steps_before_end 50 playingRuntime pausedMap
           playingRuntime_installed pausedMap_wellFormed);
    first [reflexivity | discriminate].
Defined.

(** A runtime that is not playing does not move under [step]. *)
Lemma steps_not_playing (n : nat) (rt : DeterministicRuntime) :
  isPlaying (state rt) = false ->
  steps n rt = Ok (rt, repeat (state rt) n).
Proof.
  intro Hp.
  assert (Es : step rt = Ok rt).
  { unfold step. destruct (timingMap rt); [rewrite Hp|]; reflexivity. }
  induction n as [|n IH]; [reflexivity|].
  cbn [steps]. rewrite Es. cbn [bind]. rewrite IH. reflexivity.
Qed.

(** A step of a playing runtime that reaches or passes the total
    duration of its well-formed map (whose first segment takes time) puts
    the time at the total duration, counts one frame and stops playing;
    every further step leaves the runtime as it is. *)
Lemma step_at_the_end (rt : DeterministicRuntime)
  (m : SegmentTimingMap) (s0 : Segment) (n : nat) :
  installed rt m ->
  wellFormed m ->
  nth_error (segments m) 0 = Some s0 ->
  0 < duration s0 ->
  isPlaying (state rt) = true ->
  0 < cfg_fps (config rt) ->
  totalDuration m
  <= time (state rt) + 1 / cfg_fps (config rt) * speed (state rt) ->
  exists rt',
    step rt = Ok rt'
    /\ time (state rt') = totalDuration m
    /\ frame (state rt') = (frame (state rt) + 1)%Z
    /\ isPlaying (state rt') = false
    /\ steps n rt' = Ok (rt', repeat (state rt') n).
Proof.
  intros [Hm Hc] Hwf Hn Hd Hplay Hfps Hend.
  unfold step. rewrite Hm, Hplay. unfold getFixedTimeStep.
  rewrite jsdiv_ok by lra. cbn [bind]. rewrite Hc.
  assert (E : Qgeb (time (state rt)
                    + 1 / cfg_fps (config rt) * speed (state rt))
                   (totalDuration m) = true)
    by (apply Qgeb_true; exact Hend).
  rewrite E, (progress_defined_at_end m s0 Hwf Hn Hd). cbn [bind].
  eexists. split; [reflexivity|].
  cbn [with_state state time frame isPlaying].
  split; [reflexivity|]. split; [reflexivity|]. split; [reflexivity|].
  apply steps_not_playing. reflexivity.
Qed.

(** X15.  A step of a playing runtime that reaches or passes the total
    duration of its well-formed map (whose first segment takes time) puts
    the time at the total duration, counts one frame and stops playing;
    every further step leaves the runtime as it is. *)
Theorem X15_step_at_the_end (rt : DeterministicRuntime)
  (m : SegmentTimingMap) (s0 : Segment) (n : nat) :
  installed rt m ->
  wellFormed m ->
  nth_error (segments m) 0 = Some s0 ->
  0 < duration s0 ->
  isPlaying (state rt) = true ->
  0 < cfg_fps (config rt) ->
  totalDuration m
  <= time (state rt) + 1 / cfg_fps (config rt) * speed (state rt) ->
  exists rt',
    step rt = Ok rt'
    /\ time (state rt') = totalDuration m
    /\ frame (state rt') = (frame (state rt) + 1)%Z
    /\ isPlaying (state rt') = false
    /\ steps n rt' = Ok (rt', repeat (state rt') n).
Proof. exact (step_at_the_end rt m s0 n). Qed.

(** [playingRuntime] half a frame before the end of [pausedMap]. *)
Lemma X15_playingRuntime_witness :
  let rt := with_state playingRuntime
              (mkRuntimeState (999 # 100) 0 0 true 1 0 25) in
  exists rt',
    step rt = Ok rt'
    /\ time (state rt') = totalDuration pausedMap
    /\ frame (state rt') = (frame (state rt) + 1)%Z
    /\ isPlaying (state rt') = false
    /\ steps 3 rt' = Ok (rt', repeat (state rt') 3).
Proof.
  intro rt.
  apply (X15_step_at_the_end rt pausedMap
           (mkSegment 0 3 3 (0 # 2) (1 # 2) 0 2 true 2) 3).
  - split; reflexivity.
  - exact pausedMap_wellFormed.
  - reflexivity.
  - reflexivity.
  - reflexivity.
  - reflexivity.
  - discriminate.
Defined.

(** One step never moves the time backwards or beyond the total duration
    of the configuration. *)
Lemma step_time_bounds (rt rt' : DeterministicRuntime) :
  step rt = Ok rt' ->
  0 < cfg_fps (config rt) ->
  0 <= speed (state rt) ->
  time (state rt) <= cfg_totalDuration (config rt) ->
  time (state rt) <= time (state rt')
  /\ time (state rt') <= cfg_totalDuration (config rt)
  /\ speed (state rt') = speed (state rt)
  /\ (frame (state rt) <= frame (state rt') <= frame (state rt) + 1)%Z.
Proof.
  unfold step. intros H Hfps Hsp Hle.
  destruct (timingMap rt) as [m|];
    [|injection H as <-; repeat split; try apply Qle_refl; try lia;
      assumption].
  destruct (isPlaying (state rt));
    [|injection H as <-; repeat split; try apply Qle_refl; try lia;
      assumption].
  unfold getFixedTimeStep in H. rewrite jsdiv_ok in H by lra.
  cbn [bind] in H. bind_inv H. injection H as <-.
  cbn [with_state state time speed frame].
  assert (Hdt : 0 <= 1 / cfg_fps (config rt) * speed (state rt)).
  { apply Qmult_le_0_compat; [|exact Hsp]. apply Qle_shift_div_l; lra. }
  destruct (Qgeb _ _) eqn:E.
  - repeat split; try apply Qle_refl; try lia; assumption.
  - apply Qgeb_false in E. repeat split; try lia; lra.
Qed.

(** X16.  Along a run of steps the time never goes backwards and never
    exceeds the total duration: every state visited lies between the
    starting time and the total duration, and each is not earlier than the
    one visited before and is at most one frame further. *)
Theorem X16_steps_keep_time_in_range (n : nat) :
  forall (rt : DeterministicRuntime) r,
    steps n rt = Ok r ->
    0 < cfg_fps (config rt) ->
    0 <= speed (state rt) ->
    time (state rt) <= cfg_totalDuration (config rt) ->
    Forall (fun s => time (state rt) <= time s
                     /\ time s <= cfg_totalDuration (config rt))
           (snd r)
    /\ (forall (i : nat) (a b : RuntimeState),
           nth_error (snd r) i = Some a ->
           nth_error (snd r) (S i) = Some b ->
           time a <= time b
           /\ (frame a <= frame b <= frame a + 1)%Z).
Proof.
  induction n as [|n IH]; intros rt r H Hfps Hsp Hle; simpl in H.
  - injection H as <-. split; [constructor|].
    intros i a b Ha. destruct i; discriminate.
  - bind_inv H. bind_inv H. rename v into rt1, v0 into r1.
    injection H as <-. cbn [snd].
    destruct (step_time_bounds rt rt1 Hv Hfps Hsp Hle) as [H1 [H2 [H3 H4]]].
    destruct (step_fields _ _ Hv) as [Hc _].
    destruct (IH rt1 r1 Hv0) as [HF Hnb].
    + rewrite Hc. exact Hfps.
    + rewrite H3. exact Hsp.
    + rewrite Hc. exact H2.
    + split.
      * constructor; [split; assumption|].
        apply Forall_forall. intros s Hin.
        destruct (proj1 (Forall_forall _ _) HF s Hin) as [Ha Hb].
        rewrite Hc in Hb. split; [lra | exact Hb].
      * intros i a b Ha Hb. destruct i as [|i].
        -- simpl in Ha. injection Ha as <-.
           change (nth_error (snd r1) 0 = Some b) in Hb.
           destruct n as [|n]; simpl in Hv0.
           ++ injection Hv0 as <-. discriminate.
           ++ bind_inv Hv0. bind_inv Hv0. injection Hv0 as <-.
              simpl in Hb. injection Hb as <-.
              assert (Hfps1 : 0 < cfg_fps (config rt1))
                by (rewrite Hc; exact Hfps).
              assert (Hsp1 : 0 <= speed (state rt1))
                by (rewrite H3; exact Hsp).
              assert (Hle1 : time (state rt1)
                             <= cfg_totalDuration (config rt1))
                by (rewrite Hc; exact H2).
              destruct (step_time_bounds rt1 v Hv1 Hfps1 Hsp1 Hle1)
                as [G1 [_ [_ G4]]].
              split; assumption.
        -- apply (Hnb i a b); assumption.
Qed.

Lemma X16_fiveSteps_witness :
  Forall (fun s => time (state playingRuntime) <= time s
                   /\ time s <= cfg_totalDuration (config playingRuntime))
         (snd fiveSteps)
  /\ (forall (i : nat) (a b : RuntimeState),
         nth_error (snd fiveSteps) i = Some a ->
         nth_error (snd fiveSteps) (S i) = Some b ->
         time a <= time b
         /\ (frame a <= frame b <= frame a + 1)%Z).
Proof.
  apply (X16_steps_keep_time_in_range 5 playingRuntime fiveSteps).
  - vm_compute. reflexivity.
  - reflexivity.
  - discriminate.
  - discriminate.
Defined.

(** From the total duration on the lookup falls back to the first segment
    and divides by its duration. *)
Lemma progress_defined_from_end (m : SegmentTimingMap) (s0 : Segment)
  (u : Q) :
  wellFormed m ->
  nth_error (segments m) 0 = Some s0 ->
  0 < duration s0 ->
  totalDuration m <= u ->
  exists p, getNormalizedProgressAtTime m u = Ok p.
Proof.
  intros [Hch [HF _]] Hn Hd Hu.
  destruct (chained_bounds _ _ _ _ _ Hch HF Hn) as [Ha Hb].
  destruct (chained_nth _ _ _ _ _ Hch Hn) as [He _].
  pose proof (proj1 (Forall_forall _ _) HF s0 (nth_error_In _ _ Hn)) as [_ Hp].
  assert (Hpos : 0 <= totalDuration m) by lra.
  pose proof (clamp0_range u (totalDuration m) Hpos) as [Hc0 Hc1].
  assert (Hc2 : totalDuration m <= clamp0 u (totalDuration m)).
  { unfold clamp0.
    destruct (Math_min_spec u (totalDuration m)) as [[H1 ->] | [H1 ->]];
      destruct (Math_max_spec 0 u) as [[H2 E2] | [H2 E2]];
      try (destruct (Math_max_spec 0 (totalDuration m)) as [[H3 ->] | [H3 ->]]);
      try rewrite E2; lra. }
  unfold getNormalizedProgressAtTime.
  destruct (segments m) as [|h rest] eqn:Es; [discriminate|].
  injection Hn as ->.
  set (v := clamp0 u (totalDuration m)) in *.
  rewrite (findFirst_outside v _ _ _ 0 Hch HF) by (right; exact Hc2).
  assert (E : Qltb v (endTime s0 + pauseDuration s0) = false)
    by (apply Qltb_false; lra).
  rewrite E, andb_false_r.
  rewrite jsdiv_ok by lra. eexists. reflexivity.
Qed.

(** In a well-formed map whose first segment takes time the progress is
    defined at every time. *)
Lemma progress_always_defined (m : SegmentTimingMap) (s0 : Segment) (u : Q) :
  wellFormed m ->
  nth_error (segments m) 0 = Some s0 ->
  0 < duration s0 ->
  exists p, getNormalizedProgressAtTime m u = Ok p.
Proof.
  intros Hwf Hn Hd. pose proof Hwf as [Hch [HF _]].
  destruct (chained_bounds _ _ _ _ _ Hch HF Hn) as [Ha Hb].
  destruct (chained_nth _ _ _ _ _ Hch Hn) as [He _].
  pose proof (proj1 (Forall_forall _ _) HF s0 (nth_error_In _ _ Hn)) as [_ Hp].
  destruct (Qlt_le_dec u (totalDuration m)) as [Hlt | Hge].
  - destruct (Qlt_le_dec u 0) as [Hneg | Hnn].
    + destruct (progress_defined m 0 Hwf) as [p E];
        [apply Qle_refl | lra |].
      exists p. rewrite <- E. unfold getNormalizedProgressAtTime.
      destruct (segments m); [reflexivity|].
      rewrite (clamp0_below u _ Hneg), clamp0_zero. reflexivity.
    + exact (progress_defined m u Hwf Hnn Hlt).
  - exact (progress_defined_from_end m s0 u Hwf Hn Hd Hge).
Qed.



(** X18.  On a runtime with a well-formed map installed whose first
    segment takes time, [seekToTime] always succeeds: it puts the time at
    the argument clamped to the range from 0 to the total duration and the
    frame at the whole part of that time multiplied by the frame rate, and
    it keeps the play state and the speed.  A time below 0 is a seek to the
    start and a time above the total duration is a seek to the end. *)
Theorem X18_seekToTime_clamps (rt : DeterministicRuntime)
  (m : SegmentTimingMap) (s0 : Segment) (t : Q) :
  installed rt m ->
  wellFormed m ->
  nth_error (segments m) 0 = Some s0 ->
  0 < duration s0 ->
  exists rt',
    seekToTime rt (Ok t) = Ok rt'
    /\ time (state rt') = clamp0 t (totalDuration m)
    /\ 0 <= time (state rt') <= totalDuration m
    /\ frame (state rt')
       = Qfloor (time (state rt') * cfg_fps (config rt))
    /\ isPlaying (state rt') = isPlaying (state rt)
    /\ speed (state rt') = speed (state rt)
    /\ (t < 0 -> seekToTime rt (Ok t) = seekToStart rt)
    /\ (totalDuration m < t -> seekToTime rt (Ok t) = seekToEnd rt).
Proof.
  intros [Hm Hc] Hwf Hn Hd. pose proof Hwf as [Hch [HF _]].
  destruct (chained_bounds _ _ _ _ _ Hch HF Hn) as [Ha Hb].
  destruct (chained_nth _ _ _ _ _ Hch Hn) as [He _].
  pose proof (proj1 (Forall_forall _ _) HF s0 (nth_error_In _ _ Hn)) as [_ Hp].
  assert (Hpos : 0 <= totalDuration m) by lra.
  destruct (progress_always_defined m s0 (clamp0 t (totalDuration m))
              Hwf Hn Hd) as [p Ep].
  unfold seekToStart, seekToEnd, seekToTime. rewrite Hm. cbn [bind].
  rewrite Hc, Ep. cbn [bind].
  eexists. split; [reflexivity|].
  cbn [with_state state frame time isPlaying speed].
  split; [reflexivity|]. split; [apply clamp0_range; exact Hpos|].
  split; [reflexivity|]. split; [reflexivity|]. split; [reflexivity|].
  split.
  - intro Hneg. rewrite (clamp0_below t _ Hneg), clamp0_zero in *.
    rewrite Ep. reflexivity.
  - intro Hgt. rewrite (clamp0_above t _ Hpos Hgt) in *.
    rewrite (clamp0_inside (totalDuration m) (totalDuration m))
      by (try apply Qle_refl; exact Hpos).
    rewrite Ep. reflexivity.
Qed.

Lemma X18_playingRuntime_witness :
  exists rt',
    seekToTime playingRuntime (Ok 12) = Ok rt'
    /\ time (state rt') = clamp0 12 (totalDuration pausedMap)
    /\ 0 <= time (state rt') <= totalDuration pausedMap
    /\ frame (state rt')
       = Qfloor (time (state rt') * cfg_fps (config playingRuntime))
    /\ isPlaying (state rt') = isPlaying (state playingRuntime)
    /\ speed (state rt') = speed (state playingRuntime)
    /\ (12 < 0 -> seekToTime playingRuntime (Ok 12) = seekToStart playingRuntime)
    /\ (totalDuration pausedMap < 12 ->
        seekToTime playingRuntime (Ok 12) = seekToEnd playingRuntime).
Proof.
  apply (X18_seekToTime_clamps playingRuntime pausedMap
           (mkSegment 0 3 3 (0 # 2) (1 # 2) 0 2 true 2) 12
           playingRuntime_installed pausedMap_wellFormed);
    reflexivity.
Defined.

(** ** The accounting of [update] *)






(** In that second the runtime makes 25 steps. *)
Example secondLater_steps : length (snd secondLater) = 25%nat.
Proof. reflexivity. Qed.

(** ** The pacing of [update] calls *)








(** ** A run to the end *)




(** For [pausedMap] at 25 frames per second these are 250 steps. *)
Example playingRuntime_total_frames : getTotalFrames playingRuntime = 250%Z.
Proof. reflexivity. Qed.

(** The time at a progress is the time at the clamped progress. *)
Lemma getTimeAtNormalizedProgress_clamped (m : SegmentTimingMap)
  (progress : Q) :
  getTimeAtNormalizedProgress m (clamp0 progress 1)
  = getTimeAtNormalizedProgress m progress.
Proof.
  unfold getTimeAtNormalizedProgress.
  destruct (segments m); [reflexivity|].
  rewrite clamp0_idempotent by lra. reflexivity.
Qed.

(** X22.  On a runtime with a well-formed map of at least one segment
    installed, [seekToNormalizedProgress] always succeeds: it stores the
    progress clamped to [0, 1], puts the time at the time that the map gives
    for the progress, which lies between 0 and the total duration, and the
    frame at the whole part of that time multiplied by the frame rate, and it
    keeps the play state and the speed. *)
Theorem X22_seekToNormalizedProgress (rt : DeterministicRuntime)
  (m : SegmentTimingMap) (progress : Q) :
  installed rt m ->
  wellFormed m ->
  segments m <> [] ->
  exists rt',
    seekToNormalizedProgress rt progress = Ok rt'
    /\ normalizedProgress (state rt') = clamp0 progress 1
    /\ 0 <= normalizedProgress (state rt') <= 1
    /\ getTimeAtNormalizedProgress m progress = Ok (time (state rt'))
    /\ 0 <= time (state rt') <= totalDuration m
    /\ frame (state rt')
       = Qfloor (time (state rt') * cfg_fps (config rt))
    /\ isPlaying (state rt') = isPlaying (state rt)
    /\ speed (state rt') = speed (state rt).
Proof.
  intros [Hm Hc] Hwf Hne.
  destruct (time_at_progress_range m (clamp0 progress 1) Hwf Hne)
    as [time1 [i [s [Et [Hr _]]]]].
  unfold seekToNormalizedProgress. rewrite Hm, Et. cbn [bind].
  eexists. split; [reflexivity|].
  cbn [with_state state normalizedProgress time frame isPlaying speed].
  split; [reflexivity|]. split; [apply clamp0_range; lra|].
  split; [rewrite <- getTimeAtNormalizedProgress_clamped; exact Et|].
  split; [exact Hr|]. repeat split.
Qed.

Lemma X22_playingRuntime_witness :
  exists rt',
    seekToNormalizedProgress playingRuntime (3 # 2) = Ok rt'
    /\ normalizedProgress (state rt') = clamp0 (3 # 2) 1
    /\ 0 <= normalizedProgress (state rt') <= 1
    /\ getTimeAtNormalizedProgress pausedMap (3 # 2) = Ok (time (state rt'))
    /\ 0 <= time (state rt') <= totalDuration pausedMap
    /\ frame (state rt')
       = Qfloor (time (state rt') * cfg_fps (config playingRuntime))
    /\ isPlaying (state rt') = isPlaying (state playingRuntime)
    /\ speed (state rt') = speed (state playingRuntime).
Proof.
  apply (X22_seekToNormalizedProgress playingRuntime pausedMap (3 # 2)
           playingRuntime_installed pausedMap_wellFormed).
  discriminate.
Defined.

(** ** The path helpers of the first version *)

Lemma sampleSegment_app (n : nat) (sample : Q -> Point) :
  forall (t : Z) (smoothPath : list Point),
    sampleSegment n t sample smoothPath
    = smoothPath ++ sampleSegment n t sample [].
Proof.
  induction n as [|n IH]; intros t acc; cbn [sampleSegment].
  - now rewrite app_nil_r.
  - rewrite IH. rewrite (IH (t + 1)%Z ([] ++ _)).
    cbn [app]. now rewrite <- app_assoc.
Qed.

Lemma sampleSegment_length (n : nat) (sample : Q -> Point) :
  forall t : Z, length (sampleSegment n t sample []) = n.
Proof.
  induction n as [|n IH]; intro t; cbn [sampleSegment]; [reflexivity|].
  rewrite sampleSegment_app, length_app, IH. cbn [app length]. lia.
Qed.

Lemma sampleSegment_head (n : nat) (sample : Q -> Point) (t : Z) :
  nth_error (sampleSegment (S n) t sample []) 0
  = Some (sample (inject_Z t / inject_Z pointsPerSegment)).
Proof.
  cbn [sampleSegment]. rewrite sampleSegment_app. reflexivity.
Qed.

Lemma throughPoints_step (pathPoints : list Point) (i n : nat)
  (chunk added : list Point) (p q : Point) :
  length chunk = 20%nat ->
  nth_error pathPoints i = Some p ->
  nth_error chunk 0 = Some q ->
  x q == x p -> y q == y p ->
  throughPoints pathPoints (S i) n added ->
  throughPoints pathPoints i (S n) (chunk ++ added).
Proof.
  intros Hl Hp Hq Hx Hy [Ha Hk]. split.
  - rewrite length_app, Hl, Ha. lia.
  - intros [|k] Hlt.
    + exists p, q. rewrite Nat.add_0_r. split; [exact Hp|].
      split; [|split; assumption].
      change (20 * 0)%nat with 0%nat.
      rewrite nth_error_app1 by lia. exact Hq.
    + destruct (Hk k) as [p' [q' [Hp' [Hq' Hxy]]]]; [lia|].
      exists p', q'. split.
      * replace (i + S k)%nat with (S i + k)%nat by lia. exact Hp'.
      * split; [|exact Hxy].
        rewrite nth_error_app2 by lia.
        replace (20 * S k - length chunk)%nat with (20 * k)%nat by lia.
        exact Hq'.
Qed.

Lemma smoothedLoop_spec (pathPoints : list Point) (n : nat) :
  forall (i : nat) (smoothPath : list Point),
    (i + n < length pathPoints)%nat ->
    exists added,
      smoothedLoop n (Z.of_nat i) pathPoints smoothPath
      = Ok (smoothPath ++ added)
      /\ throughPoints pathPoints i n added.
Proof.
  induction n as [|n IH]; intros i acc Hlen.
  - exists []. cbn [smoothedLoop]. rewrite app_nil_r.
    split; [reflexivity|]. split; [reflexivity|]. intros k Hk. lia.
  - cbn [smoothedLoop].
    destruct (at_index_in_range pathPoints (Z.max (Z.of_nat i - 1) 0))
      as [p0 E0]; [lia|].
    destruct (at_index_in_range pathPoints (Z.of_nat i)) as [p1 E1]; [lia|].
    destruct (at_index_in_range pathPoints (Z.of_nat i + 1)) as [p2 E2];
      [lia|].
    destruct (at_index_in_range pathPoints
                (Z.min (Z.of_nat i + 2) (Z.of_nat (length pathPoints) - 1)))
      as [p3 E3]; [lia|].
    rewrite E0, E1, E2, E3. cbn [deref bind].
    replace (Z.of_nat i + 1)%Z with (Z.of_nat (S i)) by lia.
    rewrite sampleSegment_app.
    destruct (IH (S i)
                (acc ++ sampleSegment (Z.to_nat pointsPerSegment) 0
                          (fun segment =>
                             catmullRom p0 p1 p2 p3 segment (1 # 2)) []))
      as [added [Eq Ht]]; [lia|].
    eexists. split; [rewrite Eq, <- app_assoc; reflexivity|].
    apply at_index_some in E1. destruct E1 as [_ E1].
    rewrite Nat2Z.id in E1.
    eapply throughPoints_step; [apply sampleSegment_length | exact E1
                               | apply sampleSegment_head | | | exact Ht].
    + unfold catmullRom. cbn [x].
      change (inject_Z 0 / inject_Z pointsPerSegment) with (0 / 20). field.
    + unfold catmullRom. cbn [y].
      change (inject_Z 0 / inject_Z pointsPerSegment) with (0 / 20). field.
Qed.

Lemma straightLoop_spec (pathPoints : list Point) (n : nat) :
  forall (i : nat) (smoothPath : list Point),
    (i + n < length pathPoints)%nat ->
    exists added,
      straightLoop n (Z.of_nat i) pathPoints smoothPath
      = Ok (smoothPath ++ added)
      /\ throughPoints pathPoints i n added.
Proof.
  induction n as [|n IH]; intros i acc Hlen.
  - exists []. cbn [straightLoop]. rewrite app_nil_r.
    split; [reflexivity|]. split; [reflexivity|]. intros k Hk. lia.
  - cbn [straightLoop].
    destruct (at_index_in_range pathPoints (Z.of_nat i)) as [p1 E1]; [lia|].
    destruct (at_index_in_range pathPoints (Z.of_nat i + 1)) as [p2 E2];
      [lia|].
    rewrite E1, E2. cbn [deref bind].
    replace (Z.of_nat i + 1)%Z with (Z.of_nat (S i)) by lia.
    rewrite sampleSegment_app.
    destruct (IH (S i)
                (acc ++ sampleSegment (Z.to_nat pointsPerSegment) 0
                          (fun ratio =>
                             {| x := x p1 + (x p2 - x p1) * ratio;
                                y := y p1 + (y p2 - y p1) * ratio |}) []))
      as [added [Eq Ht]]; [lia|].
    eexists. split; [rewrite Eq, <- app_assoc; reflexivity|].
    apply at_index_some in E1. destruct E1 as [_ E1].
    rewrite Nat2Z.id in E1.
    eapply throughPoints_step; [apply sampleSegment_length | exact E1
                               | apply sampleSegment_head | | | exact Ht].
    + cbn [x]. change (inject_Z 0 / inject_Z pointsPerSegment) with (0 / 20).
      field.
    + cbn [y]. change (inject_Z 0 / inject_Z pointsPerSegment) with (0 / 20).
      field.
Qed.

(** X23. [createSmoothPath] of the first version, with or without smoothing:
    fewer than two path points are returned as they are; otherwise the path
    has twenty points for each segment and the last path point, that is
    [20 * (n - 1) + 1] points, and its point [20 * i] is path point [i]: the
    drawn curve passes through every point that was clicked. *)
Theorem X23_createSmoothPath_through_points (pathPoints : list Point)
  (useSmoothing : bool) :
  ((length pathPoints < 2)%nat ->
   createSmoothPath pathPoints useSmoothing = Ok pathPoints)
  /\ ((2 <= length pathPoints)%nat ->
      exists path,
        createSmoothPath pathPoints useSmoothing = Ok path
        /\ length path = (20 * (length pathPoints - 1) + 1)%nat
        /\ forall i p,
             nth_error pathPoints i = Some p ->
             exists q,
               nth_error path (20 * i) = Some q
               /\ x q == x p /\ y q == y p).
Proof.
  split; intro Hlen; unfold createSmoothPath.
  - replace (Z.of_nat (length pathPoints) <? 2)%Z with true
      by (symmetry; apply Z.ltb_lt; lia).
    reflexivity.
  - replace (Z.of_nat (length pathPoints) <? 2)%Z with false
      by (symmetry; apply Z.ltb_ge; lia).
    assert (Hloop : exists added,
               (if useSmoothing
                then smoothedLoop (length pathPoints - 1) 0 pathPoints []
                else straightLoop (length pathPoints - 1) 0 pathPoints [])
               = Ok added
               /\ throughPoints pathPoints 0 (length pathPoints - 1) added).
    { destruct useSmoothing.
      - destruct (smoothedLoop_spec pathPoints (length pathPoints - 1) 0 [])
          as [added [E H]]; [lia|]. exists added. split; assumption.
      - destruct (straightLoop_spec pathPoints (length pathPoints - 1) 0 [])
          as [added [E H]]; [lia|]. exists added. split; assumption. }
    destruct Hloop as [added [E [Hl Hk]]]. rewrite E. cbn [bind].
    destruct (at_index_in_range pathPoints
                (Z.of_nat (length pathPoints) - 1)) as [lastPoint El]; [lia|].
    rewrite El. cbn [deref bind].
    apply at_index_some in El. destruct El as [_ El].
    replace (Z.to_nat (Z.of_nat (length pathPoints) - 1))
      with (length pathPoints - 1)%nat in El by lia.
    eexists. split; [reflexivity|]. split.
    + rewrite length_app, Hl. cbn [length]. lia.
    + intros i p Hp.
      assert (Hi : (i < length pathPoints)%nat).
      { apply nth_error_Some. congruence. }
      destruct (Nat.eq_dec i (length pathPoints - 1)) as [Hi'|Hi'].
      * exists lastPoint. subst i.
        rewrite nth_error_app2 by lia.
        replace (20 * (length pathPoints - 1) - length added)%nat
          with 0%nat by lia.
        split; [reflexivity|].
        assert (p = lastPoint) by congruence. subst p.
        split; reflexivity.
      * destruct (Hk i) as [p' [q [Hp' [Hq Hxy]]]]; [lia|].
        cbn [Nat.add] in Hp'.
        assert (p' = p) by congruence. subst p'.
        exists q. split; [|exact Hxy].
        rewrite nth_error_app1 by lia. exact Hq.
Qed.

Lemma X23_fourPoints_witness :
  exists path,
    createSmoothPath fourPoints true = Ok path
    /\ length path = (20 * (length fourPoints - 1) + 1)%nat
    /\ forall i p,
         nth_error fourPoints i = Some p ->
         exists q,
           nth_error path (20 * i) = Some q
           /\ x q == x p /\ y q == y p.
Proof.
  apply (proj2 (X23_createSmoothPath_through_points fourPoints true)).
  unfold fourPoints. cbn [length]. lia.
Defined.

Lemma distanceMapLoop_length (sqrt : Q -> Q) (rest : list Point) :
  forall (prev : Point) (cumulative : Q),
    length (distanceMapLoop sqrt prev rest cumulative) = length rest.
Proof.
  induction rest as [|p rest IH]; intros prev c; cbn [distanceMapLoop length];
    [reflexivity|].
  now rewrite IH.
Qed.

Lemma last_cons_default {A : Type} (l : list A) :
  forall a d : A, last (a :: l) d = last l a.
Proof.
  induction l as [|b l IH]; intros a d; [reflexivity|].
  change (last (a :: b :: l) d) with (last (b :: l) d).
  now rewrite !IH.
Qed.

Lemma distanceMapLoop_last (sqrt : Q -> Q) (rest : list Point) :
  forall (prev : Point) (cumulative : Q),
    last (distanceMapLoop sqrt prev rest cumulative) cumulative
    = pathLengthLoop sqrt prev rest cumulative.
Proof.
  induction rest as [|p rest IH]; intros prev c;
    cbn [distanceMapLoop pathLengthLoop]; [reflexivity|].
  rewrite <- IH. apply last_cons_default.
Qed.

Lemma distanceMapLoop_nondecreasing (sqrt : Q -> Q)
  (sqrt_nonneg : forall v, 0 <= sqrt v) (rest : list Point) :
  forall (prev : Point) (cumulative : Q) (k : nat) (a b : Q),
    nth_error (cumulative :: distanceMapLoop sqrt prev rest cumulative) k
    = Some a ->
    nth_error (cumulative :: distanceMapLoop sqrt prev rest cumulative) (S k)
    = Some b ->
    a <= b.
Proof.
  induction rest as [|p rest IH]; intros prev c k a b Ha Hb.
  - cbn [distanceMapLoop] in Hb. destruct k; discriminate.
  - cbn [distanceMapLoop] in Ha, Hb. destruct k as [|k].
    + cbn [nth_error] in Ha, Hb. injection Ha as <-. injection Hb as <-.
      pose proof (sqrt_nonneg
                    ((x p - x prev) * (x p - x prev)
                     + (y p - y prev) * (y p - y prev))).
      lra.
    + change (nth_error (c :: ?l) (S ?n)) with (nth_error l n) in Ha, Hb.
      exact (IH p _ k a b Ha Hb).
Qed.

(** X24. [buildDistanceMap] of the first version has one entry for each
    point of the path, and the single entry 0 for an empty path; its first
    entry is 0 and its last entry is the number that [calculatePathLength]
    returns for the same path. With a square root that is never negative the
    entries never decrease. *)
Theorem X24_distance_map_and_path_length (sqrt : Q -> Q) (path : list Point) :
  length (buildDistanceMap sqrt path) = Nat.max 1 (length path)
  /\ nth_error (buildDistanceMap sqrt path) 0 = Some 0
  /\ last (buildDistanceMap sqrt path) 0 = calculatePathLength sqrt path
  /\ ((forall v, 0 <= sqrt v) ->
      forall k a b,
        nth_error (buildDistanceMap sqrt path) k = Some a ->
        nth_error (buildDistanceMap sqrt path) (S k) = Some b ->
        a <= b).
Proof.
  destruct path as [|p rest]; cbn [buildDistanceMap calculatePathLength].
  - repeat split. intros _ k a b Ha Hb. destruct k; discriminate.
  - split; [cbn [length]; now rewrite distanceMapLoop_length|].
    split; [reflexivity|]. split.
    + rewrite <- distanceMapLoop_last. apply last_cons_default.
    + intros Hs k a b. apply distanceMapLoop_nondecreasing. exact Hs.
Qed.

Lemma X24_fourPoints_witness :
  nth_error (buildDistanceMap sqrtQ fourPoints) 1 = Some 100
  /\ nth_error (buildDistanceMap sqrtQ fourPoints) 2 = Some 200
  /\ 100 <= 200.
Proof.
  split; [reflexivity|]. split; [reflexivity|].
  apply (proj2 (proj2 (proj2
           (X24_distance_map_and_path_length sqrtQ fourPoints)))
           sqrtQ_nonneg 1%nat 100 200); reflexivity.
Defined.

(** ** Easing and position lookup of the first version *)

Lemma waypointLoop_bounds (waypoints : list NamedWaypoint) (c len : Z) :
  forall prev next : Z,
    (prev = -1 \/ prev <= c)%Z ->
    (next = len \/ c < next)%Z ->
    (fst (waypointLoop waypoints c len prev next) = -1
     \/ fst (waypointLoop waypoints c len prev next) <= c)%Z
    /\ (snd (waypointLoop waypoints c len prev next) = len
        \/ c < snd (waypointLoop waypoints c len prev next))%Z.
Proof.
  induction waypoints as [|wp rest IH]; intros prev next Hp Hn;
    cbn [waypointLoop fst snd]; [split; assumption|].
  apply IH.
  - destruct (index wp <=? c)%Z eqn:E; [apply Z.leb_le in E; lia | exact Hp].
  - destruct ((index wp >? c)%Z && (next =? len)%Z) eqn:E; [|exact Hn].
    apply andb_true_iff in E. destruct E as [E _].
    rewrite Z.gtb_ltb in E. apply Z.ltb_lt in E. lia.
Qed.

Lemma applyWaypointEasing_range (waypoints : list NamedWaypoint)
  (pathPoints : list Point) (segmentIndex : Z) (t : Q) (pathLength : Z) :
  0 <= t ->
  exists eased,
    applyWaypointEasing waypoints pathPoints segmentIndex t pathLength
    = Ok eased
    /\ 0 <= eased <= t
    /\ (waypoints = [] -> eased = t).
Proof.
  intro Ht. unfold applyWaypointEasing.
  destruct (Z.of_nat (length waypoints) =? 0)%Z eqn:E0.
  { exists t. split; [reflexivity|]. split; [lra | reflexivity]. }
  assert (Hne : waypoints <> []).
  { intro H. subst waypoints. discriminate. }
  set (c := (segmentIndex / pointsPerSegment)%Z).
  set (len := Z.of_nat (length pathPoints)).
  pose proof (waypointLoop_bounds waypoints c len (-1) len
                (or_introl eq_refl) (or_introl eq_refl)) as [Hp Hn].
  destruct (waypointLoop waypoints c len (-1) len) as [prev next].
  cbn [fst snd] in Hp, Hn.
  destruct ((prev >=? 0)%Z && (next <? len)%Z) eqn:Eb.
  2:{ exists t. split; [reflexivity|]. split; [lra | contradiction]. }
  apply andb_true_iff in Eb. destruct Eb as [Eb1 Eb2].
  rewrite Z.geb_leb in Eb1. apply Z.leb_le in Eb1. apply Z.ltb_lt in Eb2.
  assert (Hpc : (prev <= c)%Z) by lia.
  assert (Hcn : (c < next)%Z) by lia.
  rewrite jsdiv_ok by (apply inject_Z_nonzero; lia).
  cbn [bind].
  set (pos := inject_Z (c - prev) / inject_Z (next - prev)).
  assert (Hpos : 0 <= pos < 1).
  { assert (Hd : 0 < inject_Z (next - prev)).
    { change 0 with (inject_Z 0). rewrite <- Zlt_Qlt. lia. }
    assert (Hnum : 0 <= inject_Z (c - prev)).
    { change 0 with (inject_Z 0). rewrite <- Zle_Qle. lia. }
    assert (Hlt : inject_Z (c - prev) < inject_Z (next - prev)).
    { rewrite <- Zlt_Qlt. lia. }
    unfold pos. split.
    - apply Qle_shift_div_l; [exact Hd | lra].
    - apply Qlt_shift_div_r; [exact Hd | lra]. }
  destruct (Qltb pos (3 # 10)) eqn:E1.
  - apply Qltb_true in E1. eexists. split; [reflexivity|].
    split; [|contradiction].
    set (easeT := pos / (3 # 10)).
    assert (He : 0 <= easeT <= 1).
    { unfold easeT. split.
      - apply Qle_shift_div_l; lra.
      - apply Qle_shift_div_r; lra. }
    assert (He2 : 0 <= easeT * easeT <= 1) by (split; nra).
    set (eased := easeT * easeT) in *.
    split; nra.
  - destruct (Qltb (7 # 10) pos) eqn:E2.
    + apply Qltb_true in E2. eexists. split; [reflexivity|].
      split; [|contradiction].
      set (easeT := (pos - (7 # 10)) / (3 # 10)).
      assert (He : 0 <= easeT <= 1).
      { unfold easeT. split.
        - apply Qle_shift_div_l; lra.
        - apply Qle_shift_div_r; lra. }
      assert (He2 : 0 <= 1 - (1 - easeT) * (1 - easeT) <= 1) by (split; nra).
      set (eased := 1 - (1 - easeT) * (1 - easeT)) in *.
      split; nra.
    + exists t. split; [reflexivity|]. split; [lra | contradiction].
Qed.

(** X25. [applyWaypointEasing] of the first version never fails and never
    pushes a sample forward: for [t >= 0] and any waypoints, path points and
    segment index, the result lies between 0 and [t]; the division by the
    distance between the two waypoints never has a zero divisor. Without
    waypoints the result is [t]. *)
Theorem X25_applyWaypointEasing_range (waypoints : list NamedWaypoint)
  (pathPoints : list Point) (segmentIndex : Z) (t : Q) (pathLength : Z) :
  0 <= t ->
  exists eased,
    applyWaypointEasing waypoints pathPoints segmentIndex t pathLength
    = Ok eased
    /\ 0 <= eased <= t
    /\ (waypoints = [] -> eased = t).
Proof.
  exact (applyWaypointEasing_range waypoints pathPoints segmentIndex t
           pathLength).
Qed.

Lemma X25_fourPoints_witness :
  exists eased,
    applyWaypointEasing
      [mkNamedWaypoint 0 "Start"; mkNamedWaypoint 3 "End"] fourPoints
      45 (1 # 2) 61
    = Ok eased
    /\ 0 <= eased <= 1 # 2
    /\ ([mkNamedWaypoint 0 "Start"; mkNamedWaypoint 3 "End"] = [] ->
        eased = 1 # 2).
Proof.
  apply (X25_applyWaypointEasing_range
           [mkNamedWaypoint 0 "Start"; mkNamedWaypoint 3 "End"] fourPoints
           45 (1 # 2) 61).
  vm_compute. discriminate.
Defined.

Lemma positionLoop_finds (waypoints : list NamedWaypoint)
  (pathPoints path : list Point) (distances : list Q)
  (targetDistance total : Q) :
  length path = length distances ->
  nth_error distances (length distances - 1) = Some total ->
  0 < targetDistance -> targetDistance < total ->
  forall (n i : nat) (di : Q),
    nth_error distances i = Some di ->
    di < targetDistance ->
    (i + n = length distances - 1)%nat ->
    exists pos p,
      positionLoop n (Z.of_nat i) waypoints pathPoints path distances
        targetDistance (Some total) = Ok (Some pos)
      /\ position pos = Some p
      /\ onPath path p
      /\ progress pos == targetDistance / total.
Proof.
  intros Hlen Htot Hpos Hlt. induction n as [|n IH]; intros i di Hi Hdi Hn.
  - rewrite Nat.add_0_r in Hn. subst i.
    rewrite Htot in Hi. injection Hi as <-. lra.
  - cbn [positionLoop].
    assert (Ei : at_index distances (Z.of_nat i) = Some di).
    { unfold at_index.
      replace (Z.of_nat i <? 0)%Z with false by (symmetry; apply Z.ltb_ge; lia).
      now rewrite Nat2Z.id. }
    destruct (at_index_in_range distances (Z.of_nat i + 1)) as [d' Ed'];
      [lia|].
    rewrite Ei, Ed'.
    pose proof Ed' as Hd'. apply at_index_some in Hd'.
    destruct Hd' as [_ Hd'].
    replace (Z.to_nat (Z.of_nat i + 1)) with (S i) in Hd' by lia.
    assert (Ege : Qgeb targetDistance di = true)
      by (apply Qgeb_true; lra).
    rewrite Ege. cbn [andb].
    destruct (Qle_bool targetDistance d') eqn:Ele.
    + apply Qle_bool_iff in Ele.
      destruct (at_index_in_range path (Z.of_nat i)) as [a Ea]; [lia|].
      destruct (at_index_in_range path (Z.of_nat i + 1)) as [b Eb]; [lia|].
      rewrite Ea, Eb. cbn [deref bind].
      rewrite jsdiv_ok by lra. cbn [bind].
      assert (Ht : 0 <= (targetDistance - di) / (d' - di) <= 1).
      { split.
        - apply Qle_shift_div_l; lra.
        - apply Qle_shift_div_r; lra. }
      destruct (applyWaypointEasing_range waypoints pathPoints (Z.of_nat i)
                  ((targetDistance - di) / (d' - di))
                  (Z.of_nat (length path)) (proj1 Ht))
        as [easedT [Ee [Hr _]]].
      rewrite Ee. cbn [bind as_number].
      rewrite jsdiv_ok by lra. cbn [bind].
      eexists. eexists. split; [reflexivity|].
      cbn [position progress]. split; [reflexivity|].
      split; [|reflexivity].
      apply at_index_some in Ea. destruct Ea as [_ Ea].
      rewrite Nat2Z.id in Ea.
      apply at_index_some in Eb. destruct Eb as [_ Eb].
      replace (Z.to_nat (Z.of_nat i + 1)) with (S i) in Eb by lia.
      exists i, a, b, easedT. cbn [x y].
      split; [exact Ea|]. split; [exact Eb|].
      split; [lra|]. split; reflexivity.
    + assert (Hd'lt : d' < targetDistance).
      { apply Qnot_le_lt. intro H. apply Qle_bool_iff in H. congruence. }
      replace (Z.of_nat i + 1)%Z with (Z.of_nat (S i)) by lia.
      apply (IH (S i) d' Hd' Hd'lt). lia.
Qed.

(** X26. [getPositionAtDistance] of the first version, for a distance table
    that starts at 0 and has one entry for each point of the path (as
    [buildDistanceMap] makes it): for every target distance it returns a
    position with coordinates and a progress between 0 and 1. At or below 0
    that is the first point with progress 0, at or beyond the total the last
    point with progress 1, and in between a point on the polyline, between
    two neighbouring points, with progress target / total; no division has a
    zero divisor, whatever the waypoints are. *)
Theorem X26_getPositionAtDistance_on_path (waypoints : list NamedWaypoint)
  (pathPoints path : list Point) (distances : list Q) (targetDistance : Q) :
  length path = length distances ->
  nth_error distances 0 = Some 0 ->
  exists total pos p,
    nth_error distances (length distances - 1) = Some total
    /\ getPositionAtDistance waypoints pathPoints path distances
         targetDistance = Ok pos
    /\ position pos = Some p
    /\ 0 <= progress pos <= 1
    /\ (targetDistance <= 0 ->
        nth_error path 0 = Some p /\ progress pos = 0)
    /\ (0 < targetDistance -> total <= targetDistance ->
        nth_error path (length path - 1) = Some p /\ progress pos = 1)
    /\ (0 < targetDistance -> targetDistance < total ->
        onPath path p /\ progress pos == targetDistance / total).
Proof.
  intros Hlen H0.
  assert (Hne : (0 < length distances)%nat).
  { apply nth_error_Some. congruence. }
  destruct (at_index_in_range distances (Z.of_nat (length distances) - 1))
    as [total Et]; [lia|].
  pose proof Et as Ht. apply at_index_some in Ht. destruct Ht as [_ Ht].
  replace (Z.to_nat (Z.of_nat (length distances) - 1))
    with (length distances - 1)%nat in Ht by lia.
  destruct (at_index_in_range path 0) as [first Ef]; [lia|].
  destruct (at_index_in_range path (Z.of_nat (length path) - 1))
    as [final El]; [lia|].
  pose proof Ef as Hf. apply at_index_some in Hf. destruct Hf as [_ Hf].
  change (Z.to_nat 0) with 0%nat in Hf.
  pose proof El as Hl. apply at_index_some in Hl. destruct Hl as [_ Hl].
  replace (Z.to_nat (Z.of_nat (length path) - 1))
    with (length path - 1)%nat in Hl by lia.
  exists total. unfold getPositionAtDistance. rewrite Et.
  destruct (Qle_bool targetDistance 0) eqn:E0.
  { apply Qle_bool_iff in E0.
    exists {| position := at_index path 0; progress := 0 |}, first.
    cbn [position progress].
    split; [exact Ht|]. split; [reflexivity|]. split; [exact Ef|].
    split; [lra|]. split; [intros _; split; [exact Hf | reflexivity]|].
    split; intros; lra. }
  assert (Hpos : 0 < targetDistance).
  { apply Qnot_le_lt. intro H. apply Qle_bool_iff in H. congruence. }
  destruct (Qgeb targetDistance total) eqn:E1.
  { apply Qgeb_true in E1.
    exists {| position := at_index path (Z.of_nat (length path) - 1);
              progress := 1 |}, final.
    cbn [position progress].
    split; [exact Ht|]. split; [reflexivity|]. split; [exact El|].
    split; [lra|]. split; [intro; lra|].
    split; [intros _ _; split; [exact Hl | reflexivity]|].
    intros; lra. }
  apply Qgeb_false in E1.
  destruct (positionLoop_finds waypoints pathPoints path distances
              targetDistance total Hlen Ht Hpos E1 (length distances - 1)
              0 0 H0 Hpos eq_refl)
    as [pos [p [Ep [Hp [Hon Hprog]]]]].
  change (Z.of_nat 0) with 0%Z in Ep. rewrite Ep. cbn [bind].
  exists pos, p.
  split; [exact Ht|]. split; [reflexivity|]. split; [exact Hp|].
  assert (Hq : 0 <= targetDistance / total <= 1).
  { split.
    - apply Qle_shift_div_l; lra.
    - apply Qle_shift_div_r; lra. }
  split; [rewrite Hprog; exact Hq|].
  split; [intro; lra|]. split; [intros; lra|].
  intros _ _. split; assumption.
Qed.

Lemma X26_fourPoints_witness :
  exists total pos p,
    nth_error (buildDistanceMap sqrtQ fourPoints)
      (length (buildDistanceMap sqrtQ fourPoints) - 1) = Some total
    /\ getPositionAtDistance [mkNamedWaypoint 0 "Start"] fourPoints
         fourPoints (buildDistanceMap sqrtQ fourPoints) 150 = Ok pos
    /\ position pos = Some p
    /\ 0 <= progress pos <= 1
    /\ (150 <= 0 -> nth_error fourPoints 0 = Some p /\ progress pos = 0)
    /\ (0 < 150 -> total <= 150 ->
        nth_error fourPoints (length fourPoints - 1) = Some p
        /\ progress pos = 1)
    /\ (0 < 150 -> 150 < total ->
        onPath fourPoints p /\ progress pos == 150 / total).
Proof.
  apply (X26_getPositionAtDistance_on_path [mkNamedWaypoint 0 "Start"]
           fourPoints fourPoints (buildDistanceMap sqrtQ fourPoints) 150).
  - vm_compute. reflexivity.
  - reflexivity.
Defined.

Lemma undoPoint_adjustment (lastIndex : Z) (waypoints : list NamedWaypoint) :
  Forall (fun wp => (index wp <= lastIndex)%Z) waypoints ->
  map (fun wp =>
         if (index wp >? lastIndex)%Z
         then {| index := index wp - 1; name := name wp |}
         else wp)
      waypoints
  = waypoints.
Proof.
  induction 1 as [|wp rest Hwp _ IH]; cbn [map]; [reflexivity|].
  rewrite IH. rewrite Z.gtb_ltb.
  replace (lastIndex <? index wp)%Z with false
    by (symmetry; apply Z.ltb_ge; exact Hwp).
  reflexivity.
Qed.

(** X27. [undoPoint] of the first version does nothing on an empty path.
    Otherwise, when every waypoint names a point of the path, it removes the
    last path point and exactly the waypoints on that point, leaves every
    other waypoint as it is (the adjustment of larger indices finds nothing
    to adjust), and every remaining waypoint names a point of the shorter
    path. *)
Theorem X27_undoPoint_keeps_waypoints_valid (pathPoints : list Point)
  (waypoints : list NamedWaypoint) :
  undoPoint [] waypoints = ([], waypoints)
  /\ (pathPoints <> [] ->
      validWaypoints pathPoints waypoints ->
      undoPoint pathPoints waypoints
      = (removelast pathPoints,
         filter (fun wp =>
                   negb (index wp =? Z.of_nat (length pathPoints) - 1)%Z)
                waypoints)
      /\ length (fst (undoPoint pathPoints waypoints))
         = (length pathPoints - 1)%nat
      /\ validWaypoints (fst (undoPoint pathPoints waypoints))
           (snd (undoPoint pathPoints waypoints))).
Proof.
  split; [reflexivity|]. intros Hne Hv.
  assert (Hlen : (0 < length pathPoints)%nat).
  { destruct pathPoints; [contradiction | cbn [length]; lia]. }
  assert (Hrl : length (removelast pathPoints) = (length pathPoints - 1)%nat).
  { rewrite (app_removelast_last (mkPoint 0 0) Hne) at 2.
    rewrite length_app. cbn [length]. lia. }
  assert (E : undoPoint pathPoints waypoints
              = (removelast pathPoints,
                 filter (fun wp =>
                           negb (index wp
                                 =? Z.of_nat (length pathPoints) - 1)%Z)
                        waypoints)).
  { unfold undoPoint.
    replace (Z.of_nat (length pathPoints) >? 0)%Z with true
      by (symmetry; rewrite Z.gtb_ltb; apply Z.ltb_lt; lia).
    rewrite undoPoint_adjustment; [reflexivity|].
    apply Forall_forall. intros wp Hin. apply filter_In in Hin.
    destruct Hin as [Hin _].
    unfold validWaypoints in Hv. rewrite Forall_forall in Hv.
    specialize (Hv wp Hin). lia. }
  rewrite E. cbn [fst snd]. split; [reflexivity|]. split; [exact Hrl|].
  unfold validWaypoints in *. rewrite Forall_forall in *.
  intros wp Hin. apply filter_In in Hin. destruct Hin as [Hin Hneq].
  specialize (Hv wp Hin). rewrite Hrl.
  apply negb_true_iff in Hneq. apply Z.eqb_neq in Hneq. lia.
Qed.

Lemma X27_fourPoints_witness :
  undoPoint fourPoints
    [mkNamedWaypoint 0 "Start"; mkNamedWaypoint 3 "End"]
  = (removelast fourPoints,
     filter (fun wp => negb (index wp =? Z.of_nat (length fourPoints) - 1)%Z)
            [mkNamedWaypoint 0 "Start"; mkNamedWaypoint 3 "End"])
  /\ length (fst (undoPoint fourPoints
                    [mkNamedWaypoint 0 "Start"; mkNamedWaypoint 3 "End"]))
     = (length fourPoints - 1)%nat
  /\ validWaypoints
       (fst (undoPoint fourPoints
               [mkNamedWaypoint 0 "Start"; mkNamedWaypoint 3 "End"]))
       (snd (undoPoint fourPoints
               [mkNamedWaypoint 0 "Start"; mkNamedWaypoint 3 "End"])).
Proof.
  apply (proj2 (X27_undoPoint_keeps_waypoints_valid fourPoints
                  [mkNamedWaypoint 0 "Start"; mkNamedWaypoint 3 "End"])).
  - discriminate.
  - repeat constructor; vm_compute; discriminate.
Defined.
